(** * KEngine: the calculation network and the Newton solver

    A shallow embedding of [kengine/performance.py], [kengine/engines.py]
    and [kengine/solver.py].

    - Python objects are identified by a natural number ([obj]); the
      attributes an object carries live in maps indexed by [obj], and
      parameter dicts in a map indexed by the identity of the dict, so two
      references to the same object or dict alias.
    - A Python exception is a value of [exn]; a method that may raise
      returns an [outcome]: the state reached, and whether it was reached
      normally or by a raise.  State changes made before a raise persist,
      as they do in Python.
    - Recursive methods take a [depth] argument, the room left on the
      interpreter's call stack; [None] is the interpreter giving up on the
      recursion. *)

From Stdlib Require Import List Arith Bool Lia String ZArith QArith Qabs.
From Stdlib Require Import Floats.PrimFloat.
Import ListNotations.

Close Scope Q_scope.
Open Scope nat_scope.

Set Implicit Arguments.
Set Warnings "-inexact-float".

(** ** Objects, exceptions, outcomes *)

Definition obj := nat.

Inductive exn : Type :=
| AssertionError
| LookupError
| KeyError (key : string)
| IndexError
| TypeError
| AttributeError (attr : string)
| NotImplementedError
| ZeroDivisionError
| LinAlgError
| Exception (msg : string).

Inductive outcome (S : Type) : Type :=
| Done (s : S)
| Raised (e : exn) (s : S).

Arguments Done {S} s.
Arguments Raised {S} e s.

Definition state_of {S : Type} (o : outcome S) : S :=
  match o with Done s => s | Raised _ s => s end.

(** [for d in ds: body(d)], where the body may raise or exhaust the stack. *)
Fixpoint for_each {S : Type} (body : obj -> S -> option (outcome S))
    (ds : list obj) (s : S) : option (outcome S) :=
  match ds with
  | [] => Some (Done s)
  | d :: ds' =>
      match body d s with
      | Some (Done s') => for_each body ds' s'
      | r => r
      end
  end.

(** The same loop for a body that cannot raise. *)
Fixpoint for_all {S : Type} (body : obj -> S -> option S)
    (ds : list obj) (s : S) : option S :=
  match ds with
  | [] => Some s
  | d :: ds' =>
      match body d s with
      | Some s' => for_all body ds' s'
      | None => None
      end
  end.

(** ** performance.py: class Calculable *)

Module Calculable.

Section Network.

(** Everything [calculate] methods read and write: station values,
    component attributes, derived quantities. *)
Variable Data : Type.

(** [self.dependents] and [self.precedents]: fixed once the network is
    wired; [make_dirty] and [update] only read them. *)
Variable dependents : obj -> list obj.
Variable precedents : obj -> list obj.

(** [self.calculate()], dispatched on the class of [self]. *)
Variable calculate : obj -> Data -> outcome Data.

(** The mutable part of the network.  [calls] is a ghost field: the
    objects whose [calculate] has been invoked, oldest first. *)
Record state : Type := mk_state {
  dirty : obj -> bool;
  data : Data;
  calls : list obj
}.

Definition set_dirty (self : obj) (b : bool) (s : state) : state :=
  mk_state (fun o => if Nat.eqb o self then b else dirty s o)
           (data s) (calls s).

(** [__init__]: every Calculable starts dirty. *)
Definition init (d : Data) : state := mk_state (fun _ => true) d [].

(** How often [calculate] has been invoked on [m] so far. *)
Definition times_calculated (s : state) (m : obj) : nat :=
  count_occ Nat.eq_dec (calls s) m.

(** [def make_dirty(self)] *)
Fixpoint make_dirty (depth : nat) (self : obj) (s : state) : option state :=
  match depth with
  | O => None
  | S k => for_all (make_dirty k) (dependents self) (set_dirty self true s)
  end.

(** [def update(self)].  The failing [assert] formats its message with
    [self.name], which every concrete class (Station, Component) sets. *)
Fixpoint update (depth : nat) (self : obj) (s : state)
  : option (outcome state) :=
  match depth with
  | O => None
  | S k =>
      if negb (dirty s self) then Some (Raised AssertionError s)
      else if existsb (dirty s) (precedents self) then Some (Done s)
      else
        let s1 := set_dirty self false s in
        match calculate self (data s1) with
        | Raised e d' =>
            Some (Raised e (mk_state (dirty s1) d' (calls s1 ++ [self])))
        | Done d' =>
            for_each (update k) (dependents self)
                     (mk_state (dirty s1) d' (calls s1 ++ [self]))
        end
  end.

(** What [Engine.update] does with its environment: dirty the root and
    everything below it, then start the propagation there. *)
Definition update_from_root (depth : nat) (root : obj) (s : state)
  : option (outcome state) :=
  match make_dirty depth root s with
  | None => None
  | Some s' => update depth root s'
  end.

(** [reach n m]: [m] is [n] or one of its transitive dependents. *)
Inductive reach : obj -> obj -> Prop :=
| reach_refl : forall n, reach n n
| reach_step : forall n d m, In d (dependents n) -> reach d m -> reach n m.

(** A dirty object all of whose precedents are clean: [update] on it
    would run [calculate]. *)
Definition ready (s : state) (d : obj) : Prop :=
  dirty s d = true /\ forall q, In q (precedents d) -> dirty s q = false.

(** *** Basic facts about the flags *)

Lemma dirty_set_dirty_same : forall n b s, dirty (set_dirty n b s) n = b.
Proof. intros n b s. simpl. now rewrite Nat.eqb_refl. Qed.

Lemma dirty_set_dirty_other :
  forall n b s m, m <> n -> dirty (set_dirty n b s) m = dirty s m.
Proof.
  intros n b s m Hm. simpl.
  destruct (Nat.eqb_spec m n); [contradiction | reflexivity].
Qed.

Lemma reach_trans : forall a b c, reach a b -> reach b c -> reach a c.
Proof.
  intros a b c Hab. induction Hab as [n | n d m Hd _ IH]; intro Hbc.
  - exact Hbc.
  - eapply reach_step; eauto.
Qed.

Lemma reach_dependent : forall n d, In d (dependents n) -> reach n d.
Proof. intros n d Hd. eapply reach_step; [exact Hd | apply reach_refl]. Qed.

(** Reading a path from its far end: a reachable object is the start or
    a direct dependent of a reachable object. *)
Lemma reach_last :
  forall n m, reach n m -> m = n \/ exists p, reach n p /\ In m (dependents p).
Proof.
  intros n m H. induction H as [n | n d m Hd Hdm IH].
  - now left.
  - right. destruct IH as [-> | [p [Hp Hm]]].
    + exists n. split; [apply reach_refl | exact Hd].
    + exists p. split; [eapply reach_step; eauto | exact Hm].
Qed.

(** *** One call of [update] *)

(** C2.  [update] on a clean object raises [AssertionError] and changes
    nothing; [update] on a dirty object one of whose precedents is dirty
    returns normally and changes nothing: the object stays dirty, no
    [calculate] is invoked, no dependent is touched. *)
Theorem C2_update_fresh_asserts_blocked_noop :
  forall (depth : nat) (n : obj) (s : state),
    (dirty s n = false ->
       update (S depth) n s = Some (Raised AssertionError s)) /\
    (dirty s n = true ->
       (exists p, In p (precedents n) /\ dirty s p = true) ->
       update (S depth) n s = Some (Done s)).
Proof.
  intros depth n s. split.
  - intro Hd. simpl. now rewrite Hd.
  - intros Hd Hp. simpl. rewrite Hd. simpl.
    now rewrite (proj2 (existsb_exists (dirty s) (precedents n)) Hp).
Qed.

(** C10.  When [update] finds its object dirty and every precedent clean,
    and [calculate] raises [e] having brought the data to [d'], then
    [update] raises [e]; the object is left clean, no other flag has
    moved, and the only [calculate] invoked is its own: no dependent has
    been updated. *)
Theorem C10_update_clears_flag_before_calculate :
  forall (depth : nat) (n : obj) (s : state) (e : exn) (d' : Data),
    dirty s n = true ->
    (forall p, In p (precedents n) -> dirty s p = false) ->
    calculate n (data s) = Raised e d' ->
    exists s',
      update (S depth) n s = Some (Raised e s') /\
      dirty s' n = false /\
      (forall m, m <> n -> dirty s' m = dirty s m) /\
      data s' = d' /\
      calls s' = calls s ++ [n].
Proof.
  intros depth n s e d' Hd Hpre Hcalc.
  assert (Hex : existsb (dirty s) (precedents n) = false).
  { destruct (existsb (dirty s) (precedents n)) eqn:Hex; [| reflexivity].
    apply existsb_exists in Hex. destruct Hex as [q [Hq Hqd]].
    rewrite (Hpre q Hq) in Hqd. discriminate. }
  eexists. split.
  - simpl. rewrite Hd. simpl. rewrite Hex, Hcalc. reflexivity.
  - simpl. rewrite Nat.eqb_refl. repeat split.
    intros m Hm. apply Nat.eqb_neq in Hm. now rewrite Hm.
Qed.

(** *** What [make_dirty] does to the state *)

(** [marked P s s']: the objects in [P] are dirty in [s'], nothing was
    cleaned, nothing outside [P] was touched. *)
Definition marked (P : obj -> Prop) (s s' : state) : Prop :=
  (forall m, P m -> dirty s' m = true) /\
  (forall m, dirty s m = true -> dirty s' m = true) /\
  (forall m, ~ P m -> dirty s' m = dirty s m) /\
  data s' = data s /\ calls s' = calls s.

Lemma marked_loop :
  forall (body : obj -> state -> option state) ds,
    (forall d s, In d ds -> exists s', body d s = Some s' /\ marked (reach d) s s') ->
    forall s, exists s',
      for_all body ds s = Some s' /\
      marked (fun m => exists d, In d ds /\ reach d m) s s'.
Proof.
  intros body ds. induction ds as [| d ds IH]; intros Hbody s.
  - exists s. split; [reflexivity |].
    repeat split; auto. intros m [d [[] _]].
  - destruct (Hbody d s (or_introl eq_refl)) as [s1 [E1 M1]].
    destruct (IH (fun d' s' H => Hbody d' s' (or_intror H)) s1) as [s2 [E2 M2]].
    exists s2. simpl. rewrite E1. split; [exact E2 |].
    destruct M1 as (A1 & B1 & C1 & D1 & F1).
    destruct M2 as (A2 & B2 & C2 & D2 & F2).
    repeat split.
    + intros m [d' [[<- | Hin] Hr]].
      * apply B2, A1, Hr.
      * apply A2. exists d'. auto.
    + intros m Hm. apply B2, B1, Hm.
    + intros m Hm. rewrite C2, C1; [reflexivity | |].
      * intro Hr. apply Hm. exists d. split; [now left | exact Hr].
      * intros [d' [Hin Hr]]. apply Hm. exists d'. split; [now right | exact Hr].
    + congruence.
    + congruence.
Qed.

Lemma for_all_each :
  forall (body : obj -> state -> option state) ds s s',
    for_all body ds s = Some s' ->
    forall d, In d ds -> exists s0 s0', body d s0 = Some s0'.
Proof.
  intros body ds. induction ds as [| d0 ds IH]; intros s s' E d Hd;
    [destruct Hd |].
  simpl in E. destruct (body d0 s) as [s1 |] eqn:E1; [| discriminate].
  destruct Hd as [<- | Hd]; [eauto | eapply IH; eauto].
Qed.

(** Whether [make_dirty] returns depends on the wiring alone: where it
    returned from one state it returns from any other, having marked the
    object and its transitive dependents. *)
Lemma make_dirty_again :
  forall depth n s s',
    make_dirty depth n s = Some s' ->
    forall t, exists t', make_dirty depth n t = Some t' /\ marked (reach n) t t'.
Proof.
  induction depth as [| k IH]; intros n s s' E t; [discriminate |].
  simpl in E. simpl.
  destruct (marked_loop (make_dirty k) (dependents n)) with
      (s := set_dirty n true t) as [t' [Et M]].
  { intros d s0 Hd.
    destruct (for_all_each _ _ _ E d Hd) as (s1 & s1' & E1).
    exact (IH d s1 s1' E1 s0). }
  exists t'. split; [exact Et |].
  destruct M as (A & B & C & D & F).
  repeat split.
  - intros m Hm. destruct Hm as [n | n d m Hd Hdm].
    + apply B. apply dirty_set_dirty_same.
    + apply A. exists d. auto.
  - intros m Hm. apply B.
    destruct (Nat.eq_dec m n) as [-> | Hne].
    + apply dirty_set_dirty_same.
    + rewrite dirty_set_dirty_other; auto.
  - intros m Hm. rewrite C.
    + apply dirty_set_dirty_other. intros ->. apply Hm, reach_refl.
    + intros [d [Hd Hr]]. apply Hm. eapply reach_step; eauto.
  - exact D.
  - exact F.
Qed.

(** *** What [update] does to the state *)

(** [ran P s s']: between [s] and [s'] the [calculate] of some objects of
    [P] was invoked, each at most once; exactly those objects went from
    dirty to clean, and no other flag moved. *)
Definition ran (P : obj -> Prop) (s s' : state) : Prop :=
  exists l,
    calls s' = calls s ++ l /\ NoDup l /\
    (forall m, In m l -> P m /\ dirty s m = true /\ dirty s' m = false) /\
    (forall m, ~ In m l -> dirty s' m = dirty s m).

Lemma ran_refl : forall P s, ran P s s.
Proof.
  intros P s. exists []. rewrite app_nil_r.
  split; [reflexivity |]. split; [apply NoDup_nil |].
  split; [intros m [] | reflexivity].
Qed.

Lemma ran_weaken :
  forall (P Q : obj -> Prop) s s',
    (forall m, P m -> Q m) -> ran P s s' -> ran Q s s'.
Proof.
  intros P Q s s' HPQ (l & Hc & Hnd & Hin & Hout).
  exists l. split; [exact Hc |]. split; [exact Hnd |]. split; [| exact Hout].
  intros m Hm. destruct (Hin m Hm) as (H1 & H2 & H3). auto.
Qed.

Lemma ran_trans :
  forall P s s1 s2, ran P s s1 -> ran P s1 s2 -> ran P s s2.
Proof.
  intros P s s1 s2 (l1 & Hc1 & Hnd1 & Hin1 & Hout1) (l2 & Hc2 & Hnd2 & Hin2 & Hout2).
  assert (Hdisj : forall m, In m l1 -> ~ In m l2).
  { intros m H1 H2. apply Hin1 in H1. apply Hin2 in H2.
    destruct H1 as (_ & _ & H1), H2 as (_ & H2 & _). congruence. }
  exists (l1 ++ l2).
  split; [rewrite Hc2, Hc1; now rewrite app_assoc |].
  split; [apply NoDup_app; auto |].
  split.
  - intros m Hm. apply in_app_or in Hm. destruct Hm as [H | H].
    + destruct (Hin1 m H) as (A & B & C).
      rewrite (Hout2 m (Hdisj m H)). auto.
    + destruct (Hin2 m H) as (A & B & C).
      assert (Hn : ~ In m l1) by (intro H1; exact (Hdisj m H1 H)).
      rewrite <- (Hout1 m Hn). auto.
  - intros m Hm. rewrite Hout2, Hout1; auto; intro H; apply Hm, in_or_app; auto.
Qed.

Lemma ran_loop :
  forall (body : obj -> state -> option (outcome state)) P ds,
    (forall d s out, In d ds -> body d s = Some out -> ran P s (state_of out)) ->
    forall s out, for_each body ds s = Some out -> ran P s (state_of out).
Proof.
  intros body P ds. induction ds as [| d ds IH]; intros Hbody s out E.
  - simpl in E. inversion E. apply ran_refl.
  - simpl in E. destruct (body d s) as [[s1 | e s1] |] eqn:Eb.
    + eapply ran_trans.
      * apply (Hbody d s (Done s1)); [now left | exact Eb].
      * apply IH; [| exact E]. intros d' s' o' Hin. apply Hbody. now right.
    + inversion E; subst. apply (Hbody d s _ (or_introl eq_refl) Eb).
    + discriminate.
Qed.

(** The state right after [self.dirty = False; self.calculate()]. *)
Lemma ran_self :
  forall n s d' ,
    dirty s n = true ->
    ran (reach n) s (mk_state (dirty (set_dirty n false s)) d'
                              (calls (set_dirty n false s) ++ [n])).
Proof.
  intros n s d' Hd. exists [n]. simpl.
  split; [reflexivity |].
  split; [constructor; [intros [] | constructor] |].
  split.
  - intros m [<- | []]. rewrite Nat.eqb_refl. auto using reach_refl.
  - intros m Hm. destruct (Nat.eqb_spec m n) as [-> | _]; [| reflexivity].
    exfalso. apply Hm. now left.
Qed.

Lemma update_ran :
  forall depth n s out,
    update depth n s = Some out -> ran (reach n) s (state_of out).
Proof.
  induction depth as [| k IH]; intros n s out E; [discriminate |].
  simpl in E. destruct (dirty s n) eqn:Hd; simpl in E.
  2:{ inversion E. apply ran_refl. }
  destruct (existsb (dirty s) (precedents n)).
  { inversion E. apply ran_refl. }
  destruct (calculate n (data s)) as [d' | e d'].
  - eapply ran_trans; [apply ran_self with (d' := d'); exact Hd |].
    eapply ran_loop; [| exact E].
    intros d s0 o Hin Eo. eapply ran_weaken; [| apply (IH _ _ _ Eo)].
    intros m Hm. eapply reach_step; eauto.
  - inversion E. apply ran_self. exact Hd.
Qed.

(** No [calculate] is invoked twice by one [update], however it ends. *)
Lemma ran_at_most_once :
  forall P s s' m, ran P s s' ->
    times_calculated s' m <= S (times_calculated s m).
Proof.
  intros P s s' m (l & Hc & Hnd & _ & _).
  unfold times_calculated. rewrite Hc, count_occ_app.
  pose proof (proj1 (NoDup_count_occ Nat.eq_dec l) Hnd m).
  unfold obj in *. lia.
Qed.

(** An object that was dirty and is clean afterwards was calculated
    exactly once in between. *)
Lemma ran_exactly_once :
  forall P s s' m, ran P s s' ->
    dirty s m = true -> dirty s' m = false ->
    times_calculated s' m = S (times_calculated s m).
Proof.
  intros P s s' m (l & Hc & Hnd & _ & Hout) H1 H2.
  unfold times_calculated. rewrite Hc, count_occ_app.
  assert (Hin : In m l).
  { destruct (in_dec Nat.eq_dec m l) as [H | H]; [exact H |].
    rewrite (Hout m H) in H2. congruence. }
  pose proof (proj1 (NoDup_count_occ Nat.eq_dec l) Hnd m).
  pose proof (proj1 (count_occ_In Nat.eq_dec l m) Hin).
  unfold obj in *. lia.
Qed.

(** An object outside [P] is not calculated. *)
Lemma ran_untouched :
  forall (P : obj -> Prop) s s' m, ran P s s' -> ~ P m ->
    times_calculated s' m = times_calculated s m /\ dirty s' m = dirty s m.
Proof.
  intros P s s' m (l & Hc & _ & Hin & Hout) HP.
  assert (Hn : ~ In m l) by (intro H; apply Hin in H; tauto).
  split; [| auto].
  unfold times_calculated. rewrite Hc, count_occ_app.
  pose proof (proj1 (count_occ_not_In Nat.eq_dec l m) Hn).
  unfold obj in *. lia.
Qed.

Lemma returns_loop :
  forall (body : obj -> state -> option (outcome state)) ds,
    (forall d s, In d ds -> exists out, body d s = Some out) ->
    forall s, exists out, for_each body ds s = Some out.
Proof.
  intros body ds. induction ds as [| d ds IH]; intros Hbody s; simpl.
  - eauto.
  - destruct (Hbody d s (or_introl eq_refl)) as [[s1 | e s1] ->].
    + apply IH. intros d' s' Hin. apply Hbody. now right.
    + eauto.
Qed.

Section Acyclic.

(** The network has no cycle: some numbering of the objects decreases
    along every dependent link. *)
Variable level : obj -> nat.
Hypothesis acyclic : forall n d, In d (dependents n) -> level d < level n.

Lemma reach_level : forall n m, reach n m -> level m <= level n.
Proof.
  intros n m H. induction H as [n | n d m Hd _ IH]; [lia |].
  specialize (acyclic _ _ Hd). lia.
Qed.

(** [make_dirty] returns on an acyclic network, and marks exactly the
    object and its transitive dependents, whatever was dirty before. *)
Lemma make_dirty_marks :
  forall depth n s, level n < depth ->
    exists s', make_dirty depth n s = Some s' /\ marked (reach n) s s'.
Proof.
  induction depth as [| k IH]; intros n s Hlt; [lia |].
  simpl.
  destruct (marked_loop (make_dirty k) (dependents n)) with
      (s := set_dirty n true s) as [s' [E M]].
  { intros d s0 Hd. apply IH. specialize (acyclic _ _ Hd). lia. }
  exists s'. split; [exact E |].
  destruct M as (A & B & C & D & F).
  repeat split.
  - intros m Hm. destruct Hm as [n | n d m Hd Hdm].
    + apply B. apply dirty_set_dirty_same.
    + apply A. exists d. auto.
  - intros m Hm. apply B.
    destruct (Nat.eq_dec m n) as [-> | Hne].
    + apply dirty_set_dirty_same.
    + rewrite dirty_set_dirty_other; auto.
  - intros m Hm. rewrite C.
    + apply dirty_set_dirty_other. intros ->. apply Hm, reach_refl.
    + intros [d [Hd Hr]]. apply Hm. eapply reach_step; eauto.
  - exact D.
  - exact F.
Qed.

(** [update] returns on an acyclic network: normally, or with whatever
    was raised on the way. *)
Lemma update_returns :
  forall depth n s, level n < depth -> exists out, update depth n s = Some out.
Proof.
  induction depth as [| k IH]; intros n s Hlt; [lia |].
  simpl. destruct (negb (dirty s n)); [eauto |].
  destruct (existsb (dirty s) (precedents n)); [eauto |].
  destruct (calculate n (data s)) as [d' | e d']; [| eauto].
  apply returns_loop. intros d s0 Hd. apply IH.
  specialize (acyclic _ _ Hd). lia.
Qed.

Section SingleRoot.

(** The propagation root ([Engine.environment]). *)
Variable root : obj.

(** Every precedent link has its dependent link, as the [connect_*] and
    [add_*] methods establish them. *)
Hypothesis linked : forall d q, In q (precedents d) -> In d (dependents q).

(** No second root: whatever an object below [root] waits for is itself
    below [root]. *)
Hypothesis single_root :
  forall m q, reach root m -> In q (precedents m) -> reach root q.

(** [notified s W]: every ready dependent of a clean object below the
    root still has its [update] call pending in [W]. *)
Definition notified (s : state) (W : list obj) : Prop :=
  forall p d, reach root p -> dirty s p = false ->
    In d (dependents p) -> ready s d -> In d W.

Lemma notified_after_calculate :
  forall n s d' W,
    dirty s n = true ->
    notified s (n :: W) ->
    notified (mk_state (dirty (set_dirty n false s)) d'
                       (calls (set_dirty n false s) ++ [n]))
             (dependents n ++ W).
Proof.
  intros n s d' W Hn Hnot p d Hp Hclean Hin [Hd Hpre]. simpl in *.
  apply in_or_app.
  destruct (Nat.eq_dec p n) as [Epn | Epn]; [subst p; now left |].
  apply Nat.eqb_neq in Epn. rewrite Epn in Hclean.
  destruct (Nat.eq_dec d n) as [Edn | Edn].
  { subst d. rewrite Nat.eqb_refl in Hd. discriminate. }
  apply Nat.eqb_neq in Edn. rewrite Edn in Hd.
  destruct (in_dec Nat.eq_dec n (precedents d)) as [Hnd | Hnd].
  - left. apply linked. exact Hnd.
  - right. assert (Hr : ready s d).
    { split; [exact Hd |]. intros q Hq. specialize (Hpre q Hq).
      destruct (Nat.eq_dec q n) as [Eqn | Eqn]; [subst q; contradiction |].
      apply Nat.eqb_neq in Eqn. now rewrite Eqn in Hpre. }
    destruct (Hnot p d Hp Hclean Hin Hr) as [E | HW]; [| exact HW].
    subst d. now rewrite Nat.eqb_refl in Edn.
Qed.

Lemma notified_loop :
  forall (body : obj -> state -> option (outcome state)) ds,
    (forall d s W s', In d ds -> notified s (d :: W) ->
                      body d s = Some (Done s') -> notified s' W) ->
    forall s W s', notified s (ds ++ W) ->
      for_each body ds s = Some (Done s') -> notified s' W.
Proof.
  intros body ds. induction ds as [| d ds IH]; intros Hbody s W s' Hnot E.
  - simpl in E. inversion E; subst. exact Hnot.
  - simpl in E. destruct (body d s) as [[s1 | e s1] |] eqn:Eb; try discriminate.
    apply IH with (s := s1); [| | exact E].
    + intros d0 s0 W0 s0' Hin. apply Hbody. now right.
    + apply (Hbody d s (ds ++ W) s1); [now left | exact Hnot | exact Eb].
Qed.

(** A normal return of [update] has served its own pending call. *)
Lemma update_notifies :
  forall depth n s W s',
    notified s (n :: W) -> update depth n s = Some (Done s') -> notified s' W.
Proof.
  induction depth as [| k IH]; intros n s W s' Hnot E; [discriminate |].
  simpl in E. destruct (dirty s n) eqn:Hd; simpl in E; [| discriminate].
  destruct (existsb (dirty s) (precedents n)) eqn:Hex.
  - inversion E; subst s'. intros p d Hp Hc Hin Hr.
    destruct (Hnot p d Hp Hc Hin Hr) as [<- | HW]; [| exact HW].
    apply existsb_exists in Hex. destruct Hex as [q [Hq Hqd]].
    destruct Hr as [_ Hpre]. rewrite (Hpre q Hq) in Hqd. discriminate.
  - destruct (calculate n (data s)) as [d' | e d']; [| discriminate].
    eapply notified_loop; [| | exact E].
    + intros d s0 W0 s0' _. apply IH.
    + apply notified_after_calculate; assumption.
Qed.

(** A ready object is clean once its own [update] is over. *)
Lemma update_cleans_ready :
  forall depth n s out,
    ready s n -> update depth n s = Some out -> dirty (state_of out) n = false.
Proof.
  intros [| k] n s out [Hd Hpre] E; [discriminate |].
  simpl in E. rewrite Hd in E. simpl in E.
  assert (Hex : existsb (dirty s) (precedents n) = false).
  { destruct (existsb (dirty s) (precedents n)) eqn:Hex; [| reflexivity].
    apply existsb_exists in Hex. destruct Hex as [q [Hq Hqd]].
    rewrite (Hpre q Hq) in Hqd. discriminate. }
  rewrite Hex in E.
  destruct (calculate n (data s)) as [d' | e d'].
  - assert (R : ran (reach n)
                    (mk_state (dirty (set_dirty n false s)) d'
                              (calls (set_dirty n false s) ++ [n]))
                    (state_of out)).
    { eapply ran_loop; [| exact E]. intros d s0 o Hin Eo.
      eapply ran_weaken; [| apply (update_ran _ _ _ Eo)].
      intros m Hm. eapply reach_step; eauto. }
    destruct R as (l & _ & _ & Hin & Hout).
    destruct (in_dec Nat.eq_dec n l) as [H | H].
    + now apply Hin in H.
    + rewrite (Hout n H). simpl. now rewrite Nat.eqb_refl.
  - inversion E. simpl. now rewrite Nat.eqb_refl.
Qed.

Lemma root_has_no_precedent : forall q, ~ In q (precedents root).
Proof.
  intros q Hq.
  assert (Hr : reach root q).
  { apply single_root with (m := root); [apply reach_refl | exact Hq]. }
  apply reach_level in Hr.
  apply linked, acyclic in Hq. lia.
Qed.

(** Started at the root with everything below it dirty, a normal return
    of [update] leaves nothing below the root dirty. *)
Lemma update_root_complete :
  forall depth s s',
    (forall m, reach root m -> dirty s m = true) ->
    update depth root s = Some (Done s') ->
    forall m, reach root m -> dirty s' m = false.
Proof.
  intros depth s s' Hall E.
  assert (Hnot : notified s' []).
  { apply update_notifies with (depth := depth) (n := root) (s := s); [| exact E].
    intros p d Hp Hc. rewrite (Hall p Hp) in Hc. discriminate. }
  assert (Hroot : dirty s' root = false).
  { apply update_cleans_ready with (depth := depth) (s := s) (out := Done s');
      [| exact E].
    split; [apply Hall, reach_refl |].
    intros q Hq. destruct (root_has_no_precedent q Hq). }
  assert (Hind : forall k m, level root - level m < k ->
                             reach root m -> dirty s' m = false).
  { induction k as [| k IHk]; intros m Hk Hm; [lia |].
    destruct (reach_last Hm) as [-> | [p [Hp Hin]]]; [exact Hroot |].
    pose proof (acyclic _ _ Hin) as Hlt.
    pose proof (reach_level Hp) as Hle.
    destruct (dirty s' m) eqn:Hd; [| reflexivity].
    exfalso. apply (Hnot p m Hp); [apply IHk; [lia | exact Hp] | exact Hin |].
    split; [exact Hd |]. intros q Hq. apply IHk.
    - assert (Hr : reach root q) by (apply single_root with (m := m); assumption).
      apply reach_level in Hr. apply linked, acyclic in Hq. lia.
    - apply single_root with (m := m); assumption. }
  intros m Hm. apply (Hind (S (level root - level m))); [lia | exact Hm].
Qed.

(** C1 (amended).  On an acyclic network whose precedent links are all
    matched by dependent links and which has no second root: [make_dirty]
    on an object [n] returns and leaves [n] and every transitive dependent
    of [n] dirty, whatever was dirty before (the state [s] is arbitrary, so
    nothing is skipped for being stale already); after the attribute write
    that follows it in [Component.__setitem__] (any change [d'] of the
    data), the root-driven update ([make_dirty] on the root, then [update]
    on it, as [Engine.update] does) returns; it never invokes a
    [calculate] twice; it invokes none outside the root's dependents; and
    when it returns normally every object below the root, the dependents
    of [n] among them, is clean and was calculated exactly once. *)
Theorem C1_staleness_then_single_recomputation :
  forall (depth : nat) (n : obj) (s : state) (d' : Data),
    level root < depth -> reach root n ->
    exists s1,
      make_dirty depth n s = Some s1 /\
      (forall m, reach n m -> dirty s1 m = true) /\
      exists out,
        update_from_root depth root (mk_state (dirty s1) d' (calls s1))
          = Some out /\
        (forall m, times_calculated (state_of out) m
                   <= S (times_calculated s m)) /\
        (forall m, ~ reach root m ->
                   times_calculated (state_of out) m = times_calculated s m) /\
        (forall s3, out = Done s3 ->
           forall m, reach root m ->
             dirty s3 m = false /\
             times_calculated s3 m = S (times_calculated s m)).
Proof.
  intros depth n s d' Hdepth Hn.
  assert (Hln : level n < depth) by (apply reach_level in Hn; lia).
  destruct (@make_dirty_marks depth n s Hln) as [s1 [E1 (A1 & _ & _ & _ & F1)]].
  exists s1. split; [exact E1 |]. split; [exact A1 |].
  set (s1' := mk_state (dirty s1) d' (calls s1)).
  destruct (@make_dirty_marks depth root s1' Hdepth) as [s2 [E2 (A2 & _ & _ & _ & F2)]].
  destruct (@update_returns depth root s2 Hdepth) as [out Eo].
  exists out. unfold update_from_root. rewrite E2.
  split; [exact Eo |].
  pose proof (@update_ran depth root s2 out Eo) as R.
  assert (Hcalls : forall m, times_calculated s2 m = times_calculated s m).
  { intro m. unfold times_calculated. rewrite F2. simpl. now rewrite F1. }
  split; [| split].
  - intro m. rewrite <- Hcalls. eapply ran_at_most_once; exact R.
  - intros m Hm. rewrite <- Hcalls.
    apply (proj1 (@ran_untouched _ _ _ m R Hm)).
  - intros s3 -> m Hm. simpl in R.
    assert (Hc : dirty s3 m = false).
    { eapply update_root_complete; [exact A2 | exact Eo | exact Hm]. }
    split; [exact Hc |].
    rewrite <- Hcalls. eapply ran_exactly_once; [exact R | auto | exact Hc].
Qed.

(** *** Running the update a second time

    What the [calculate] methods read and write is described by
    locations: a method leaves alone what it does not write, and what it
    writes is fixed by what it reads. *)

Section Replay.

Variables loc val : Type.
Variable get : Data -> loc -> val.
Variable writes : obj -> loc -> bool.
Variable reads : obj -> loc -> Prop.

(** A property of the data that every [calculate] keeps. *)
Variable good : Data -> Prop.

Hypothesis good_kept :
  forall n d, good d -> good (state_of (calculate n d)).

Hypothesis frame :
  forall n d l, good d -> writes n l = false ->
    get (state_of (calculate n d)) l = get d l.

Hypothesis determined :
  forall n d1 d2 d1',
    good d1 -> good d2 ->
    (forall l, reads n l -> get d1 l = get d2 l) ->
    calculate n d1 = Done d1' ->
    exists d2', calculate n d2 = Done d2' /\
                forall l, writes n l = true -> get d1' l = get d2' l.

(** The objects an object waits for, directly or not. *)
Inductive above : obj -> obj -> Prop :=
| above_one : forall n q, In q (precedents n) -> above n q
| above_more : forall n q g, In q (precedents n) -> above q g -> above n g.

(** [carried g l]: whoever notifies [g] has written [l]. *)
Definition carried (g : obj) (l : loc) : Prop :=
  g <> root /\
  forall m, reach root m -> In g (dependents m) -> writes m l = true.

(** Whatever an object reads is written by nothing below the root, or
    written or carried by something the object waits for. *)
Hypothesis disciplined :
  forall n l, reach root n -> reads n l ->
    (forall m, reach root m -> writes m l = false) \/
    exists g, above n g /\ (writes g l = true \/ carried g l).

(** [settled s l]: if anything below the root writes [l], something
    already clean does. *)
Definition settled (s : state) (l : loc) : Prop :=
  forall m, reach root m -> writes m l = true ->
    exists m', reach root m' /\ writes m' l = true /\ dirty s m' = false.

Definition upstream_clean (s : state) : Prop :=
  forall g q, reach root g -> dirty s g = false ->
    In q (precedents g) -> dirty s q = false.

Definition announced (s : state) : Prop :=
  forall g, reach root g -> g <> root -> dirty s g = false ->
    exists m, reach root m /\ dirty s m = false /\ In g (dependents m).

(** The second run [s'] is where the first run [s] was: same flags
    below the root, same values wherever the first run's are final. *)
Record replays (s s' : state) : Prop := mk_replays {
  same_flags : forall m, reach root m -> dirty s' m = dirty s m;
  same_settled : forall l, settled s l -> get (data s') l = get (data s) l;
  good_first : good (data s);
  good_second : good (data s');
  first_upstream_clean : upstream_clean s;
  first_announced : announced s
}.

(** [n] is the root, or has been notified by a clean object. *)
Definition notifiable (s : state) (n : obj) : Prop :=
  n = root \/
  exists m, reach root m /\ dirty s m = false /\ In n (dependents m).

Lemma above_clean :
  forall s n g,
    upstream_clean s -> reach root n ->
    (forall q, In q (precedents n) -> dirty s q = false) ->
    above n g -> reach root g /\ dirty s g = false.
Proof.
  intros s n g Hup Hn Hpre Hab. revert Hn Hpre.
  induction Hab as [n q Hq | n q g Hq _ IH]; intros Hn Hpre.
  - split; [apply single_root with (m := n); assumption | auto].
  - assert (Hrq : reach root q) by (apply single_root with (m := n); assumption).
    apply IH; [exact Hrq |].
    intros q' Hq'. apply (Hup q q' Hrq); auto.
Qed.

Lemma reads_settled :
  forall s n l,
    upstream_clean s -> announced s -> reach root n ->
    (forall q, In q (precedents n) -> dirty s q = false) ->
    reads n l -> settled s l.
Proof.
  intros s n l Hup Han Hn Hpre Hr m Hm Hw.
  destruct (@disciplined n l Hn Hr) as [Hin | [g [Hab Hg]]].
  - rewrite (Hin m Hm) in Hw. discriminate.
  - destruct (above_clean Hup Hn Hpre Hab) as [Hrg Hcg].
    destruct Hg as [Hwg | [Hne Hcar]].
    + exists g. auto.
    + destruct (Han g Hrg Hne Hcg) as [m' (Hrm' & Hcm' & Hin')].
      exists m'. auto.
Qed.

Lemma existsb_same :
  forall (f g : obj -> bool) (xs : list obj),
    (forall x, In x xs -> f x = g x) -> existsb f xs = existsb g xs.
Proof.
  intros f g xs H. induction xs as [| x xs IH]; simpl; [reflexivity |].
  rewrite (H x (or_introl eq_refl)), IH; [reflexivity |].
  intros y Hy. apply H. now right.
Qed.

Lemma ran_keeps_clean :
  forall (P : obj -> Prop) s s' m,
    ran P s s' -> dirty s m = false -> dirty s' m = false.
Proof.
  intros P s s' m (l & _ & _ & Hin & Hout) Hc.
  destruct (in_dec Nat.eq_dec m l) as [H | H].
  - now apply Hin in H.
  - now rewrite (Hout m H).
Qed.

Lemma notifiable_kept :
  forall (P : obj -> Prop) s s' n,
    ran P s s' -> notifiable s n -> notifiable s' n.
Proof.
  intros P s s' n R [-> | [m (Hm & Hc & Hin)]]; [now left | right].
  exists m. repeat split; auto. eapply ran_keeps_clean; eauto.
Qed.

Lemma replays_after_calculate :
  forall n s s' d1 d2,
    reach root n -> replays s s' -> notifiable s n ->
    dirty s n = true ->
    (forall q, In q (precedents n) -> dirty s q = false) ->
    calculate n (data s) = Done d1 ->
    calculate n (data s') = Done d2 ->
    (forall l, writes n l = true -> get d1 l = get d2 l) ->
    replays (mk_state (dirty (set_dirty n false s)) d1
                      (calls (set_dirty n false s) ++ [n]))
            (mk_state (dirty (set_dirty n false s')) d2
                      (calls (set_dirty n false s') ++ [n])).
Proof.
  intros n s s' d1 d2 Hn [Hfl Hse Hg1 Hg2 Hup Han] Hnot Hd Hpre E1 E2 Hw.
  constructor; simpl.
  - intros m Hm. destruct (Nat.eqb m n); [reflexivity | auto].
  - intros l Hl. destruct (writes n l) eqn:Hwn.
    + symmetry. auto.
    + pose proof (@frame n (data s) l Hg1 Hwn) as F1.
      pose proof (@frame n (data s') l Hg2 Hwn) as F2.
      rewrite E1 in F1. rewrite E2 in F2. simpl in F1, F2.
      rewrite F1, F2. apply Hse.
      intros m Hm Hwm. destruct (Hl m Hm Hwm) as [m' (Hrm' & Hwm' & Hcm')].
      exists m'. repeat split; auto. simpl in Hcm'.
      destruct (Nat.eqb_spec m' n) as [-> | _]; [congruence | exact Hcm'].
  - pose proof (@good_kept n (data s) Hg1) as G. now rewrite E1 in G.
  - pose proof (@good_kept n (data s') Hg2) as G. now rewrite E2 in G.
  - intros g q Hg Hc Hq. simpl in *.
    destruct (Nat.eqb_spec q n) as [_ | _]; [reflexivity |].
    destruct (Nat.eqb_spec g n) as [-> | _]; [auto |].
    apply (Hup g q); auto.
  - intros g Hg Hne Hc. simpl in *.
    assert (Hex : exists m, reach root m /\ dirty s m = false /\
                            In g (dependents m)).
    { destruct (Nat.eqb_spec g n) as [-> | _].
      - destruct Hnot as [-> | H]; [contradiction | exact H].
      - apply Han; auto. }
    destruct Hex as [m (Hm & Hcm & Hin)]. exists m. repeat split; auto.
    destruct (Nat.eqb m n); [reflexivity | exact Hcm].
Qed.

Lemma replay_loop :
  forall (body : obj -> state -> option (outcome state)) ds,
    (forall d s s' s1,
       In d ds -> replays s s' -> notifiable s d ->
       body d s = Some (Done s1) ->
       exists s1', body d s' = Some (Done s1') /\ replays s1 s1') ->
    (forall d s out, In d ds -> body d s = Some out ->
                     ran (fun _ => True) s (state_of out)) ->
    forall s s' s1,
      replays s s' -> (forall d, In d ds -> notifiable s d) ->
      for_each body ds s = Some (Done s1) ->
      exists s1', for_each body ds s' = Some (Done s1') /\ replays s1 s1'.
Proof.
  intros body ds. induction ds as [| d ds IH]; intros Hbody Hran s s' s1 R Hnot E.
  - simpl in *. inversion E; subst. eauto.
  - simpl in *. destruct (body d s) as [[sa | e sa] |] eqn:Eb; try discriminate.
    destruct (Hbody d s s' sa (or_introl eq_refl) R
                    (Hnot d (or_introl eq_refl)) Eb) as [sa' [Eb' Ra]].
    rewrite Eb'. apply IH with (s := sa).
    + intros d0 s0 s0' s0a Hin. apply Hbody. now right.
    + intros d0 s0 out Hin. apply Hran. now right.
    + exact Ra.
    + intros d' Hd'. eapply notifiable_kept.
      * apply (Hran d s (Done sa) (or_introl eq_refl) Eb).
      * apply Hnot. now right.
    + exact E.
Qed.

Lemma replay_update :
  forall depth n s s' s1,
    reach root n -> replays s s' -> notifiable s n ->
    update depth n s = Some (Done s1) ->
    exists s1', update depth n s' = Some (Done s1') /\ replays s1 s1'.
Proof.
  induction depth as [| k IH]; intros n s s' s1 Hn R Hnot E; [discriminate |].
  simpl in E |- *.
  rewrite (same_flags R Hn).
  destruct (dirty s n) eqn:Hd; simpl in *; [| discriminate].
  assert (Hex : existsb (dirty s') (precedents n)
                = existsb (dirty s) (precedents n)).
  { apply existsb_same. intros q Hq. apply (same_flags R).
    apply single_root with (m := n); assumption. }
  rewrite Hex.
  destruct (existsb (dirty s) (precedents n)) eqn:Hpre.
  - inversion E; subst. eauto.
  - assert (Hclean : forall q, In q (precedents n) -> dirty s q = false).
    { intros q Hq. destruct (dirty s q) eqn:Hdq; [| reflexivity].
      assert (existsb (dirty s) (precedents n) = true)
        by (apply existsb_exists; eauto).
      congruence. }
    destruct (calculate n (data s)) as [d1 | e d1] eqn:E1; [| discriminate].
    destruct (@determined n (data s) (data s') d1 (good_first R) (good_second R))
      as [d2 [E2 Hw]]; [| exact E1 |].
    { intros l Hl. symmetry. apply (same_settled R).
      eapply reads_settled; eauto using first_upstream_clean, first_announced. }
    rewrite E2.
    eapply replay_loop; [| | | | exact E].
    + intros d s0 s0' s0a Hin R0 N0 E0.
      apply (IH d s0 s0' s0a); auto. eapply reach_trans; [exact Hn |].
      now apply reach_dependent.
    + intros d s0 out _ E0. eapply ran_weaken; [| apply (update_ran _ _ _ E0)].
      auto.
    + apply replays_after_calculate; auto.
    + intros d Hin. right. exists n. simpl. rewrite Nat.eqb_refl. auto.
Qed.

(** Started twice at the root with everything below it dirty, from data
    that agree on what nothing below the root writes: when the first
    update returns normally so does the second, and the two leave the same
    values everywhere. *)
Lemma replay_from_root :
  forall depth s s' s1,
    (forall m, reach root m -> dirty s m = true) ->
    (forall m, reach root m -> dirty s' m = true) ->
    good (data s) -> good (data s') ->
    (forall l, (forall m, reach root m -> writes m l = false) ->
               get (data s') l = get (data s) l) ->
    update depth root s = Some (Done s1) ->
    exists s1',
      update depth root s' = Some (Done s1') /\
      (forall l, get (data s1') l = get (data s1) l) /\
      (forall m, reach root m -> dirty s1' m = false) /\
      good (data s1').
Proof.
  intros depth s s' s1 Hall Hall' Hg Hg' Hin E.
  assert (R : replays s s').
  { constructor.
    - intros m Hm. now rewrite Hall, Hall'.
    - intros l Hl. apply Hin. intros m Hm.
      destruct (writes m l) eqn:Hw; [| reflexivity].
      destruct (Hl m Hm Hw) as [m' (Hm' & _ & Hc)].
      rewrite (Hall m' Hm') in Hc. discriminate.
    - exact Hg.
    - exact Hg'.
    - intros g q Hgr Hc. rewrite (Hall g Hgr) in Hc. discriminate.
    - intros g Hgr _ Hc. rewrite (Hall g Hgr) in Hc. discriminate. }
  destruct (@replay_update depth root s s' s1 (reach_refl root) R (or_introl eq_refl) E)
    as [s1' [E' R1]].
  exists s1'. split; [exact E' |].
  assert (Hclean : forall m, reach root m -> dirty s1 m = false).
  { intros m Hm. exact (@update_root_complete depth s s1 Hall E m Hm). }
  split; [| split].
  - intro l. apply (same_settled R1). intros m Hm Hw. exists m. auto.
  - intros m Hm. rewrite (same_flags R1 Hm). auto.
  - exact (good_second R1).
Qed.

(** [untouched P s s']: going from [s] to [s'], the data stayed good and
    no location changed that nothing in [P] writes. *)
Definition untouched (P : obj -> Prop) (s s' : state) : Prop :=
  good (data s) ->
  good (data s') /\
  forall l, (forall m, P m -> writes m l = false) ->
            get (data s') l = get (data s) l.

Lemma untouched_loop :
  forall (body : obj -> state -> option (outcome state)) (P : obj -> Prop) ds,
    (forall d s out, In d ds -> body d s = Some out ->
                     untouched P s (state_of out)) ->
    forall s out, for_each body ds s = Some out -> untouched P s (state_of out).
Proof.
  intros body P ds. induction ds as [| d ds IH]; intros Hbody s out E Hg.
  - simpl in E. inversion E. simpl. auto.
  - simpl in E. destruct (body d s) as [[sa | e sa] |] eqn:Eb.
    + destruct (Hbody d s (Done sa) (or_introl eq_refl) Eb Hg) as [Ga Fa].
      destruct (IH (fun d' s' o' H => Hbody d' s' o' (or_intror H)) sa out E Ga)
        as [Gb Fb].
      split; [exact Gb |]. intros l Hl. rewrite (Fb l Hl). apply Fa, Hl.
    + inversion E; subst.
      apply (Hbody d s (Raised e sa) (or_introl eq_refl) Eb Hg).
    + discriminate.
Qed.

(** An update changes nothing but what the objects it can reach write. *)
Lemma update_untouched :
  forall depth n s out,
    update depth n s = Some out -> untouched (reach n) s (state_of out).
Proof.
  induction depth as [| k IH]; intros n s out E; [discriminate |].
  simpl in E. destruct (negb (dirty s n)).
  { inversion E. intro Hg. simpl. auto. }
  destruct (existsb (dirty s) (precedents n)).
  { inversion E. intro Hg. simpl. auto. }
  assert (Hself : forall Hg : good (data s),
             good (state_of (calculate n (data s))) /\
             forall l, (forall m, reach n m -> writes m l = false) ->
                       get (state_of (calculate n (data s))) l = get (data s) l).
  { intro Hg. split; [now apply good_kept |].
    intros l Hl. apply frame; [exact Hg | apply Hl, reach_refl]. }
  destruct (calculate n (data s)) as [d' | e d'].
  - intro Hg. destruct (Hself Hg) as [Ga Fa]. simpl in Ga, Fa.
    assert (U : untouched (reach n)
                  (mk_state (dirty (set_dirty n false s)) d'
                            (calls (set_dirty n false s) ++ [n]))
                  (state_of out)).
    { eapply untouched_loop; [| exact E]. intros d s0 o Hin Eo Hg0.
      destruct (IH d s0 o Eo Hg0) as [G0 F0]. split; [exact G0 |].
      intros l Hl. apply F0. intros m Hm. apply Hl.
      eapply reach_step; eauto. }
    destruct (U Ga) as [Gb Fb]. split; [exact Gb |].
    intros l Hl. rewrite (Fb l Hl). simpl. apply Fa, Hl.
  - inversion E. intro Hg. destruct (Hself Hg) as [Ga Fa]. simpl in *. auto.
Qed.

End Replay.

End SingleRoot.

End Acyclic.

End Network.

(** *** The TurboJet network of engines.py

    0 the environment, 1 INTAKE, 2 station '2', 3 HPC, 4 station '3',
    5 COMBUSTOR, 6 station '4', 7 HPT, 8 station '5', 9 NOZ, 10 HPSHAFT.
    The lists are in the order the [connect_*] and [add_*] calls of
    [TurboJet.__init__] append to them. *)

Definition turbojet_dependents (o : obj) : list obj :=
  match o with
  | 0 => [1] | 1 => [2] | 2 => [3] | 3 => [4; 10] | 4 => [5] | 5 => [6]
  | 6 => [7] | 7 => [8] | 8 => [9] | 10 => [7] | _ => []
  end.

Definition turbojet_precedents (o : obj) : list obj :=
  match o with
  | 1 => [0] | 2 => [1] | 3 => [2] | 4 => [3] | 5 => [4] | 6 => [5]
  | 7 => [6; 10] | 8 => [7] | 9 => [8] | 10 => [3] | _ => []
  end.

Definition turbojet_level (o : obj) : nat :=
  match o with
  | 0 => 9 | 1 => 8 | 2 => 7 | 3 => 6 | 4 => 5 | 5 => 4
  | 6 => 3 | 10 => 3 | 7 => 2 | 8 => 1 | _ => 0
  end.

Lemma turbojet_acyclic :
  forall n d, In d (turbojet_dependents n) ->
              turbojet_level d < turbojet_level n.
Proof.
  intros n d H.
  do 11 (destruct n as [| n];
         [simpl in H; repeat (destruct H as [<- | H]; [simpl; lia |]);
          contradiction |]).
  simpl in H. contradiction.
Qed.

Lemma turbojet_linked :
  forall d q, In q (turbojet_precedents d) -> In d (turbojet_dependents q).
Proof.
  intros d q H.
  do 11 (destruct d as [| d];
         [simpl in H; repeat (destruct H as [<- | H]; [simpl; tauto |]);
          contradiction |]).
  simpl in H. contradiction.
Qed.

Lemma turbojet_all_below_environment :
  forall q, q < 11 -> reach turbojet_dependents 0 q.
Proof.
  assert (step : forall p q, In q (turbojet_dependents p) ->
                             reach turbojet_dependents 0 p ->
                             reach turbojet_dependents 0 q).
  { intros p q Hin Hp. eapply reach_trans; [exact Hp |].
    apply reach_dependent, Hin. }
  pose proof (reach_refl turbojet_dependents 0) as R0.
  pose proof (step 0 1 (or_introl eq_refl) R0) as R1.
  pose proof (step 1 2 (or_introl eq_refl) R1) as R2.
  pose proof (step 2 3 (or_introl eq_refl) R2) as R3.
  pose proof (step 3 4 (or_introl eq_refl) R3) as R4.
  pose proof (step 4 5 (or_introl eq_refl) R4) as R5.
  pose proof (step 5 6 (or_introl eq_refl) R5) as R6.
  pose proof (step 6 7 (or_introl eq_refl) R6) as R7.
  pose proof (step 7 8 (or_introl eq_refl) R7) as R8.
  pose proof (step 8 9 (or_introl eq_refl) R8) as R9.
  pose proof (step 3 10 (or_intror (or_introl eq_refl)) R3) as R10.
  intros q Hq.
  do 11 (destruct q as [| q]; [assumption |]). lia.
Qed.

Lemma turbojet_single_root :
  forall m q, reach turbojet_dependents 0 m ->
              In q (turbojet_precedents m) ->
              reach turbojet_dependents 0 q.
Proof.
  intros m q _ H. apply turbojet_all_below_environment.
  do 11 (destruct m as [| m];
         [simpl in H; repeat (destruct H as [<- | H]; [lia |]);
          contradiction |]).
  simpl in H. contradiction.
Qed.

Lemma turbojet_nothing_else :
  forall n m, reach turbojet_dependents n m -> n < 11 -> m < 11.
Proof.
  intros n m H. induction H as [n | n d m Hd _ IH]; intro Hn; [exact Hn |].
  apply IH.
  do 11 (destruct n as [| n];
         [simpl in Hd; repeat (destruct Hd as [<- | Hd]; [lia |]);
          contradiction |]).
  simpl in Hd. contradiction.
Qed.

(** Every [calculate] returns without touching anything. *)
Definition idle (_ : obj) (d : unit) : outcome unit := Done d.

(** Everything clean, as a complete update leaves it. *)
Definition all_clean : state unit := mk_state (fun _ => false) tt [].

Lemma C1_staleness_then_single_recomputation_witness :
  exists s1,
    make_dirty turbojet_dependents 20 3 all_clean = Some s1 /\
    (forall m, reach turbojet_dependents 3 m -> dirty s1 m = true) /\
    exists out,
      update_from_root turbojet_dependents turbojet_precedents idle 20 0
                       (mk_state (dirty s1) tt (calls s1)) = Some out /\
      (forall m, times_calculated (state_of out) m
                 <= S (times_calculated all_clean m)) /\
      (forall m, ~ reach turbojet_dependents 0 m ->
                 times_calculated (state_of out) m
                 = times_calculated all_clean m) /\
      (forall s3, out = Done s3 ->
         forall m, reach turbojet_dependents 0 m ->
           dirty s3 m = false /\
           times_calculated s3 m = S (times_calculated all_clean m)).
Proof.
  apply (C1_staleness_then_single_recomputation
           turbojet_precedents idle turbojet_level turbojet_acyclic
           turbojet_linked turbojet_single_root all_clean tt).
  - simpl. lia.
  - apply turbojet_all_below_environment. lia.
Defined.

Lemma C2_update_fresh_asserts_blocked_noop_witness :
  update turbojet_dependents turbojet_precedents idle 1 3 all_clean
    = Some (Raised AssertionError all_clean) /\
  update turbojet_dependents turbojet_precedents idle 1 7 (init tt)
    = Some (Done (init tt)).
Proof.
  split.
  - apply (proj1 (C2_update_fresh_asserts_blocked_noop
                    turbojet_dependents turbojet_precedents idle 0 3 all_clean)).
    reflexivity.
  - apply (proj2 (C2_update_fresh_asserts_blocked_noop
                    turbojet_dependents turbojet_precedents idle 0 7 (init tt))).
    + reflexivity.
    + exists 10. split; [simpl; tauto | reflexivity].
Defined.

(** *** A network with a second root

    0 the environment, 1 a component below it, 2 a station fed by
    component 1 and by object 3, which nothing feeds. *)

Definition two_root_dependents (o : obj) : list obj :=
  match o with 0 => [1] | 1 => [2] | 3 => [2] | _ => [] end.

Definition two_root_precedents (o : obj) : list obj :=
  match o with 1 => [0] | 2 => [1; 3] | _ => [] end.

Definition two_root_level (o : obj) : nat :=
  match o with 0 => 2 | 1 => 1 | 3 => 1 | _ => 0 end.

(** C1, as stated, fails on an acyclic network with a second root: after
    [make_dirty] on component 1 its dependent 2 is stale, and the update
    driven from the environment returns normally without calculating 2,
    which stays stale behind object 3. *)
Lemma C1_counterexample_second_root :
  (forall n d, In d (two_root_dependents n) ->
               two_root_level d < two_root_level n) /\
  reach two_root_dependents 1 2 /\
  exists s1 s3,
    make_dirty two_root_dependents 5 1 (init tt) = Some s1 /\
    dirty s1 2 = true /\
    update_from_root two_root_dependents two_root_precedents idle 5 0 s1
      = Some (Done s3) /\
    dirty s3 2 = true /\
    times_calculated s3 2 = 0 /\
    calls s3 = [0; 1].
Proof.
  split.
  { intros n d H.
    do 4 (destruct n as [| n];
          [simpl in H; repeat (destruct H as [<- | H]; [simpl; lia |]);
           contradiction |]).
    simpl in H. contradiction. }
  split; [apply reach_dependent; simpl; tauto |].
  eexists. eexists.
  split; [reflexivity |]. split; [reflexivity |].
  split; [reflexivity |]. repeat split.
Qed.

(** *** A network with a bypassed link

    Object 0 notifies 1, then 2, then 3; object 1 notifies 2 as well.
    The update reaches 2 through 1, calculates it, and trips over the
    assertion when 0 notifies 2 again; 3 is never reached. *)

Definition bypass_dependents (o : obj) : list obj :=
  match o with 0 => [1; 2; 3] | 1 => [2] | _ => [] end.

Definition bypass_precedents (o : obj) : list obj :=
  match o with 1 => [0] | 2 => [0; 1] | 3 => [0] | _ => [] end.

Example update_trips_over_bypassed_link :
  exists s,
    update_from_root bypass_dependents bypass_precedents idle 5 0 (init tt)
      = Some (Raised AssertionError s) /\
    calls s = [0; 1; 2] /\ dirty s 3 = true.
Proof. eexists. split; [reflexivity |]. split; reflexivity. Qed.

End Calculable.

(** ** Numbers

    The component laws and the solver are written once, for whatever
    numbers they are given: doubles when the parameters are Python floats,
    exact rationals when they are [fractions.Fraction] values. *)

Class Number (T : Type) : Type := {
  zero : T;
  one : T;
  add : T -> T -> T;
  sub : T -> T -> T;
  mul : T -> T -> T;
  (** the quotient, for a divisor that is not zero *)
  quot : T -> T -> T;
  (** [y == 0], on which [x / y] raises [ZeroDivisionError] *)
  is_zero : T -> bool;
  absolute : T -> T;
  less : T -> T -> bool;
  (** the literal [1e-6] *)
  conv_crit : T
}.

#[export] Instance float_Number : Number float := {
  zero := 0%float;
  one := 1%float;
  add := PrimFloat.add;
  sub := PrimFloat.sub;
  mul := PrimFloat.mul;
  quot := PrimFloat.div;
  is_zero := fun y => PrimFloat.eqb y 0%float;
  absolute := PrimFloat.abs;
  less := PrimFloat.ltb;
  conv_crit := 0x1.0c6f7a0b5ed8dp-20%float
}.

#[export] Instance Fraction_Number : Number Q := {
  zero := 0%Q;
  one := 1%Q;
  add := Qplus;
  sub := Qminus;
  mul := Qmult;
  quot := Qdiv;
  is_zero := fun y => Qeq_bool y 0%Q;
  absolute := Qabs.Qabs;
  less := fun x y => negb (Qle_bool y x);
  (** the double nearest to [1e-6], which is what a Fraction is compared
      with *)
  conv_crit := (4722366482869645 # 4722366482869645213696)%Q
}.

(** ** State and exceptions of a method body *)

Inductive result (A : Type) : Type :=
| Ok (a : A)
| Err (e : exn).

Arguments Ok {A} a.
Arguments Err {A} e.

(** A method body over a store [H]: it returns or raises, and leaves a
    store either way. *)
Definition M (H A : Type) : Type := H -> result A * H.

Definition ret {H A : Type} (a : A) : M H A := fun h => (Ok a, h).

Definition raise {H A : Type} (e : exn) : M H A := fun h => (Err e, h).

Definition bind {H A B : Type} (m : M H A) (k : A -> M H B) : M H B :=
  fun h => match m h with
           | (Ok a, h') => k a h'
           | (Err e, h') => (Err e, h')
           end.

(** [try: body; except: handler] with a bare [except]. *)
Definition try_except {H A : Type} (body handler : M H A) : M H A :=
  fun h => match body h with
           | (Ok a, h') => (Ok a, h')
           | (Err _, h') => handler h'
           end.

Definition get {H : Type} : M H H := fun h => (Ok h, h).

Definition modify {H : Type} (f : H -> H) : M H unit := fun h => (Ok tt, f h).

Definition attr {H A : Type} (name : string) (o : option A) : M H A :=
  match o with
  | Some a => ret a
  | None => raise (AttributeError name)
  end.

Declare Scope method_scope.
Delimit Scope method_scope with method.
Notation "x <- m ;; k" := (bind m (fun x => k))
  (at level 61, m at next level, right associativity) : method_scope.
Notation "m ;;; k" := (bind m (fun _ => k))
  (at level 61, right associativity) : method_scope.

Definition finish {H : Type} (r : result unit * H) : outcome H :=
  match r with
  | (Ok _, h) => Done h
  | (Err e, h) => Raised e h
  end.

(** [x / y] *)
Definition divide {H T : Type} `{Number T} (x y : T) : M H T :=
  if is_zero y then raise ZeroDivisionError else ret (quot x y).

(** ** Python dicts with string keys, in insertion order *)

Definition dict (V : Type) : Type := list (string * V).

Fixpoint lookup {V : Type} (k : string) (d : dict V) : option V :=
  match d with
  | [] => None
  | (k', v) :: d' => if String.eqb k k' then Some v else lookup k d'
  end.

(** [d[k] = v]: overwrite in place, or append a new key. *)
Fixpoint store {V : Type} (k : string) (v : V) (d : dict V) : dict V :=
  match d with
  | [] => [(k, v)]
  | (k', v') :: d' =>
      if String.eqb k k' then (k', v) :: d' else (k', v') :: store k v d'
  end.

Definition contains {V : Type} (k : string) (d : dict V) : bool :=
  match lookup k d with Some _ => true | None => false end.

Definition keys {V : Type} (d : dict V) : list string := map fst d.

(** [d[k]] *)
Definition subscript {H V : Type} (d : dict V) (k : string) : M H V :=
  match lookup k d with
  | Some v => ret v
  | None => raise (KeyError k)
  end.

(** ** Loops and comprehensions in a method body *)

(** [for x in xs: acc = body(x, acc)], for a loop that fills a local. *)
Fixpoint accumulate {H A S : Type} (xs : list A) (acc : S)
    (body : A -> S -> M H S) : M H S :=
  match xs with
  | [] => ret acc
  | x :: xs' => bind (body x acc) (fun acc' => accumulate xs' acc' body)
  end.

(** [[f(x) for x in xs]] *)
Fixpoint comprehension {H A B : Type} (xs : list A) (f : A -> M H B)
  : M H (list B) :=
  match xs with
  | [] => ret []
  | x :: xs' =>
      bind (f x) (fun y => bind (comprehension xs' f) (fun ys => ret (y :: ys)))
  end.

(** [dict(pairs)] *)
Definition dict_of {V : Type} (pairs : list (string * V)) : dict V :=
  fold_left (fun d kv => store (fst kv) (snd kv) d) pairs [].

(** [xs[i]] on a list *)
Definition index {H A : Type} (xs : list A) (i : nat) : M H A :=
  match nth_error xs i with
  | Some a => ret a
  | None => raise IndexError
  end.

(** ** performance.py: stations and components *)

Module Performance.

(** The classes of performance.py.  [Component_] stands for [Component]
    and its subclasses without a [calculate] of their own
    ([InletComponent], [ExitComponent], [FlowComponent]). *)
Inductive class : Type :=
| Station_ | Environment_ | Component_ | Intake_ | Splitter_ | Shaft_
| Propeller_ | Compressor_ | Turbine_ | Combustor_ | Nozzle_.

(** The class of each object, the dict object its [self.attributes]
    refers to (the default argument [attributes={}] of [Component.__init__]
    is one dict shared by every component built without parameters), and
    the handles set by the [connect_*] and [add_turbine] methods; [None]
    while the attribute does not exist.  None of this changes once the
    network is wired. *)
Record wiring : Type := mk_wiring {
  class_of : obj -> class;
  attributes_of : obj -> nat;
  inlet : obj -> option obj;
  exit : obj -> option obj;
  exit0 : obj -> option obj;
  exit1 : obj -> option obj;
  ambient : obj -> option obj;
  shaft : obj -> option obj
}.

Section Components.

Context {T : Type} {number : Number T}.

Local Open Scope method_scope.

(** What the [calculate] methods read and write: the numeric instance
    attributes of each object ([p], [t], [w], [power], [vj], ...), absent
    until they are assigned, and the parameter dicts, each under its own
    identity. *)
Record heap : Type := mk_heap {
  fields : obj -> string -> option T;
  attributes : nat -> dict T
}.

(** The module [compressible] is not among the sources: its constants
    and functions are parameters, and so is the power operator. *)
Variables gamma R cp : T.
Variables p_P t_T : T -> result T.
Variable q_choke : result T.
Variable power : T -> T -> result T.

Variable wires : wiring.

(** [self.precedents], which [Shaft.calculate] walks. *)
Variable precedents : obj -> list obj.

Definition two : T := add one one.
Definition half : T := quot one two.

Definition lift {A : Type} (r : result A) : M heap A := fun h => (r, h).

(** [o.name] for a numeric attribute.  [Environment.__getattr__] falls
    back on the parameter dict. *)
Definition getattr (o : obj) (name : string) : M heap T :=
  fun h => match fields h o name with
           | Some v => (Ok v, h)
           | None =>
               match class_of wires o with
               | Environment_ =>
                   subscript (attributes h (attributes_of wires o)) name h
               | _ => (Err (AttributeError name), h)
               end
           end.

Definition set_field (o : obj) (name : string) (v : T) (h : heap) : heap :=
  mk_heap (fun o' name' => if Nat.eqb o' o && String.eqb name' name
                           then Some v else fields h o' name')
          (attributes h).

(** [o.name = v] *)
Definition setattr (o : obj) (name : string) (v : T) : M heap unit :=
  modify (set_field o name v).

(** [self.attributes[name]], which is also [Component.__getitem__] *)
Definition getitem (self : obj) (name : string) : M heap T :=
  fun h => subscript (attributes h (attributes_of wires self)) name h.

(** [name in self.attributes] *)
Definition hasitem (self : obj) (name : string) : M heap bool :=
  fun h => (Ok (contains name (attributes h (attributes_of wires self))), h).

Definition set_key (a : nat) (name : string) (value : T) (h : heap) : heap :=
  mk_heap (fields h)
          (fun a' => if Nat.eqb a' a then store name value (attributes h a')
                     else attributes h a').

(** [self.attributes[name] = value] *)
Definition setparam (self : obj) (name : string) (value : T) : M heap unit :=
  modify (set_key (attributes_of wires self) name value).

(** [p0,t0,w0 = self.inlet.p, self.inlet.t, self.inlet.w] *)
Definition read_inlet (self : obj) : M heap (T * T * T) :=
  i <- attr "inlet" (inlet wires self) ;;
  p0 <- getattr i "p" ;;
  i <- attr "inlet" (inlet wires self) ;;
  t0 <- getattr i "t" ;;
  i <- attr "inlet" (inlet wires self) ;;
  w0 <- getattr i "w" ;;
  ret (p0, t0, w0).

(** [self.exit.p, self.exit.t, self.exit.w = p1, t1, w1] *)
Definition write_exit (self : obj) (p1 t1 w1 : T) : M heap unit :=
  e <- attr "exit" (exit wires self) ;; setattr e "p" p1 ;;;
  e <- attr "exit" (exit wires self) ;; setattr e "t" t1 ;;;
  e <- attr "exit" (exit wires self) ;; setattr e "w" w1.

(** [Environment.calculate] *)
Definition Environment_calculate (self : obj) : M heap unit :=
  has_v0 <- hasitem self "v0" ;;
  if (has_v0 : bool) then
    v0 <- getitem self "v0" ;;
    t <- getattr self "t" ;;
    c <- lift (power (mul (mul gamma R) t) half) ;;
    mach <- divide v0 c ;;
    setparam self "MACH" mach
  else
    has_mach <- hasitem self "MACH" ;;
    if (has_mach : bool) then
      mn <- getitem self "MACH" ;;
      t <- getattr self "t" ;;
      c <- lift (power (mul (mul gamma R) t) half) ;;
      setparam self "v0" (mul mn c)
    else raise (Exception "Missing airspeed input in Environment").

(** [Intake.calculate] *)
Definition Intake_calculate (self : obj) : M heap unit :=
  amb <- attr "ambient" (ambient wires self) ;;
  mach <- getattr amb "MACH" ;;
  w <- getitem self "W" ;;
  amb <- attr "ambient" (ambient wires self) ;;
  pa <- getattr amb "p" ;;
  pp <- lift (p_P mach) ;;
  v <- divide pa pp ;;
  e <- attr "exit" (exit wires self) ;; setattr e "p" v ;;;
  amb <- attr "ambient" (ambient wires self) ;;
  ta <- getattr amb "t" ;;
  tt_ <- lift (t_T mach) ;;
  v <- divide ta tt_ ;;
  e <- attr "exit" (exit wires self) ;; setattr e "t" v ;;;
  e <- attr "exit" (exit wires self) ;; setattr e "w" w.

(** [Splitter.calculate] *)
Definition Splitter_calculate (self : obj) : M heap unit :=
  ptw <- read_inlet self ;;
  let '(p0, t0, w0) := ptw in
  bpr <- getitem self "BPR" ;;
  e <- attr "exit0" (exit0 wires self) ;; setattr e "p" p0 ;;;
  e <- attr "exit0" (exit0 wires self) ;; setattr e "t" t0 ;;;
  v <- divide w0 (add bpr one) ;;
  e <- attr "exit0" (exit0 wires self) ;; setattr e "w" v ;;;
  e <- attr "exit1" (exit1 wires self) ;; setattr e "p" p0 ;;;
  e <- attr "exit1" (exit1 wires self) ;; setattr e "t" t0 ;;;
  v <- divide (mul w0 bpr) (add bpr one) ;;
  e <- attr "exit1" (exit1 wires self) ;; setattr e "w" v.

(** [Compressor.shaft_power]; the other classes have no such method. *)
Definition shaft_power (p : obj) : M heap T :=
  match class_of wires p with
  | Compressor_ =>
      i <- attr "inlet" (inlet wires p) ;;
      w0 <- getattr i "w" ;;
      i <- attr "inlet" (inlet wires p) ;;
      t0 <- getattr i "t" ;;
      e <- attr "exit" (exit wires p) ;;
      t1 <- getattr e "t" ;;
      ret (mul (mul cp w0) (sub t1 t0))
  | _ => raise (AttributeError "shaft_power")
  end.

(** [Shaft.calculate] *)
Definition Shaft_calculate (self : obj) : M heap unit :=
  powers <- comprehension (precedents self) shaft_power ;;
  setattr self "power" (fold_left add powers zero).

(** [Compressor.calculate] *)
Definition Compressor_calculate (self : obj) : M heap unit :=
  ptw <- read_inlet self ;;
  let '(p0, t0, w0) := ptw in
  pr <- getitem self "PR" ;;
  let p1 := mul p0 pr in
  pr' <- getitem self "PR" ;;
  g <- divide one gamma ;;
  x <- lift (power pr' (sub one g)) ;;
  let t1 := mul t0 x in
  write_exit self p1 t1 w0.

(** [Turbine.calculate] *)
Definition Turbine_calculate (self : obj) : M heap unit :=
  ptw <- read_inlet self ;;
  let '(p0, t0, w0) := ptw in
  sh <- attr "shaft" (shaft wires self) ;;
  pw <- getattr sh "power" ;;
  q <- divide pw (mul cp w0) ;;
  let t1 := sub t0 q in
  r <- divide t1 t0 ;;
  ex <- divide gamma (sub gamma one) ;;
  x <- lift (power r ex) ;;
  let p1 := mul p0 x in
  write_exit self p1 t1 w0.

(** [Combustor.calculate] *)
Definition Combustor_calculate (self : obj) : M heap unit :=
  ptw <- read_inlet self ;;
  let '(p0, t0, w0) := ptw in
  ptw1 <- try_except
            (dt <- getitem self "deltaT" ;;
             ret (p0, add t0 dt, w0))
            (t1 <- getitem self "TEX" ;;
             ret (p0, t1, w0)) ;;
  let '(p1, t1, w1) := ptw1 in
  write_exit self p1 t1 w1.

(** [Combustor.fuel_flow]; the other classes have no such method. *)
Definition fuel_flow (self : obj) : M heap T :=
  match class_of wires self with
  | Combustor_ =>
      i <- attr "inlet" (inlet wires self) ;;
      w0 <- getattr i "w" ;;
      i <- attr "inlet" (inlet wires self) ;;
      t0 <- getattr i "t" ;;
      e <- attr "exit" (exit wires self) ;;
      t1 <- getattr e "t" ;;
      fhv <- getitem self "FHV" ;;
      divide (mul (mul w0 cp) (sub t1 t0)) fhv
  | _ => raise (AttributeError "fuel_flow")
  end.

(** [Nozzle.calculate] *)
Definition Nozzle_calculate (self : obj) : M heap unit :=
  ptw <- read_inlet self ;;
  let '(p0, t0, w0) := ptw in
  amb <- attr "ambient" (ambient wires self) ;;
  pamb <- getattr amb "p" ;;
  let eta := one in
  npr <- divide p0 pamb ;;
  inv <- divide one npr ;;
  ex <- divide (sub gamma one) gamma ;;
  x <- lift (power inv ex) ;;
  vj <- lift (power (mul (mul (mul (mul two cp) t0) eta) (sub one x)) half) ;;
  setattr self "vj" vj ;;;
  st <- lift (power t0 half) ;;
  qc <- lift q_choke ;;
  a <- divide (mul w0 st) (mul p0 qc) ;;
  setattr self "athroat" a ;;;
  pp <- lift (p_P one) ;;
  setattr self "throat_ps" (mul p0 pp).

(** [self.calculate()], by the class of [self]. *)
Definition calculate_method (self : obj) : M heap unit :=
  match class_of wires self with
  | Station_ => ret tt
  | Environment_ => Environment_calculate self
  | Component_ => raise NotImplementedError
  | Intake_ => Intake_calculate self
  | Splitter_ => Splitter_calculate self
  | Shaft_ => Shaft_calculate self
  | Propeller_ => ret tt
  | Compressor_ => Compressor_calculate self
  | Turbine_ => Turbine_calculate self
  | Combustor_ => Combustor_calculate self
  | Nozzle_ => Nozzle_calculate self
  end.

Definition calculate (self : obj) (h : heap) : outcome heap :=
  finish (calculate_method self h).

(** *** What a method reads and writes *)

(** A numeric attribute of an object, or an entry of its parameter
    dict. *)
Inductive loc : Type :=
| Field (o : obj) (name : string)
| Param (a : nat) (key : string).

Definition get_loc (h : heap) (l : loc) : option T :=
  match l with
  | Field o name => fields h o name
  | Param a key => lookup key (attributes h a)
  end.

Definition loc_eqb (l1 l2 : loc) : bool :=
  match l1, l2 with
  | Field o1 n1, Field o2 n2 => Nat.eqb o1 o2 && String.eqb n1 n2
  | Param o1 k1, Param o2 k2 => Nat.eqb o1 o2 && String.eqb k1 k2
  | _, _ => false
  end.

Lemma loc_eqb_eq : forall l1 l2, loc_eqb l1 l2 = true <-> l1 = l2.
Proof.
  intros [o1 n1 | o1 k1] [o2 n2 | o2 k2]; simpl;
    try (split; [discriminate | intro H; inversion H]);
    rewrite andb_true_iff, Nat.eqb_eq, String.eqb_eq;
    (split; [intros [-> ->]; reflexivity | intro H; inversion H; auto]).
Qed.

Lemma lookup_store :
  forall (k k' : string) (v : T) (d : dict T),
    lookup k' (store k v d) = if String.eqb k' k then Some v else lookup k' d.
Proof.
  intros k k' v d. induction d as [| [k0 v0] d IH]; simpl.
  - destruct (String.eqb_spec k' k); reflexivity.
  - destruct (String.eqb_spec k k0) as [-> | Hne]; simpl.
    + destruct (String.eqb_spec k' k0); reflexivity.
    + rewrite IH. destruct (String.eqb_spec k' k0) as [-> | Hne'];
        [| reflexivity].
      destruct (String.eqb_spec k0 k); [congruence | reflexivity].
Qed.

Lemma get_set_field :
  forall o name v h l,
    get_loc (set_field o name v h) l
    = if loc_eqb l (Field o name) then Some v else get_loc h l.
Proof. intros o name v h [o' n' | o' k']; reflexivity. Qed.

Lemma get_set_key :
  forall a key v h l,
    get_loc (set_key a key v h) l
    = if loc_eqb l (Param a key) then Some v else get_loc h l.
Proof.
  intros o key v h [o' n' | o' k']; simpl; [reflexivity |].
  destruct (Nat.eqb o' o); simpl; [apply lookup_store | reflexivity].
Qed.

Definition agree (X : loc -> Prop) (h1 h2 : heap) : Prop :=
  forall l, X l -> get_loc h1 l = get_loc h2 l.

(** [footprint X W m]: [m] changes nothing outside [W] and removes
    nothing; run on two heaps that agree on [X], it ends the same way,
    leaves them agreeing on [X], and, when it returns, on [W] as well. *)
Definition footprint {A : Type} (X W : loc -> Prop) (m : M heap A) : Prop :=
  (forall h l, get_loc (snd (m h)) l = get_loc h l \/
               (W l /\ get_loc (snd (m h)) l <> None)) /\
  (forall h1 h2, agree X h1 h2 ->
     fst (m h1) = fst (m h2) /\
     forall l, X l \/ (W l /\ exists a, fst (m h1) = Ok a) ->
               get_loc (snd (m h1)) l = get_loc (snd (m h2)) l).

Definition nothing : loc -> Prop := fun _ => False.
Definition only (l0 : loc) : loc -> Prop := fun l => l = l0.
Definition both (W1 W2 : loc -> Prop) : loc -> Prop := fun l => W1 l \/ W2 l.

Lemma footprint_frame :
  forall (A : Type) (X W : loc -> Prop) (m : M heap A),
    footprint X W m ->
    forall h l, ~ W l -> get_loc (snd (m h)) l = get_loc h l.
Proof.
  intros A X W m [Fm _] h l Hl.
  destruct (Fm h l) as [E | [Hw _]]; [exact E | contradiction].
Qed.

Lemma footprint_grows :
  forall (A : Type) (X W : loc -> Prop) (m : M heap A),
    footprint X W m ->
    forall h l, get_loc h l <> None -> get_loc (snd (m h)) l <> None.
Proof.
  intros A X W m [Fm _] h l Hl.
  destruct (Fm h l) as [E | [_ Hp]]; [now rewrite E | exact Hp].
Qed.

Lemma footprint_pure :
  forall (A : Type) (X : loc -> Prop) (r : result A),
    footprint X nothing (fun h => (r, h)).
Proof.
  intros A X r. split; [intros h l; now left |].
  intros h1 h2 Hag. split; [reflexivity |].
  intros l [Hx | [[] _]]. simpl. auto.
Qed.

Lemma footprint_bind :
  forall (A B : Type) (X W1 W2 : loc -> Prop) (m : M heap A) (k : A -> M heap B),
    footprint X W1 m ->
    (forall a, footprint (both X W1) W2 (k a)) ->
    footprint X (both W1 W2) (bind m k).
Proof.
  intros A B X W1 W2 m k [Fm Dm] Hk. split.
  - intros h l. unfold bind. specialize (Fm h l).
    destruct (m h) as [[a | e] h'] eqn:Em; simpl in *.
    + destruct (Hk a) as [Fk _].
      destruct (Fk h' l) as [Ek | [Hw Hp]].
      * rewrite Ek. destruct Fm as [E | [Hw Hp]];
          [now left | right; split; [now left | exact Hp]].
      * right. split; [now right | exact Hp].
    + destruct Fm as [E | [Hw Hp]];
        [now left | right; split; [now left | exact Hp]].
  - intros h1 h2 Hag. unfold bind.
    destruct (Dm h1 h2 Hag) as [Em Pm].
    destruct (m h1) as [[a | e] h1'] eqn:E1;
      destruct (m h2) as [[a2 | e2] h2'] eqn:E2; simpl in *; try discriminate.
    + inversion Em; subst a2.
      destruct (Hk a) as [_ Dk].
      assert (Hag' : agree (both X W1) h1' h2').
      { intros l [Hx | Hw]; apply Pm; [now left | right; eauto]. }
      destruct (Dk h1' h2' Hag') as [Ek Pk].
      split; [exact Ek |].
      intros l [Hx | [[Hw | Hw] Hok]]; apply Pk.
      * left; now left.
      * left; now right.
      * right. split; [exact Hw |]. exact Hok.
    + split; [inversion Em; reflexivity |].
      intros l [Hx | [_ [a Ha]]]; [apply Pm; now left | discriminate].
Qed.

Lemma footprint_weaken :
  forall (A : Type) (X W W' : loc -> Prop) (m : M heap A),
    footprint X W m ->
    (forall l, W l -> W' l) -> (forall l, W' l -> W l \/ X l) ->
    footprint X W' m.
Proof.
  intros A X W W' m [Fm Dm] H1 H2. split.
  - intros h l. destruct (Fm h l) as [E | [Hw Hp]]; [now left | right; auto].
  - intros h1 h2 Hag. destruct (Dm h1 h2 Hag) as [Em Pm].
    split; [exact Em |].
    intros l [Hx | [Hw Hok]]; apply Pm; [now left |].
    destruct (H2 l Hw); [right; auto | now left].
Qed.

(** [dict_object[key]] for the dict object [a] *)
Definition getkey (a : nat) (key : string) : M heap T :=
  fun h => subscript (attributes h a) key h.

(** [dict_object[key] = value] *)
Definition setkey (a : nat) (key : string) (value : T) : M heap unit :=
  modify (set_key a key value).

Lemma footprint_getkey :
  forall (X : loc -> Prop) a key,
    X (Param a key) -> footprint X nothing (getkey a key).
Proof.
  intros X a key Hp. split.
  - intros h l. left. unfold getkey, subscript.
    destruct (lookup key (attributes h a)); reflexivity.
  - intros h1 h2 Hag. pose proof (Hag _ Hp) as E. simpl in E.
    unfold getkey, subscript. rewrite E.
    destruct (lookup key (attributes h2 a)); simpl;
      (split; [reflexivity | intros l [Hx | [[] _]]; auto]).
Qed.

Lemma footprint_setkey :
  forall (X : loc -> Prop) a key v,
    footprint X (only (Param a key)) (setkey a key v).
Proof.
  intros X a key v. split.
  - intros h l. simpl. rewrite get_set_key.
    destruct (loc_eqb l (Param a key)) eqn:E; [| now left].
    apply loc_eqb_eq in E. right. split; [exact E | discriminate].
  - intros h1 h2 Hag. split; [reflexivity |].
    intros l Hl. simpl. rewrite !get_set_key.
    destruct (loc_eqb l (Param a key)) eqn:E; [reflexivity |].
    destruct Hl as [Hx | [Hw _]]; [auto |].
    apply loc_eqb_eq in Hw. congruence.
Qed.

Lemma footprint_getattr :
  forall (X : loc -> Prop) o name,
    X (Field o name) -> X (Param (attributes_of wires o) name) ->
    footprint X nothing (getattr o name).
Proof.
  intros X o name Hf Hp. split.
  - intros h l. left. unfold getattr, subscript.
    destruct (fields h o name); [reflexivity |].
    destruct (class_of wires o); try reflexivity.
    destruct (lookup name (attributes h (attributes_of wires o))); reflexivity.
  - intros h1 h2 Hag.
    pose proof (Hag _ Hf) as E1. pose proof (Hag _ Hp) as E2. simpl in E1, E2.
    unfold getattr, subscript. rewrite E1, E2.
    destruct (fields h2 o name); simpl;
      [split; [reflexivity | intros l [Hx | [[] _]]; auto] |].
    destruct (class_of wires o); simpl;
      try (split; [reflexivity | intros l [Hx | [[] _]]; auto]).
    destruct (lookup name (attributes h2 (attributes_of wires o))); simpl;
      (split; [reflexivity | intros l [Hx | [[] _]]; auto]).
Qed.

Lemma footprint_getitem :
  forall (X : loc -> Prop) o key,
    X (Param (attributes_of wires o) key) -> footprint X nothing (getitem o key).
Proof. intros X o key Hp. exact (footprint_getkey X _ key Hp). Qed.

Lemma footprint_hasitem :
  forall (X : loc -> Prop) o key,
    X (Param (attributes_of wires o) key) -> footprint X nothing (hasitem o key).
Proof.
  intros X o key Hp. split; [intros h l; now left |].
  intros h1 h2 Hag. pose proof (Hag _ Hp) as E. simpl in E.
  unfold hasitem, contains. rewrite E. simpl.
  split; [reflexivity | intros l [Hx | [[] _]]; auto].
Qed.

Lemma footprint_setattr :
  forall (X : loc -> Prop) o name v,
    footprint X (only (Field o name)) (setattr o name v).
Proof.
  intros X o name v. split.
  - intros h l. simpl. rewrite get_set_field.
    destruct (loc_eqb l (Field o name)) eqn:E; [| now left].
    apply loc_eqb_eq in E. right. split; [exact E | discriminate].
  - intros h1 h2 Hag. split; [reflexivity |].
    intros l Hl. simpl. rewrite !get_set_field.
    destruct (loc_eqb l (Field o name)) eqn:E; [reflexivity |].
    destruct Hl as [Hx | [Hw _]]; [auto |].
    apply loc_eqb_eq in Hw. congruence.
Qed.

Lemma footprint_setparam :
  forall (X : loc -> Prop) o key v,
    footprint X (only (Param (attributes_of wires o) key)) (setparam o key v).
Proof. intros X o key v. exact (footprint_setkey X _ key v). Qed.

Lemma footprint_try_except :
  forall (A : Type) (X : loc -> Prop) (body handler : M heap A),
    footprint X nothing body -> footprint X nothing handler ->
    footprint X nothing (try_except body handler).
Proof.
  intros A X body handler Hb Hh. split.
  - intros h l. left. unfold try_except.
    pose proof (@footprint_frame _ _ _ _ Hb h l (fun F => F)) as Fb.
    destruct (body h) as [[a | e] h']; simpl in *; [exact Fb |].
    rewrite (@footprint_frame _ _ _ _ Hh h' l (fun F => F)). exact Fb.
  - destruct Hb as [_ Db]. destruct Hh as [_ Dh].
    intros h1 h2 Hag. unfold try_except.
    destruct (Db h1 h2 Hag) as [Eb Pb].
    destruct (body h1) as [[a | e] h1'];
      destruct (body h2) as [[a2 | e2] h2']; simpl in *; try discriminate.
    + split; [exact Eb |]. intros l [Hx | [[] _]]. apply Pb. now left.
    + assert (Hag' : agree X h1' h2') by (intros l Hx; apply Pb; now left).
      destruct (Dh h1' h2' Hag') as [Eh Ph]. split; [exact Eh |].
      intros l [Hx | [[] _]]. apply Ph. now left.
Qed.

Lemma footprint_enlarge :
  forall (A : Type) (X X' W : loc -> Prop) (m : M heap A),
    footprint X W m ->
    (forall l, X l -> X' l) -> (forall l, X' l -> X l \/ ~ W l) ->
    footprint X' W m.
Proof.
  intros A X X' W m Hm H1 H2. split; [exact (proj1 Hm) |].
  pose proof (footprint_frame Hm) as Fm. destruct Hm as [_ Dm].
  intros h1 h2 Hag.
  assert (Hag0 : agree X h1 h2) by (intros l Hl; apply Hag; auto).
  destruct (Dm h1 h2 Hag0) as [Em Pm]. split; [exact Em |].
  intros l [Hx | Hw]; [| apply Pm; now right].
  destruct (H2 l Hx) as [Hx0 | Hnw]; [apply Pm; now left |].
  rewrite !Fm by exact Hnw. apply Hag, Hx.
Qed.

Lemma footprint_comprehension :
  forall (A B : Type) (X : loc -> Prop) (f : A -> M heap B) xs,
    (forall x, In x xs -> footprint X nothing (f x)) ->
    footprint X nothing (comprehension xs f).
Proof.
  intros A B X f xs. induction xs as [| x xs IH]; intro Hf; simpl.
  - apply footprint_pure.
  - apply footprint_weaken with (W := both nothing (both nothing nothing)).
    + apply footprint_bind; [apply Hf; now left |]. intro y.
      apply footprint_bind; [| intro ys; apply footprint_pure].
      apply footprint_enlarge with (X := X).
      * apply IH. intros x' Hx'. apply Hf. now right.
      * intros l Hl. now left.
      * intros l [Hl | []]. now left.
    + intros l [[] | [[] | []]].
    + intros l [].
Qed.

Lemma footprint_divide :
  forall (X : loc -> Prop) (x y : T), footprint X nothing (divide x y).
Proof.
  intros X x y. unfold divide. destruct (is_zero y); apply footprint_pure.
Qed.

Lemma footprint_attr :
  forall (A : Type) (X : loc -> Prop) name (o : option A),
    footprint X nothing (attr name o).
Proof. intros A X name [a |]; apply footprint_pure. Qed.

(** A handle that is set is read without touching the heap, so the
    continuation is entered with the very object it names. *)
Lemma footprint_bind_ret :
  forall (A B : Type) (X W : loc -> Prop) (a : A) (k : A -> M heap B),
    footprint X W (k a) -> footprint X W (bind (ret a) k).
Proof. intros A B X W a k H. exact H. Qed.

Lemma footprint_bind_attr :
  forall (A B : Type) (X W : loc -> Prop) name (a : A) (k : A -> M heap B),
    footprint X W (k a) -> footprint X W (bind (attr name (Some a)) k).
Proof. intros A B X W name a k H. exact H. Qed.

Lemma footprint_bind_raise :
  forall (A B : Type) (X : loc -> Prop) e (k : A -> M heap B),
    footprint X nothing (bind (raise e) k).
Proof. intros A B X e k. exact (footprint_pure X (Err e)). Qed.

Lemma footprint_bind_no_attr :
  forall (A B : Type) (X : loc -> Prop) name (k : A -> M heap B),
    footprint X nothing (bind (attr name None) k).
Proof. intros A B X name k. exact (footprint_pure X (Err (AttributeError name))). Qed.

Ltac footprint_step :=
  lazymatch goal with
  | |- footprint _ _ (bind (ret _) _) => apply footprint_bind_ret; cbv beta
  | |- footprint _ _ (bind (attr _ (Some _)) _) =>
      apply footprint_bind_attr; cbv beta
  | |- footprint _ _ (bind (raise _) _) => apply footprint_bind_raise
  | |- footprint _ _ (bind (attr _ None) _) => apply footprint_bind_no_attr
  | |- footprint _ _ (bind _ _) =>
      eapply footprint_bind;
      [| let a := fresh "a" in
         intro a;
         try match type of a with
             | (_ * _ * _)%type => destruct a as [[? ?] ?]
             end ]
  | |- footprint _ _ (ret _) => apply footprint_pure
  | |- footprint _ _ (raise _) => apply footprint_pure
  | |- footprint _ _ (lift _) => apply footprint_pure
  | |- footprint _ _ (divide _ _) => apply footprint_divide
  | |- footprint _ _ (attr _ _) => apply footprint_attr
  | |- footprint _ _ (setattr _ _ _) => apply footprint_setattr
  | |- footprint _ _ (setparam _ _ _) => apply footprint_setparam
  | |- footprint _ _ (setkey _ _ _) => apply footprint_setkey
  end.

Ltac footprints := repeat footprint_step.

(** Three attributes of one station. *)
Definition ptw (e : obj) (l : loc) : Prop :=
  l = Field e "p" \/ l = Field e "t" \/ l = Field e "w".

Definition is_ptw (e : obj) (l : loc) : bool :=
  loc_eqb l (Field e "p") || loc_eqb l (Field e "t") || loc_eqb l (Field e "w").

Lemma is_ptw_ptw : forall e l, is_ptw e l = true <-> ptw e l.
Proof.
  intros e l. unfold is_ptw, ptw.
  rewrite !orb_true_iff, !loc_eqb_eq. tauto.
Qed.

(** *** What each class of object reads and writes *)

(** [o.name] consults the instance attribute and, for an Environment, the
    parameter dict. *)
Definition value_of (o : obj) (name : string) : list loc :=
  [Field o name; Param (attributes_of wires o) name].

Definition inlet_reads (self : obj) : list loc :=
  match inlet wires self with
  | Some i => value_of i "p" ++ value_of i "t" ++ value_of i "w"
  | None => []
  end.

Definition shaft_power_reads (p : obj) : list loc :=
  match class_of wires p with
  | Compressor_ =>
      match inlet wires p with
      | Some i =>
          value_of i "w" ++ value_of i "t" ++
          match exit wires p with
          | Some e => value_of e "t"
          | None => []
          end
      | None => []
      end
  | _ => []
  end.

(** The locations [calculate] may read on [self], an Environment being
    one that has its airspeed. *)
Definition reads_list (self : obj) : list loc :=
  let a := attributes_of wires self in
  match class_of wires self with
  | Environment_ => Param a "v0" :: value_of self "t"
  | Intake_ =>
      match ambient wires self with
      | Some amb =>
          value_of amb "MACH" ++ Param a "W" :: value_of amb "p" ++
          value_of amb "t"
      | None => []
      end
  | Splitter_ => Param a "BPR" :: inlet_reads self
  | Shaft_ => flat_map shaft_power_reads (precedents self)
  | Compressor_ => Param a "PR" :: inlet_reads self
  | Turbine_ =>
      inlet_reads self ++
      match shaft wires self with
      | Some sh => value_of sh "power"
      | None => []
      end
  | Combustor_ => Param a "deltaT" :: Param a "TEX" :: inlet_reads self
  | Nozzle_ =>
      inlet_reads self ++
      match ambient wires self with
      | Some amb => value_of amb "p"
      | None => []
      end
  | Station_ | Component_ | Propeller_ => []
  end.

Definition reads (self : obj) (l : loc) : Prop := In l (reads_list self).

Definition exit_writes (e : option obj) (l : loc) : bool :=
  match e with
  | Some e => is_ptw e l
  | None => false
  end.

(** The locations [calculate] may assign on [self]; none when a handle it
    needs first is missing. *)
Definition writes (self : obj) (l : loc) : bool :=
  match class_of wires self with
  | Environment_ => loc_eqb l (Param (attributes_of wires self) "MACH")
  | Intake_ =>
      match ambient wires self with
      | Some _ => exit_writes (exit wires self) l
      | None => false
      end
  | Compressor_ | Combustor_ =>
      match inlet wires self with
      | Some _ => exit_writes (exit wires self) l
      | None => false
      end
  | Turbine_ =>
      match inlet wires self, shaft wires self with
      | Some _, Some _ => exit_writes (exit wires self) l
      | _, _ => false
      end
  | Splitter_ =>
      match inlet wires self, exit0 wires self with
      | Some _, Some e0 => is_ptw e0 l || exit_writes (exit1 wires self) l
      | _, _ => false
      end
  | Shaft_ => loc_eqb l (Field self "power")
  | Nozzle_ =>
      match inlet wires self, ambient wires self with
      | Some _, Some _ =>
          loc_eqb l (Field self "vj") || loc_eqb l (Field self "athroat") ||
          loc_eqb l (Field self "throat_ps")
      | _, _ => false
      end
  | Station_ | Component_ | Propeller_ => false
  end.

(** [Environment.calculate] when the airspeed is there. *)
Definition Environment_calculate_v0 (self : obj) : M heap unit :=
  v0 <- getitem self "v0" ;;
  t <- getattr self "t" ;;
  c <- lift (power (mul (mul gamma R) t) half) ;;
  mach <- divide v0 c ;;
  setparam self "MACH" mach.

Lemma Environment_calculate_with_v0 :
  forall self h,
    contains "v0" (attributes h (attributes_of wires self)) = true ->
    Environment_calculate self h = Environment_calculate_v0 self h.
Proof.
  intros self h Hv. unfold Environment_calculate, bind at 1, hasitem.
  rewrite Hv. reflexivity.
Qed.

(** Reading is licensed by the list of what the method reads. *)
Ltac by_reading :=
  match goal with
  | H : forall l, _ -> ?X l |- ?X _ =>
      apply H; simpl; solve [repeat (first [left; reflexivity | right])]
  end.

Ltac in_reads := unfold both, only; repeat left; by_reading.

Ltac reads_step :=
  lazymatch goal with
  | |- footprint _ _ (getattr _ _) => apply footprint_getattr; in_reads
  | |- footprint _ _ (getitem _ _) => apply footprint_getitem; in_reads
  | |- footprint _ _ (hasitem _ _) => apply footprint_hasitem; in_reads
  | |- footprint _ _ (getkey _ _) => apply footprint_getkey; in_reads
  | |- _ => footprint_step
  end.

Ltac reading := repeat reads_step.

Ltac no_writes := intros ? ?; unfold both, only, nothing in *; tauto.

Lemma read_inlet_footprint :
  forall (X : loc -> Prop) self,
    (forall l, In l (inlet_reads self) -> X l) ->
    footprint X nothing (read_inlet self).
Proof.
  intros X self HX. unfold read_inlet, inlet_reads in *.
  destruct (inlet wires self) as [i |].
  - eapply footprint_weaken; [reading | no_writes | intros l []].
  - eapply footprint_weaken; [reading | no_writes | intros l []].
Qed.

Lemma write_exit_footprint :
  forall (X : loc -> Prop) self p1 t1 w1,
    footprint X (fun l => exit_writes (exit wires self) l = true)
              (write_exit self p1 t1 w1).
Proof.
  intros X self p1 t1 w1. unfold write_exit, exit_writes.
  destruct (exit wires self) as [e |].
  - eapply footprint_weaken; [reading | |].
    + intros l H. apply is_ptw_ptw.
      unfold both, only, nothing, ptw in *. tauto.
    + intros l H. apply is_ptw_ptw in H. left.
      unfold both, only, nothing, ptw in *. tauto.
  - eapply footprint_weaken; [reading | no_writes | discriminate].
Qed.

Lemma shaft_power_footprint :
  forall (X : loc -> Prop) p,
    (forall l, In l (shaft_power_reads p) -> X l) ->
    footprint X nothing (shaft_power p).
Proof.
  intros X p HX. unfold shaft_power, shaft_power_reads in *.
  destruct (class_of wires p); try apply footprint_pure.
  destruct (inlet wires p) as [i |].
  - destruct (exit wires p) as [e |];
      (eapply footprint_weaken; [reading | no_writes | intros l []]).
  - eapply footprint_weaken; [reading | no_writes | intros l []].
Qed.

Ltac methods_step :=
  lazymatch goal with
  | |- footprint _ _ (read_inlet _) =>
      apply read_inlet_footprint;
      let l := fresh "l" in
      let Hl := fresh "Hl" in
      intros l Hl; unfold both, only; repeat left;
      match goal with
      | H : forall l, In l (inlet_reads _) -> ?X l |- ?X _ => apply H; exact Hl
      end
  | |- footprint _ _ (write_exit _ _ _ _) => apply write_exit_footprint
  | |- _ => reads_step
  end.

Ltac methods := repeat methods_step.

Ltac same_writes :=
  let l := fresh "l" in
  let H := fresh "H" in
  intros l H; unfold exit_writes, is_ptw in *; cbv iota beta in *;
  rewrite ?orb_false_r in *;
  rewrite ?orb_true_iff, ?loc_eqb_eq in *;
  unfold both, only, nothing in *;
  first [tauto | discriminate | left; tauto].

(** A method that gives up on its first attribute access. *)
Lemma footprint_gives_up :
  forall (A : Type) (X : loc -> Prop) (e : exn),
    footprint (A := A) X (fun _ => false = true) (fun h => (Err e, h)).
Proof.
  intros A X e.
  apply footprint_weaken with (W := nothing);
    [apply footprint_pure | intros l [] | discriminate].
Qed.

Section Footprints.

Variable X : loc -> Prop.
Variable self : obj.
Hypothesis licensed : forall l, reads self l -> X l.

Lemma Environment_footprint :
  class_of wires self = Environment_ ->
  footprint X (fun l => writes self l = true) (Environment_calculate_v0 self).
Proof.
  intro Hc. unfold reads, reads_list, writes in *. rewrite Hc in *.
  unfold Environment_calculate_v0.
  eapply footprint_weaken; [methods | same_writes | same_writes].
Qed.

Lemma Intake_footprint :
  class_of wires self = Intake_ ->
  footprint X (fun l => writes self l = true) (Intake_calculate self).
Proof.
  intro Hc. unfold reads, reads_list, writes in *. rewrite Hc in *.
  unfold Intake_calculate.
  destruct (ambient wires self) as [amb |];
    [| exact (@footprint_gives_up _ X (AttributeError "ambient"))].
  destruct (exit wires self) as [e |];
    (eapply footprint_weaken; [methods | same_writes | same_writes]).
Qed.

Lemma Splitter_footprint :
  class_of wires self = Splitter_ ->
  footprint X (fun l => writes self l = true) (Splitter_calculate self).
Proof.
  intro Hc. unfold reads, reads_list, writes in *. rewrite Hc in *.
  assert (Hin : forall l, In l (inlet_reads self) -> X l)
    by (intros l Hl; apply licensed; now right).
  unfold Splitter_calculate.
  destruct (inlet wires self) as [i |] eqn:Hi;
    [| unfold read_inlet; rewrite Hi;
       exact (@footprint_gives_up _ X (AttributeError "inlet"))].
  destruct (exit0 wires self) as [e0 |];
    [destruct (exit1 wires self) as [e1 |] |];
    (eapply footprint_weaken; [methods | same_writes | same_writes]).
Qed.

Lemma Shaft_footprint :
  class_of wires self = Shaft_ ->
  footprint X (fun l => writes self l = true) (Shaft_calculate self).
Proof.
  intro Hc. unfold reads, reads_list, writes in *. rewrite Hc in *.
  unfold Shaft_calculate.
  assert (Hps : footprint X nothing
                  (comprehension (precedents self) shaft_power)).
  { apply footprint_comprehension. intros p Hp.
    apply shaft_power_footprint. intros l Hl.
    apply licensed. apply in_flat_map. exists p. split; assumption. }
  eapply footprint_weaken;
    [eapply footprint_bind; [exact Hps | intro powers; apply footprint_setattr]
    | same_writes | same_writes].
Qed.

Lemma Compressor_footprint :
  class_of wires self = Compressor_ ->
  footprint X (fun l => writes self l = true) (Compressor_calculate self).
Proof.
  intro Hc. unfold reads, reads_list, writes in *. rewrite Hc in *.
  assert (Hin : forall l, In l (inlet_reads self) -> X l)
    by (intros l Hl; apply licensed; now right).
  unfold Compressor_calculate.
  destruct (inlet wires self) as [i |] eqn:Hi;
    [| unfold read_inlet; rewrite Hi;
       exact (@footprint_gives_up _ X (AttributeError "inlet"))].
  eapply footprint_weaken; [methods | same_writes | same_writes].
Qed.

Lemma Turbine_footprint :
  class_of wires self = Turbine_ ->
  footprint X (fun l => writes self l = true) (Turbine_calculate self).
Proof.
  intro Hc. unfold reads, reads_list, writes in *. rewrite Hc in *.
  assert (Hin : forall l, In l (inlet_reads self) -> X l)
    by (intros l Hl; apply licensed; apply in_or_app; now left).
  unfold Turbine_calculate.
  destruct (inlet wires self) as [i |] eqn:Hi;
    [| unfold read_inlet; rewrite Hi;
       exact (@footprint_gives_up _ X (AttributeError "inlet"))].
  destruct (shaft wires self) as [sh |].
  - assert (Hsh : forall l, In l (value_of sh "power") -> X l)
      by (intros l Hl; apply licensed; apply in_or_app; now right).
    eapply footprint_weaken; [methods | same_writes | same_writes].
  - eapply footprint_weaken; [methods | same_writes | same_writes].
Qed.

Lemma Combustor_footprint :
  class_of wires self = Combustor_ ->
  footprint X (fun l => writes self l = true) (Combustor_calculate self).
Proof.
  intro Hc. unfold reads, reads_list, writes in *. rewrite Hc in *.
  assert (Hin : forall l, In l (inlet_reads self) -> X l)
    by (intros l Hl; apply licensed; right; now right).
  unfold Combustor_calculate.
  destruct (inlet wires self) as [i |] eqn:Hi;
    [| unfold read_inlet; rewrite Hi;
       exact (@footprint_gives_up _ X (AttributeError "inlet"))].
  eapply footprint_weaken;
    [eapply footprint_bind; [methods | intros [[p0 t0] w0]];
     eapply footprint_bind;
     [apply footprint_try_except;
      (eapply footprint_weaken; [methods | same_writes | same_writes])
     | intros [[p1 t1] w1]; methods]
    | same_writes | same_writes].
Qed.

Lemma Nozzle_footprint :
  class_of wires self = Nozzle_ ->
  footprint X (fun l => writes self l = true) (Nozzle_calculate self).
Proof.
  intro Hc. unfold reads, reads_list, writes in *. rewrite Hc in *.
  assert (Hin : forall l, In l (inlet_reads self) -> X l)
    by (intros l Hl; apply licensed; apply in_or_app; now left).
  unfold Nozzle_calculate.
  destruct (inlet wires self) as [i |] eqn:Hi;
    [| unfold read_inlet; rewrite Hi;
       exact (@footprint_gives_up _ X (AttributeError "inlet"))].
  destruct (ambient wires self) as [amb |].
  - assert (Hamb : forall l, In l (value_of amb "p") -> X l)
      by (intros l Hl; apply licensed; apply in_or_app; now right).
    eapply footprint_weaken; [methods | same_writes | same_writes].
  - eapply footprint_weaken; [methods | same_writes | same_writes].
Qed.

End Footprints.

(** [self.calculate()] when every Environment has its airspeed. *)
Definition calculate_with_airspeed (self : obj) : M heap unit :=
  match class_of wires self with
  | Environment_ => Environment_calculate_v0 self
  | _ => calculate_method self
  end.

Lemma calculate_footprint :
  forall (X : loc -> Prop) self,
    (forall l, reads self l -> X l) ->
    footprint X (fun l => writes self l = true) (calculate_with_airspeed self).
Proof.
  intros X self HX. unfold calculate_with_airspeed, calculate_method.
  destruct (class_of wires self) eqn:Hc;
    try (apply footprint_weaken with (W := nothing);
         [apply footprint_pure | intros l []
         | intros l H; unfold writes in H; rewrite Hc in H; discriminate]).
  - now apply Environment_footprint.
  - now apply Intake_footprint.
  - now apply Splitter_footprint.
  - now apply Shaft_footprint.
  - now apply Compressor_footprint.
  - now apply Turbine_footprint.
  - now apply Combustor_footprint.
  - now apply Nozzle_footprint.
Qed.

(** Every Environment has an airspeed [v0], as the one [Engine.__init__]
    builds does. *)
Definition has_airspeed (h : heap) : Prop :=
  forall n, class_of wires n = Environment_ ->
            contains "v0" (attributes h (attributes_of wires n)) = true.

(** [covers h0 h]: every attribute and key there is in [h0] is there
    in [h]. *)
Definition covers (h0 h : heap) : Prop :=
  forall l, get_loc h0 l <> None -> get_loc h l <> None.

Lemma contains_get_loc :
  forall h a key,
    contains key (attributes h a) = true <-> get_loc h (Param a key) <> None.
Proof.
  intros h a key. unfold contains. simpl.
  destruct (lookup key (attributes h a)); split; congruence.
Qed.

Lemma has_airspeed_covered :
  forall h0 h, has_airspeed h0 -> covers h0 h -> has_airspeed h.
Proof.
  intros h0 h H0 Hc n Hn. apply contains_get_loc, Hc, contains_get_loc, H0, Hn.
Qed.

Lemma covers_refl : forall h, covers h h.
Proof. intros h l Hl. exact Hl. Qed.

Lemma covers_trans :
  forall h1 h2 h3, covers h1 h2 -> covers h2 h3 -> covers h1 h3.
Proof. intros h1 h2 h3 H12 H23 l Hl. auto. Qed.

Lemma calculate_method_with_airspeed :
  forall self h,
    has_airspeed h -> calculate_method self h = calculate_with_airspeed self h.
Proof.
  intros self h Hh. unfold calculate_with_airspeed, calculate_method.
  destruct (class_of wires self) eqn:Hc; try reflexivity.
  apply Environment_calculate_with_v0, Hh, Hc.
Qed.

Lemma state_of_finish :
  forall (r : result unit * heap), state_of (finish r) = snd r.
Proof. intros [[[] | e] h]; reflexivity. Qed.

Lemma calculate_covers :
  forall self h, has_airspeed h -> covers h (state_of (calculate self h)).
Proof.
  intros self h Hh l Hl. unfold calculate.
  rewrite state_of_finish, calculate_method_with_airspeed by exact Hh.
  apply (footprint_grows (@calculate_footprint (reads self) self (fun l H => H))).
  exact Hl.
Qed.

Lemma calculate_frame :
  forall self h l,
    has_airspeed h -> writes self l = false ->
    get_loc (state_of (calculate self h)) l = get_loc h l.
Proof.
  intros self h l Hh Hw. unfold calculate.
  rewrite state_of_finish, calculate_method_with_airspeed by exact Hh.
  apply (footprint_frame (@calculate_footprint (reads self) self (fun l H => H))).
  rewrite Hw. discriminate.
Qed.

Lemma calculate_determined :
  forall self h1 h2 h1',
    has_airspeed h1 -> has_airspeed h2 ->
    agree (reads self) h1 h2 ->
    calculate self h1 = Done h1' ->
    exists h2',
      calculate self h2 = Done h2' /\
      forall l, writes self l = true -> get_loc h1' l = get_loc h2' l.
Proof.
  intros self h1 h2 h1' H1 H2 Hag E. unfold calculate in *.
  rewrite calculate_method_with_airspeed in * by assumption.
  destruct (@calculate_footprint (reads self) self (fun l H => H)) as [_ D].
  destruct (D h1 h2 Hag) as [Efst P].
  destruct (calculate_with_airspeed self h1) as [[[] | e] k1]; [| discriminate].
  destruct (calculate_with_airspeed self h2) as [[[] | e] k2]; [| discriminate].
  simpl in *. inversion E; subst k1.
  exists k2. split; [reflexivity |].
  intros l Hw. apply P. right. split; [exact Hw | eauto].
Qed.

(** *** The Splitter's law *)

Lemma Splitter_calculate_exits :
  forall (self i e0 e1 : obj) (h : heap) (p0 t0 w0 bpr : T),
    inlet wires self = Some i ->
    exit0 wires self = Some e0 ->
    exit1 wires self = Some e1 ->
    fields h i "p" = Some p0 ->
    fields h i "t" = Some t0 ->
    fields h i "w" = Some w0 ->
    lookup "BPR" (attributes h (attributes_of wires self)) = Some bpr ->
    is_zero (add bpr one) = false ->
    exists h',
      Splitter_calculate self h = (Ok tt, h') /\
      attributes h' = attributes h /\
      (fields h' e1 "p" = Some p0 /\ fields h' e1 "t" = Some t0 /\
       fields h' e1 "w" = Some (quot (mul w0 bpr) (add bpr one))) /\
      (e0 <> e1 ->
       fields h' e0 "p" = Some p0 /\ fields h' e0 "t" = Some t0 /\
       fields h' e0 "w" = Some (quot w0 (add bpr one))) /\
      (forall o name, o <> e0 -> o <> e1 -> fields h' o name = fields h o name).
Proof.
  intros self i e0 e1 h p0 t0 w0 bpr Hi H0 H1 Hp Ht Hw Hb Hz.
  eexists. split.
  - unfold Splitter_calculate, read_inlet, bind, getattr, getitem, subscript,
      divide.
    rewrite Hi, H0, H1. simpl. rewrite Hp, Ht, Hw. simpl. rewrite Hb. simpl.
    rewrite Hz. simpl. reflexivity.
  - simpl. rewrite !Nat.eqb_refl. simpl.
    split; [reflexivity |]. split; [| split].
    + repeat split.
    + intro Hne. apply Nat.eqb_neq in Hne. rewrite Hne. simpl. repeat split.
    + intros o name Ho0 Ho1. apply Nat.eqb_neq in Ho0, Ho1.
      now rewrite Ho0, Ho1.
Qed.

(** *** The Combustor's law *)

Lemma Combustor_calculate_deltaT :
  forall (self i e : obj) (h : heap) (p0 t0 w0 dt : T),
    inlet wires self = Some i ->
    exit wires self = Some e ->
    fields h i "p" = Some p0 ->
    fields h i "t" = Some t0 ->
    fields h i "w" = Some w0 ->
    lookup "deltaT" (attributes h (attributes_of wires self)) = Some dt ->
    exists h',
      Combustor_calculate self h = (Ok tt, h') /\
      attributes h' = attributes h /\
      (fields h' e "p" = Some p0 /\ fields h' e "t" = Some (add t0 dt) /\
       fields h' e "w" = Some w0) /\
      (forall o name, o <> e -> fields h' o name = fields h o name).
Proof.
  intros self i e h p0 t0 w0 dt Hi He Hp Ht Hw Hdt.
  eexists. split.
  - unfold Combustor_calculate, read_inlet, write_exit, bind, try_except,
      getattr, getitem, subscript.
    rewrite Hi, He. simpl. rewrite Hp, Ht, Hw. simpl. rewrite Hdt. simpl.
    reflexivity.
  - simpl. rewrite !Nat.eqb_refl. simpl.
    split; [reflexivity |]. split; [repeat split |].
    intros o name Ho. apply Nat.eqb_neq in Ho. now rewrite Ho.
Qed.

(** *** Checking, on a finite network, that every read is fed from above *)

Section Discipline.

Variable dependents : obj -> list obj.
Variable root : obj.

(** The objects of the network: at least those below the root. *)
Variable objects : list obj.
Hypothesis closed :
  forall m, Calculable.reach dependents root m -> In m objects.

(** The objects [n] waits for, through at most [fuel] links. *)
Fixpoint ancestors (fuel : nat) (n : obj) : list obj :=
  match fuel with
  | O => []
  | S k => precedents n ++ flat_map (ancestors k) (precedents n)
  end.

Definition never_written (l : loc) : bool :=
  forallb (fun m => negb (writes m l)) objects.

Definition carried_by_notifiers (g : obj) (l : loc) : bool :=
  negb (Nat.eqb g root) &&
  forallb (fun m => negb (existsb (Nat.eqb g) (dependents m)) || writes m l)
          objects.

Definition fed (fuel : nat) (n : obj) (l : loc) : bool :=
  never_written l ||
  existsb (fun g => writes g l || carried_by_notifiers g l) (ancestors fuel n).

Definition well_fed (fuel : nat) : bool :=
  forallb (fun n => forallb (fed fuel n) (reads_list n)) objects.

Lemma ancestors_above :
  forall fuel n g, In g (ancestors fuel n) -> Calculable.above precedents n g.
Proof.
  induction fuel as [| k IH]; intros n g H; [destruct H |].
  simpl in H. apply in_app_or in H. destruct H as [H | H].
  - now apply Calculable.above_one.
  - apply in_flat_map in H. destruct H as [q [Hq Hg]].
    apply Calculable.above_more with (q := q); [exact Hq | now apply IH].
Qed.

Lemma well_fed_disciplined :
  forall fuel, well_fed fuel = true ->
    forall n l, Calculable.reach dependents root n -> reads n l ->
      (forall m, Calculable.reach dependents root m -> writes m l = false) \/
      exists g, Calculable.above precedents n g /\
                (writes g l = true \/
                 Calculable.carried dependents root writes g l).
Proof.
  intros fuel Hwf n l Hn Hl.
  unfold well_fed in Hwf. rewrite forallb_forall in Hwf.
  specialize (Hwf n (closed Hn)). rewrite forallb_forall in Hwf.
  specialize (Hwf l Hl). unfold fed in Hwf.
  apply orb_true_iff in Hwf. destruct Hwf as [Hnw | Hex].
  - left. intros m Hm. unfold never_written in Hnw.
    rewrite forallb_forall in Hnw. specialize (Hnw m (closed Hm)).
    now apply negb_true_iff in Hnw.
  - right. apply existsb_exists in Hex. destruct Hex as [g [Hg Hw]].
    exists g. split; [now apply ancestors_above with (fuel := fuel) |].
    apply orb_true_iff in Hw. destruct Hw as [Hw | Hc]; [now left | right].
    unfold carried_by_notifiers in Hc. apply andb_true_iff in Hc.
    destruct Hc as [Hne Hall]. split.
    + apply negb_true_iff, Nat.eqb_neq in Hne. exact Hne.
    + intros m Hm Hin. rewrite forallb_forall in Hall.
      specialize (Hall m (closed Hm)). apply orb_true_iff in Hall.
      destruct Hall as [Hno | Hw]; [| exact Hw].
      apply negb_true_iff in Hno.
      assert (Hyes : existsb (Nat.eqb g) (dependents m) = true).
      { apply existsb_exists. exists g. split; [exact Hin | apply Nat.eqb_refl]. }
      congruence.
Qed.

End Discipline.

(** ** performance.py: class Engine; engines.py: class EngineAssembly *)

Section Engine.

(** [self.dependents] of every object of the network. *)
Variable dependents : obj -> list obj.

(** [self.environment], the dict object [self.attributes] of the engine
    (also registered as [self.components['ENGINE']]), [self.nozzles], and
    the paths of [self.input_aliases] and [self.output_aliases]; the
    limits kept with an input alias play no part here.  None of these is
    assigned after the engine is built. *)
Variable environment : obj.
Variable engine_attributes : nat.
Variable nozzles : list obj.
Variable input_aliases : dict (list string).
Variable output_aliases : dict (list string).

(** What [self.components] may hold: a component, a plain dict, or a
    number put there through a one-element alias path.  An [item] is
    what a path walk passes through: the engine itself, then entries. *)
Inductive entry : Type :=
| Comp (o : obj)
| Dict (a : nat)
| Num (v : T).

Inductive item : Type :=
| Self
| Entry (e : entry).

(** The mutable state of an engine: its calculation network with all the
    numbers, [self.components] and [self.thrust]. *)
Record world : Type := mk_world {
  network : Calculable.state heap;
  components : dict entry;
  thrust : option T
}.

Definition heap_of (w : world) : heap := Calculable.data (network w).

Definition with_network (s : Calculable.state heap) (w : world) : world :=
  mk_world s (components w) (thrust w).

Definition with_heap (h : heap) (w : world) : world :=
  with_network (Calculable.mk_state (Calculable.dirty (network w)) h
                                    (Calculable.calls (network w))) w.

Definition on_heap {A : Type} (m : M heap A) : M world A :=
  fun w => (fst (m (heap_of w)), with_heap (snd (m (heap_of w))) w).

(** Subclasses of [Component] have [__getitem__] and [__setitem__];
    [Station] and [Environment] have neither. *)
Definition is_Component (c : class) : bool :=
  match c with
  | Station_ | Environment_ => false
  | _ => true
  end.

(** [Engine.__getitem__] *)
Definition Engine_getitem (ident : string) : M world entry :=
  fun w => subscript (components w) ident w.

(** [item[p]] *)
Definition item_getitem (it : item) (p : string) : M world item :=
  match it with
  | Self => e <- Engine_getitem p ;; ret (Entry e)
  | Entry (Comp o) =>
      if is_Component (class_of wires o)
      then v <- on_heap (getitem o p) ;; ret (Entry (Num v))
      else raise TypeError
  | Entry (Dict a) => v <- on_heap (getkey a p) ;; ret (Entry (Num v))
  | Entry (Num _) => raise TypeError
  end.

(** [item = self; for p in path: item = item[p]] *)
Definition walk (path : list string) : M world item :=
  accumulate path Self (fun p it => item_getitem it p).

(** [thrust += nozz.inlet.w * (nozz.vj - v0)] *)
Definition nozzle_thrust (v0 : T) (nozz : obj) (thrust : T) : M heap T :=
  i <- attr "inlet" (inlet wires nozz) ;;
  w <- getattr i "w" ;;
  vj <- getattr nozz "vj" ;;
  ret (add thrust (mul w (sub vj v0))).

(** [Engine.calculate_thrust] *)
Definition calculate_thrust : M world unit :=
  v0 <- on_heap (getattr environment "v0") ;;
  thrust <- on_heap (accumulate nozzles zero (nozzle_thrust v0)) ;;
  modify (fun w => mk_world (network w) (components w) (Some thrust)) ;;;
  on_heap (setkey engine_attributes "THRUST" thrust).

(** [c.fuel_flow()] for whatever [self['COMBUSTOR']] is. *)
Definition entry_fuel_flow (c : entry) : M heap T :=
  match c with
  | Comp o => fuel_flow o
  | _ => raise (AttributeError "fuel_flow")
  end.

(** [Engine.calculate_attributes] *)
Definition calculate_attributes : M world unit :=
  c <- Engine_getitem "COMBUSTOR" ;;
  ff <- on_heap (entry_fuel_flow c) ;;
  on_heap (setkey engine_attributes "FUEL_FLOW" ff) ;;;
  fn <- on_heap (getkey engine_attributes "THRUST") ;;
  sfc <- divide ff fn ;;
  on_heap (setkey engine_attributes "SFC" sfc).

(** [Engine.update] *)
Definition Engine_update (depth : nat) (w : world)
  : option (result unit * world) :=
  match Calculable.update_from_root dependents precedents calculate
          depth environment (network w) with
  | None => None
  | Some (Raised e s) => Some (Err e, with_network s w)
  | Some (Done s) =>
      Some ((calculate_thrust ;;; calculate_attributes) (with_network s w))
  end.

(** [Component.__setitem__] *)
Definition Component_setitem (depth : nat) (self : obj) (name : string)
    (value : T) (w : world) : option (result unit * world) :=
  if negb (contains name (attributes (heap_of w) (attributes_of wires self)))
  then Some (Err LookupError, w)
  else
    match Calculable.make_dirty dependents depth self (network w) with
    | None => None
    | Some s => Some (on_heap (setparam self name value) (with_network s w))
    end.

(** [Engine.__setitem__] when the value is a number, which is neither a
    Nozzle nor an Intake. *)
Definition Engine_setitem (ident : string) (value : T) : M world unit :=
  fun w =>
    if contains ident (components w) then (Err AssertionError, w)
    else (Ok tt, mk_world (network w) (store ident (Num value) (components w))
                          (thrust w)).

(** [item[last] = value] *)
Definition item_setitem (depth : nat) (it : item) (name : string) (value : T)
    (w : world) : option (result unit * world) :=
  match it with
  | Self => Some (Engine_setitem name value w)
  | Entry (Comp o) =>
      if is_Component (class_of wires o)
      then Component_setitem depth o name value w
      else Some (Err TypeError, w)
  | Entry (Dict a) => Some (on_heap (setkey a name value) w)
  | Entry (Num _) => Some (Err TypeError, w)
  end.

(** [path[-1]] *)
Definition last_of (path : list string) : M world string :=
  match path with
  | [] => raise IndexError
  | _ => ret (last path ""%string)
  end.

(** [EngineAssembly.set_input_alias] *)
Definition set_input_alias (depth : nat) (alias : string) (value : T)
    (w : world) : option (result unit * world) :=
  match (path <- subscript input_aliases alias ;;
         name <- last_of path ;;
         it <- walk (removelast path) ;;
         ret (it, name)) w with
  | (Ok (it, name), w') => item_setitem depth it name value w'
  | (Err e, w') => Some (Err e, w')
  end.

(** [EngineAssembly.set_inputs] *)
Fixpoint set_inputs (depth : nat) (input_dict : dict T) (w : world)
  : option (result unit * world) :=
  match input_dict with
  | [] => Some (Ok tt, w)
  | (k, v) :: rest =>
      match set_input_alias depth k v w with
      | Some (Ok _, w') => set_inputs depth rest w'
      | r => r
      end
  end.

(** [EngineAssembly.get_output_alias] *)
Definition get_output_alias (alias : string) : M world item :=
  path <- subscript output_aliases alias ;;
  walk path.

(** [EngineAssembly.get_outputs] *)
Definition get_outputs : M world (list (string * item)) :=
  comprehension (keys output_aliases)
                (fun k => v <- get_output_alias k ;; ret (k, v)).

(** [EngineAssembly.calculate] *)
Definition EngineAssembly_calculate (depth : nat) (input_dict : dict T)
    (w : world) : option (result (dict item) * world) :=
  match set_inputs depth input_dict w with
  | None => None
  | Some (Err e, w1) => Some (Err e, w1)
  | Some (Ok _, w1) =>
      match Engine_update depth w1 with
      | None => None
      | Some (Err e, w2) => Some (Err e, w2)
      | Some (Ok _, w2) =>
          Some ((outputs <- get_outputs ;; ret (dict_of outputs)) w2)
      end
  end.

(** *** Reading through alias paths *)

Lemma with_heap_same : forall w, with_heap (heap_of w) w = w.
Proof. intros [[d h c] cs th]. reflexivity. Qed.

(** Two worlds that look alike to a reader. *)
Definition same_view (w w' : world) : Prop :=
  components w' = components w /\
  forall l, get_loc (heap_of w') l = get_loc (heap_of w) l.

(** [observes m]: [m] changes nothing and tells two worlds apart only
    by their components and by the values in them. *)
Definition observes {A : Type} (m : M world A) : Prop :=
  (forall w, snd (m w) = w) /\
  (forall w w', same_view w w' -> fst (m w') = fst (m w)).

Lemma observes_pure :
  forall (A : Type) (r : result A), observes (fun w => (r, w)).
Proof. intros A r. split; reflexivity. Qed.

Lemma observes_bind :
  forall (A B : Type) (m : M world A) (k : A -> M world B),
    observes m -> (forall a, observes (k a)) -> observes (bind m k).
Proof.
  intros A B m k [Sm Vm] Hk. split.
  - intro w. unfold bind. specialize (Sm w).
    destruct (m w) as [[a | e] w1]; simpl in *; [| exact Sm].
    subst w1. apply (Hk a).
  - intros w w' Hv. unfold bind.
    pose proof (Sm w) as S1. pose proof (Sm w') as S2.
    pose proof (Vm w w' Hv) as V.
    destruct (m w) as [[a | e] w1]; destruct (m w') as [[a' | e'] w1'];
      simpl in *; subst; try discriminate.
    + inversion V; subst a'. apply (Hk a). exact Hv.
    + inversion V. reflexivity.
Qed.

Lemma observes_Engine_getitem : forall ident, observes (Engine_getitem ident).
Proof.
  intro ident. unfold Engine_getitem, subscript. split.
  - intro w. destruct (lookup ident (components w)); reflexivity.
  - intros w w' [Hc _]. rewrite Hc.
    destruct (lookup ident (components w)); reflexivity.
Qed.

Lemma observes_getkey : forall a key, observes (on_heap (getkey a key)).
Proof.
  intros a key. unfold on_heap, getkey, subscript. split.
  - intro w. destruct (lookup key (attributes (heap_of w) a)); simpl;
      apply with_heap_same.
  - intros w w' [_ Hl]. specialize (Hl (Param a key)). simpl in Hl.
    rewrite Hl. destruct (lookup key (attributes (heap_of w) a)); reflexivity.
Qed.

Lemma observes_item_getitem : forall it p, observes (item_getitem it p).
Proof.
  intros [| [o | a | v]] p; simpl.
  - apply observes_bind; [apply observes_Engine_getitem |].
    intro e. apply observes_pure.
  - destruct (is_Component (class_of wires o)); [| apply observes_pure].
    apply observes_bind; [apply observes_getkey |].
    intro v. apply observes_pure.
  - apply observes_bind; [apply observes_getkey |].
    intro v. apply observes_pure.
  - apply observes_pure.
Qed.

Lemma observes_steps :
  forall path it, observes (accumulate path it (fun p it => item_getitem it p)).
Proof.
  induction path as [| p path IH]; intro it; simpl.
  - apply observes_pure.
  - apply observes_bind; [apply observes_item_getitem | exact (IH)].
Qed.

Lemma observes_walk : forall path, observes (walk path).
Proof. intro path. apply observes_steps. Qed.

Lemma observes_comprehension :
  forall (A B : Type) (f : A -> M world B) xs,
    (forall x, observes (f x)) -> observes (comprehension xs f).
Proof.
  intros A B f xs Hf. induction xs as [| x xs IH]; simpl.
  - apply observes_pure.
  - apply observes_bind; [apply Hf |]. intro y.
    apply observes_bind; [exact IH |]. intro ys. apply observes_pure.
Qed.

Lemma observes_aliases :
  forall (aliases : dict (list string)) alias,
    observes (subscript (H := world) aliases alias).
Proof.
  intros aliases alias. unfold subscript.
  destruct (lookup alias aliases); apply observes_pure.
Qed.

Lemma observes_get_outputs : observes get_outputs.
Proof.
  apply observes_comprehension. intro k.
  apply observes_bind; [| intro v; apply observes_pure].
  apply observes_bind; [apply observes_aliases | intro path; apply observes_walk].
Qed.

(** *** Setting the inputs *)

Lemma step_from_entry :
  forall e p w it w',
    item_getitem (Entry e) p w = (Ok it, w') -> exists v, it = Entry (Num v).
Proof.
  intros [o | a | v0] p w it w' E; simpl in E.
  - destruct (is_Component (class_of wires o)); [| discriminate].
    unfold bind in E.
    destruct (on_heap (getitem o p) w) as [[v | er] w1]; [| discriminate].
    inversion E. eauto.
  - unfold bind in E.
    destruct (on_heap (getkey a p) w) as [[v | er] w1]; [| discriminate].
    inversion E. eauto.
  - discriminate.
Qed.

(** Below a component or a dict there are only numbers. *)
Lemma steps_from_entry :
  forall q e w it w',
    q <> [] ->
    accumulate q (Entry e) (fun p it => item_getitem it p) w = (Ok it, w') ->
    exists v, it = Entry (Num v).
Proof.
  intros [| p q] e w it w' Hq E; [congruence |].
  cbn [accumulate] in E. unfold bind at 1 in E.
  destruct (item_getitem (Entry e) p w) as [[it1 | er] w1] eqn:E1;
    [| discriminate].
  destruct (step_from_entry _ _ _ E1) as [v ->].
  destruct q as [| p' q]; simpl in E.
  - inversion E. eauto.
  - discriminate.
Qed.

(** A successful [item[name] = value] below the engine stores into one
    dict, and succeeds again wherever the components are the same and no
    key has gone. *)
Lemma item_setitem_shape :
  forall depth e name value w w1,
    item_setitem depth (Entry e) name value w = Some (Ok tt, w1) ->
    exists a,
      components w1 = components w /\
      heap_of w1 = set_key a name value (heap_of w) /\
      forall w',
        covers (heap_of w) (heap_of w') ->
        exists w1',
          item_setitem depth (Entry e) name value w' = Some (Ok tt, w1') /\
          components w1' = components w' /\
          heap_of w1' = set_key a name value (heap_of w').
Proof.
  intros depth [o | a | v0] name value w w1 E; simpl in E.
  - destruct (is_Component (class_of wires o)) eqn:Hc; [| discriminate].
    unfold Component_setitem in E.
    destruct (contains name (attributes (heap_of w) (attributes_of wires o)))
      eqn:Hk; [| discriminate].
    simpl in E.
    destruct (Calculable.make_dirty dependents depth o (network w))
      as [s |] eqn:Em; [| discriminate].
    destruct (@Calculable.make_dirty_again _ _ _ _ _ _ Em (network w))
      as [s0 [Em0 (_ & _ & _ & Hd & _)]].
    rewrite Em in Em0. inversion Em0; subst s0.
    unfold on_heap, setparam, modify in E. simpl in E.
    inversion E; subst w1.
    exists (attributes_of wires o). split; [reflexivity |].
    split; [unfold heap_of in *; simpl; now rewrite Hd |].
    intros w' Hcov. simpl. rewrite Hc. unfold Component_setitem.
    assert (Hk' : contains name (attributes (heap_of w') (attributes_of wires o))
                  = true).
    { apply contains_get_loc, Hcov, contains_get_loc, Hk. }
    rewrite Hk'. simpl.
    destruct (@Calculable.make_dirty_again _ _ _ _ _ _ Em (network w'))
      as [s' [Em' (_ & _ & _ & Hd' & _)]].
    rewrite Em'. eexists. split; [reflexivity |].
    split; [reflexivity |].
    unfold heap_of in *; simpl; now rewrite Hd'.
  - unfold on_heap, setkey, modify in E. simpl in E.
    inversion E; subst w1.
    exists a. split; [reflexivity |]. split; [reflexivity |].
    intros w' _. simpl. eexists. split; [reflexivity |].
    split; reflexivity.
  - discriminate.
Qed.

Section Twice.

(** An input alias is a path of a component ident and a parameter name:
    none has one element only, which would make [set_input_alias] call
    [Engine.__setitem__] and register the value as a component. *)
Hypothesis no_single :
  forall alias path, lookup alias input_aliases = Some path ->
                     List.length path <> 1.

Lemma item_getitem_Self :
  forall p w,
    item_getitem Self p w
    = match lookup p (components w) with
      | Some e => (Ok (Entry e), w)
      | None => (Err (KeyError p), w)
      end.
Proof.
  intros p w. unfold item_getitem, bind, Engine_getitem, subscript.
  destruct (lookup p (components w)); reflexivity.
Qed.

(** [set_input_alias] on a path of two elements or more. *)
Lemma set_input_alias_below :
  forall depth alias value w p1 p2 rest,
    lookup alias input_aliases = Some (p1 :: p2 :: rest) ->
    set_input_alias depth alias value w
    = match lookup p1 (components w) with
      | None => Some (Err (KeyError p1), w)
      | Some e =>
          match accumulate (removelast (p2 :: rest)) (Entry e)
                           (fun p it => item_getitem it p) w with
          | (Ok it, w') =>
              item_setitem depth it (last (p2 :: rest) ""%string) value w'
          | (Err er, w') => Some (Err er, w')
          end
      end.
Proof.
  intros depth alias value w p1 p2 rest Hp.
  assert (Hs : subscript (H := world) input_aliases alias
               = ret (p1 :: p2 :: rest))
    by (unfold subscript; rewrite Hp; reflexivity).
  unfold set_input_alias. rewrite Hs.
  match goal with
  | |- context [match ?S with _ => _ end] =>
      change S with
        ((it <- (it0 <- item_getitem Self p1 ;;
                 accumulate (removelast (p2 :: rest)) it0
                            (fun p it => item_getitem it p)) ;;
          ret (it, last (p2 :: rest) ""%string)) w)
  end.
  unfold bind at 1 2. rewrite item_getitem_Self.
  destruct (lookup p1 (components w)) as [e |]; [| reflexivity].
  destruct (accumulate (removelast (p2 :: rest)) (Entry e)
              (fun p it => item_getitem it p) w) as [[it | er] w'];
    reflexivity.
Qed.

Lemma set_input_alias_shape :
  forall depth alias value w w1,
    set_input_alias depth alias value w = Some (Ok tt, w1) ->
    exists a key,
      components w1 = components w /\
      heap_of w1 = set_key a key value (heap_of w) /\
      forall w',
        components w' = components w ->
        covers (heap_of w) (heap_of w') ->
        exists w1',
          set_input_alias depth alias value w' = Some (Ok tt, w1') /\
          components w1' = components w' /\
          heap_of w1' = set_key a key value (heap_of w').
Proof.
  intros depth alias value w w1 E.
  destruct (lookup alias input_aliases) as [path |] eqn:Hp.
  2:{ unfold set_input_alias, bind, subscript in E. rewrite Hp in E.
      discriminate. }
  destruct path as [| p1 [| p2 rest]].
  - unfold set_input_alias, bind, subscript in E. rewrite Hp in E.
    discriminate.
  - exfalso. apply (no_single _ Hp). reflexivity.
  - rewrite (set_input_alias_below _ _ _ _ Hp) in E.
    destruct (lookup p1 (components w)) as [e |] eqn:He; [| discriminate].
    destruct (accumulate (removelast (p2 :: rest)) (Entry e)
                (fun p it => item_getitem it p) w) as [[it | er] w0] eqn:Ew;
      [| discriminate].
    pose proof (proj1 (observes_steps (removelast (p2 :: rest)) (Entry e)) w)
      as Hw0.
    rewrite Ew in Hw0. simpl in Hw0. subst w0.
    destruct rest as [| p3 rest].
    + simpl in Ew. inversion Ew; subst it.
      destruct (item_setitem_shape _ _ _ _ _ E) as [a (Hc & Hh & Hagain)].
      exists a, p2. split; [exact Hc |]. split; [exact Hh |].
      intros w' Hc' Hcov.
      rewrite (set_input_alias_below _ _ _ _ Hp), Hc', He. simpl.
      destruct (Hagain w' Hcov) as [w1' (E' & Hc1 & Hh1)].
      exists w1'. split; [exact E' |]. split; [congruence | exact Hh1].
    + exfalso.
      assert (Hne : removelast (p2 :: p3 :: rest) <> []) by discriminate.
      destruct (@steps_from_entry _ _ _ _ _ Hne Ew) as [v ->].
      discriminate.
Qed.

(** A run of parameter stores. *)
Fixpoint stored (ss : list (nat * string * T)) (h : heap) : heap :=
  match ss with
  | [] => h
  | (a, key, v) :: ss' => stored ss' (set_key a key v h)
  end.

Lemma covers_set_key :
  forall a key v h h',
    covers h h' -> covers (set_key a key v h) (set_key a key v h').
Proof.
  intros a key v h h' Hc l. rewrite !get_set_key.
  destruct (loc_eqb l (Param a key)); [auto | apply Hc].
Qed.

Lemma covers_stored : forall ss h, covers h (stored ss h).
Proof.
  induction ss as [| [[a key] v] ss IH]; intro h; simpl.
  - apply covers_refl.
  - apply covers_trans with (h2 := set_key a key v h); [| apply IH].
    intros l Hl. rewrite get_set_key.
    destruct (loc_eqb l (Param a key)); [discriminate | exact Hl].
Qed.

Lemma set_inputs_shape :
  forall depth input_dict w w1,
    set_inputs depth input_dict w = Some (Ok tt, w1) ->
    exists ss,
      components w1 = components w /\
      heap_of w1 = stored ss (heap_of w) /\
      forall w',
        components w' = components w ->
        covers (heap_of w) (heap_of w') ->
        exists w1',
          set_inputs depth input_dict w' = Some (Ok tt, w1') /\
          components w1' = components w' /\
          heap_of w1' = stored ss (heap_of w').
Proof.
  intros depth input_dict.
  induction input_dict as [| [k v] rest IH]; intros w w1 E; simpl in E.
  - inversion E; subst w1. exists []. split; [reflexivity |].
    split; [reflexivity |]. intros w' _ _. exists w'. simpl. auto.
  - destruct (set_input_alias depth k v w) as [[[[] | er] wa] |] eqn:Ea;
      try discriminate.
    destruct (set_input_alias_shape _ _ _ _ Ea) as (a & key & Hc & Hh & Hagain).
    destruct (IH _ _ E) as (ss & Hc1 & Hh1 & Hrest).
    exists ((a, key, v) :: ss). split; [congruence |].
    split; [simpl; now rewrite <- Hh |].
    intros w' Hc' Hcov.
    destruct (Hagain w' Hc' Hcov) as (wa' & Ea' & Hca' & Hha').
    destruct (Hrest wa') as (w1' & E1' & Hc1' & Hh1').
    { congruence. }
    { rewrite Hh, Hha'. now apply covers_set_key. }
    exists w1'. simpl. rewrite Ea'. split; [exact E1' |].
    split; [congruence |]. simpl. now rewrite <- Hha'.
Qed.

(** The last value a run of stores gives a location, if any. *)
Fixpoint assigned (ss : list (nat * string * T)) (l : loc) : option T :=
  match ss with
  | [] => None
  | (a, key, v) :: ss' =>
      match assigned ss' l with
      | Some v' => Some v'
      | None => if loc_eqb l (Param a key) then Some v else None
      end
  end.

Lemma get_stored :
  forall ss h l,
    get_loc (stored ss h) l
    = match assigned ss l with Some v => Some v | None => get_loc h l end.
Proof.
  induction ss as [| [[a key] v] ss IH]; intros h l; simpl; [reflexivity |].
  rewrite IH, get_set_key.
  destruct (assigned ss l); [reflexivity |].
  destruct (loc_eqb l (Param a key)); reflexivity.
Qed.

(** Stored twice over, a run of stores leaves what it left the first
    time, wherever the heap in between had kept the first result. *)
Lemma stored_again :
  forall ss h0 h l,
    get_loc h l = get_loc (stored ss h0) l ->
    get_loc (stored ss h) l = get_loc (stored ss h0) l.
Proof.
  intros ss h0 h l E.
  rewrite (get_stored ss h0) in E. rewrite (get_stored ss h), (get_stored ss h0).
  destruct (assigned ss l); [reflexivity | exact E].
Qed.

(** *** Thrust and attributes *)

(** What [calculate_thrust] and [calculate_attributes] do to the numbers,
    given what [self.components] holds under ['COMBUSTOR']. *)
Definition thrust_and_attributes (c : option entry) : M heap unit :=
  v0 <- getattr environment "v0" ;;
  thrust <- accumulate nozzles zero (nozzle_thrust v0) ;;
  setkey engine_attributes "THRUST" thrust ;;;
  c <- match c with
       | Some e => ret e
       | None => raise (KeyError "COMBUSTOR")
       end ;;
  ff <- entry_fuel_flow c ;;
  setkey engine_attributes "FUEL_FLOW" ff ;;;
  fn <- getkey engine_attributes "THRUST" ;;
  sfc <- divide ff fn ;;
  setkey engine_attributes "SFC" sfc.

Lemma thrust_and_attributes_heap :
  forall w,
    fst ((calculate_thrust ;;; calculate_attributes) w)
    = fst (thrust_and_attributes (lookup "COMBUSTOR" (components w)) (heap_of w))
    /\ heap_of (snd ((calculate_thrust ;;; calculate_attributes) w))
       = snd (thrust_and_attributes (lookup "COMBUSTOR" (components w))
                                    (heap_of w))
    /\ components (snd ((calculate_thrust ;;; calculate_attributes) w))
       = components w.
Proof.
  intros [[d h c] cs th0].
  unfold calculate_thrust, calculate_attributes, thrust_and_attributes,
    bind, on_heap, Engine_getitem, setkey, getkey, divide, modify, subscript,
    ret, raise, heap_of, with_heap, with_network.
  cbn [network components thrust Calculable.data Calculable.dirty
       Calculable.calls fst snd].
  destruct (getattr environment "v0" h) as [[v0 | e] h1];
    cbn [network components thrust Calculable.data Calculable.dirty
         Calculable.calls fst snd]; [| repeat split].
  destruct (accumulate nozzles zero (nozzle_thrust v0) h1) as [[th | e] h2];
    cbn [network components thrust Calculable.data Calculable.dirty
         Calculable.calls fst snd]; [| repeat split].
  destruct (lookup "COMBUSTOR" cs) as [c0 |];
    cbn [network components thrust Calculable.data Calculable.dirty
         Calculable.calls fst snd]; [| repeat split].
  destruct (entry_fuel_flow c0 (set_key engine_attributes "THRUST" th h2))
    as [[ff | e] h3];
    cbn [network components thrust Calculable.data Calculable.dirty
         Calculable.calls fst snd]; [| repeat split].
  destruct (lookup "THRUST"
              (attributes (set_key engine_attributes "FUEL_FLOW" ff h3)
                          engine_attributes)) as [fn |];
    cbn [network components thrust Calculable.data Calculable.dirty
         Calculable.calls fst snd]; [| repeat split].
  destruct (is_zero fn);
    cbn [network components thrust Calculable.data Calculable.dirty
         Calculable.calls fst snd]; repeat split.
Qed.

(** The three keys the engine assigns in its own dict are out of sight
    of the network, which neither reads nor writes a parameter of these
    names, in whichever dict. *)
Definition engine_key (key : string) : bool :=
  String.eqb key "THRUST" || String.eqb key "FUEL_FLOW" || String.eqb key "SFC".

Definition hidden (l : loc) : bool :=
  match l with
  | Param a key => Nat.eqb a engine_attributes && engine_key key
  | Field _ _ => false
  end.

Definition visible (h : heap) (l : loc) : option T :=
  if hidden l then None else get_loc h l.

Definition in_sight (l : loc) : Prop := hidden l = false.

Definition engine_keys (l : loc) : Prop :=
  l = Param engine_attributes "THRUST" \/
  l = Param engine_attributes "FUEL_FLOW" \/
  l = Param engine_attributes "SFC".

Lemma footprint_accumulate :
  forall (A S : Type) (X : loc -> Prop) (body : A -> S -> M heap S) xs acc,
    (forall x acc, footprint X nothing (body x acc)) ->
    footprint X nothing (accumulate xs acc body).
Proof.
  intros A S X body xs acc Hb. revert acc.
  induction xs as [| x xs IH]; intro acc; simpl.
  - apply footprint_pure.
  - apply footprint_weaken with (W := both nothing nothing).
    + apply footprint_bind; [apply Hb |]. intro acc'.
      apply footprint_enlarge with (X := X).
      * apply IH.
      * intros l Hl. now left.
      * intros l [Hl | []]. now left.
    + intros l [[] | []].
    + intros l [].
Qed.

Ltac seen :=
  first [ reflexivity
        | apply andb_false_r
        | left; seen
        | right; seen ].

Ltac in_sight_of := unfold both, only, nothing, in_sight; simpl; solve [seen].

Ltac engine_step :=
  lazymatch goal with
  | |- footprint _ _ (getattr _ _) => apply footprint_getattr; in_sight_of
  | |- footprint _ _ (getitem _ _) => apply footprint_getitem; in_sight_of
  | |- footprint _ _ (getkey _ _) => apply footprint_getkey; in_sight_of
  | |- _ => footprint_step
  end.

Ltac engine_steps := repeat engine_step.

Lemma nozzle_thrust_footprint :
  forall (X : loc -> Prop) v0 nozz thrust,
    (forall l, in_sight l -> X l) ->
    footprint X nothing (nozzle_thrust v0 nozz thrust).
Proof.
  intros X v0 nozz thrust HX. unfold nozzle_thrust.
  apply footprint_enlarge with (X := in_sight);
    [| exact HX | intros l _; right; intros []].
  destruct (inlet wires nozz) as [i |];
    (eapply footprint_weaken; [engine_steps | no_writes | intros l []]).
Qed.

Lemma entry_fuel_flow_footprint :
  forall (X : loc -> Prop) c,
    (forall l, in_sight l -> X l) ->
    footprint X nothing (entry_fuel_flow c).
Proof.
  intros X c HX.
  apply footprint_enlarge with (X := in_sight);
    [| exact HX | intros l _; right; intros []].
  destruct c as [o | a | v]; simpl; try apply footprint_pure.
  unfold fuel_flow. destruct (class_of wires o); try apply footprint_pure.
  destruct (inlet wires o) as [i |]; [destruct (exit wires o) as [e |] |];
    (eapply footprint_weaken; [engine_steps | no_writes | intros l []]).
Qed.

Lemma thrust_and_attributes_footprint :
  forall c, footprint in_sight engine_keys (thrust_and_attributes c).
Proof.
  intro c. unfold thrust_and_attributes.
  eapply footprint_weaken.
  - eapply footprint_bind; [engine_step |]. intro v0.
    eapply footprint_bind.
    { apply footprint_accumulate. intros nozz acc.
      apply nozzle_thrust_footprint.
      intros l Hl. left. exact Hl. }
    intro th.
    eapply footprint_bind; [apply footprint_setkey |]. intros _.
    eapply footprint_bind.
    { destruct c; apply footprint_pure. }
    intro e.
    eapply footprint_bind.
    { apply entry_fuel_flow_footprint. intros l Hl. unfold both. tauto. }
    intro ff. engine_steps.
  - intros l H. unfold both, only, nothing, engine_keys in *. tauto.
  - intros l H. left. unfold both, only, nothing, engine_keys in *. tauto.
Qed.

(** *** The network sees nothing of the engine's three keys *)

Lemma own_key_in_sight :
  forall a key, engine_key key = false -> in_sight (Param a key).
Proof.
  intros a key Hk. unfold in_sight. simpl. rewrite Hk. apply andb_false_r.
Qed.

Lemma value_of_in_sight :
  forall o name l,
    engine_key name = false -> In l (value_of o name) -> in_sight l.
Proof.
  intros o name l Hk [<- | [<- | []]];
    [reflexivity | now apply own_key_in_sight].
Qed.

Ltac sighted :=
  repeat match goal with
         | H : In _ (_ ++ _) |- _ => apply in_app_or in H; destruct H
         | H : In _ (_ :: _) |- _ => destruct H as [<- | H]
         | H : In _ [] |- _ => destruct H
         | H : In _ (value_of _ _) |- _ =>
             eapply value_of_in_sight; [| exact H]; reflexivity
         | |- in_sight (Param _ _) =>
             apply own_key_in_sight; reflexivity
         end.

Lemma inlet_reads_in_sight :
  forall self l, In l (inlet_reads self) -> in_sight l.
Proof.
  intros self l H. unfold inlet_reads in H.
  destruct (inlet wires self); sighted.
Qed.

Lemma shaft_power_reads_in_sight :
  forall p l, In l (shaft_power_reads p) -> in_sight l.
Proof.
  intros p l H. unfold shaft_power_reads in H.
  destruct (class_of wires p); try destruct H.
  destruct (inlet wires p); [| destruct H].
  destruct (exit wires p); sighted.
Qed.

Lemma reads_in_sight : forall self l, reads self l -> in_sight l.
Proof.
  intros self l H. unfold reads, reads_list in H.
  destruct (class_of wires self); try destruct H.
  - subst l. now apply own_key_in_sight.
  - sighted.
  - destruct (ambient wires self); sighted.
  - subst l. now apply own_key_in_sight.
  - now apply inlet_reads_in_sight in H.
  - apply in_flat_map in H. destruct H as [p [_ H]].
    now apply shaft_power_reads_in_sight in H.
  - subst l. now apply own_key_in_sight.
  - now apply inlet_reads_in_sight in H.
  - apply in_app_or in H. destruct H as [H | H];
      [now apply inlet_reads_in_sight in H |].
    destruct (shaft wires self); sighted.
  - subst l. now apply own_key_in_sight.
  - destruct H as [<- | H]; [now apply own_key_in_sight |].
    now apply inlet_reads_in_sight in H.
  - apply in_app_or in H. destruct H as [H | H];
      [now apply inlet_reads_in_sight in H |].
    destruct (ambient wires self); sighted.
Qed.

Lemma writes_in_sight : forall self l, writes self l = true -> in_sight l.
Proof.
  intros self [o name | a key] H; [reflexivity |].
  unfold writes, exit_writes, is_ptw in H.
  destruct (class_of wires self); try discriminate.
  all: try (destruct (inlet wires self); destruct (exit wires self);
            destruct (exit0 wires self); destruct (exit1 wires self);
            destruct (ambient wires self); destruct (shaft wires self);
            simpl in H; discriminate).
  simpl in H. apply andb_true_iff in H. destruct H as [_ H].
  apply String.eqb_eq in H. subst key. now apply own_key_in_sight.
Qed.

Lemma engine_keys_hidden : forall l, engine_keys l <-> hidden l = true.
Proof.
  intro l. split.
  - intros [-> | [-> | ->]]; simpl; now rewrite Nat.eqb_refl.
  - destruct l as [o name | a key]; simpl; [discriminate |].
    unfold engine_key, engine_keys.
    rewrite andb_true_iff, !orb_true_iff, Nat.eqb_eq, !String.eqb_eq.
    intros [-> [[-> | ->] | ->]]; auto.
Qed.

(** *** Calculating twice *)

(** The network has no cycle, every precedent link has its dependent
    link, the environment is the only root, and whatever a [calculate]
    reads is written by nothing below the environment, or written or
    carried by something the object waits for. *)
Variable level : obj -> nat.
Hypothesis acyclic : forall n d, In d (dependents n) -> level d < level n.
Hypothesis linked : forall d q, In q (precedents d) -> In d (dependents q).
Hypothesis single_root :
  forall m q, Calculable.reach dependents environment m ->
              In q (precedents m) ->
              Calculable.reach dependents environment q.
Hypothesis disciplined :
  forall n l, Calculable.reach dependents environment n -> reads n l ->
    (forall m, Calculable.reach dependents environment m -> writes m l = false)
    \/ exists g, Calculable.above precedents n g /\
                 (writes g l = true \/
                  Calculable.carried dependents environment writes g l).

(** [sound h0 h]: every Environment has its airspeed and nothing that
    was in [h0] has gone. *)
Definition sound (h0 h : heap) : Prop := has_airspeed h /\ covers h0 h.

Lemma sound_kept :
  forall h0 n h, sound h0 h -> sound h0 (state_of (calculate n h)).
Proof.
  intros h0 n h [Ha Hc].
  pose proof (calculate_covers n Ha) as Hc'.
  split.
  - apply has_airspeed_covered with (h0 := h); assumption.
  - apply covers_trans with (h2 := h); assumption.
Qed.

Lemma sound_frame :
  forall h0 n h l,
    sound h0 h -> writes n l = false ->
    get_loc (state_of (calculate n h)) l = get_loc h l.
Proof. intros h0 n h l [Ha _] Hw. now apply calculate_frame. Qed.

Lemma airspeed_kept :
  forall n h, has_airspeed h -> has_airspeed (state_of (calculate n h)).
Proof.
  intros n h Ha.
  apply has_airspeed_covered with (h0 := h); [exact Ha |].
  now apply calculate_covers.
Qed.

Lemma visible_frame :
  forall n h l,
    has_airspeed h -> writes n l = false ->
    visible (state_of (calculate n h)) l = visible h l.
Proof.
  intros n h l Ha Hw. unfold visible.
  destruct (hidden l); [reflexivity | now apply calculate_frame].
Qed.

Lemma visible_determined :
  forall n h1 h2 h1',
    has_airspeed h1 -> has_airspeed h2 ->
    (forall l, reads n l -> visible h1 l = visible h2 l) ->
    calculate n h1 = Done h1' ->
    exists h2',
      calculate n h2 = Done h2' /\
      forall l, writes n l = true -> visible h1' l = visible h2' l.
Proof.
  intros n h1 h2 h1' H1 H2 Hag E.
  destruct (@calculate_determined n h1 h2 h1' H1 H2) as [h2' [E2 Hw]];
    [| exact E |].
  - intros l Hl. specialize (Hag l Hl). unfold visible in Hag.
    rewrite (reads_in_sight _ _ Hl) in Hag. exact Hag.
  - exists h2'. split; [exact E2 |].
    intros l Hl. unfold visible. rewrite (writes_in_sight _ _ Hl). now apply Hw.
Qed.


End Twice.

End Engine.

End Components.

(** The attributes of a [Station]. *)
Definition station_fields {T : Type} (p t w : T) (name : string) : option T :=
  if String.eqb name "p" then Some p
  else if String.eqb name "t" then Some t
  else if String.eqb name "w" then Some w
  else None.

(** [Station.__init__]: [self.p = self.t = self.w = 0.0] *)
Definition new_Station {T : Type} `{Number T} : string -> option T :=
  station_fields zero zero zero.

(** The TurboFan splitter at [FLOW = 500.0] and [BPR = 4.1], both inside
    the ranges its input aliases declare: object 0 is the splitter,
    station 1 its inlet, stations 2 and 3 its core and bypass exits. *)
Definition splitter_wires : wiring :=
  mk_wiring (fun o => match o with 0 => Splitter_ | _ => Station_ end)
            (fun o => o)
            (fun o => match o with 0 => Some 1 | _ => None end)
            (fun _ => None)
            (fun o => match o with 0 => Some 2 | _ => None end)
            (fun o => match o with 0 => Some 3 | _ => None end)
            (fun _ => None)
            (fun _ => None).

Definition splitter_heap_float : heap (T := float) :=
  mk_heap (fun o => match o with
                    | 0 => fun _ => None
                    | 1 => station_fields 30000%float 300%float 500%float
                    | _ => new_Station
                    end)
          (fun o => match o with
                    | 0 => [("BPR"%string, 4.1%float)]
                    | _ => []
                    end).

Definition splitter_heap_Fraction : heap (T := Q) :=
  mk_heap (fun o => match o with
                    | 0 => fun _ => None
                    | 1 => station_fields 30000%Q 300%Q 500%Q
                    | _ => new_Station
                    end)
          (fun o => match o with
                    | 0 => [("BPR"%string, (41 # 10)%Q)]
                    | _ => []
                    end).

(** C7, as stated, fails in the doubles the engine runs on: at inlet flow
    500.0 and bypass ratio 4.1 the two exit flows add up to
    500.00000000000006. *)
Lemma C7_counterexample_rounding :
  PrimFloat.leb 0%float 4.1%float = true /\
  fields splitter_heap_float 1 "w" = Some 500%float /\
  exists h',
    Splitter_calculate splitter_wires 0 splitter_heap_float = (Ok tt, h') /\
    fields h' 2 "w" = Some (500 / (4.1 + 1))%float /\
    fields h' 3 "w" = Some (500 * 4.1 / (4.1 + 1))%float /\
    PrimFloat.eqb (PrimFloat.add (500 / (4.1 + 1)) (500 * 4.1 / (4.1 + 1)))
                  500%float = false /\
    PrimFloat.add (500 / (4.1 + 1)) (500 * 4.1 / (4.1 + 1))
      = 500.00000000000006%float.
Proof.
  split; [reflexivity |]. split; [reflexivity |].
  eexists. split; [vm_compute; reflexivity |].
  repeat split; vm_compute; reflexivity.
Qed.

(** In doubles a bypass ratio can also be large enough for [w * BPR] to
    overflow: at [w = BPR = 1e200] the core exit gets 1 and the bypass
    exit infinity. *)
Definition splitter_heap_huge : heap (T := float) :=
  mk_heap (fun o => match o with
                    | 0 => fun _ => None
                    | 1 => station_fields 30000%float 300%float 1e200%float
                    | _ => new_Station
                    end)
          (fun o => match o with
                    | 0 => [("BPR"%string, 1e200%float)]
                    | _ => []
                    end).

Lemma Splitter_overflow_in_doubles :
  PrimFloat.leb 0%float 1e200%float = true /\
  exists h',
    Splitter_calculate splitter_wires 0 splitter_heap_huge = (Ok tt, h') /\
    fields h' 2 "w" = Some 1%float /\
    fields h' 3 "w" = Some infinity.
Proof.
  split; [reflexivity |].
  eexists. split; [vm_compute; reflexivity |].
  split; vm_compute; reflexivity.
Qed.

(** C7 (amended).  For a Splitter whose inlet carries [p], [t] and [w],
    with two distinct exit stations and a [BPR] with [BPR + 1] not zero,
    in whatever arithmetic its numbers live, [calculate] returns
    normally, sets the core exit flow to [w / (BPR + 1)] and the bypass
    exit flow to [w * BPR / (BPR + 1)], and gives both exits the inlet
    pressure and temperature.  In exact arithmetic every [BPR >= 0]
    qualifies and the two exit flows add up to the inlet flow. *)
Theorem C7_splitter_divides_flow :
  (forall (T : Type) (number : Number T) (wires : wiring) (self i e0 e1 : obj)
          (h : heap) (p0 t0 w0 bpr : T),
     inlet wires self = Some i ->
     exit0 wires self = Some e0 ->
     exit1 wires self = Some e1 ->
     e0 <> e1 ->
     fields h i "p" = Some p0 ->
     fields h i "t" = Some t0 ->
     fields h i "w" = Some w0 ->
     lookup "BPR" (attributes h (attributes_of wires self)) = Some bpr ->
     is_zero (add bpr one) = false ->
     exists h',
       Splitter_calculate wires self h = (Ok tt, h') /\
       fields h' e0 "w" = Some (quot w0 (add bpr one)) /\
       fields h' e1 "w" = Some (quot (mul w0 bpr) (add bpr one)) /\
       fields h' e0 "p" = Some p0 /\ fields h' e0 "t" = Some t0 /\
       fields h' e1 "p" = Some p0 /\ fields h' e1 "t" = Some t0) /\
  (forall (wires : wiring) (self i e0 e1 : obj) (h : heap (T := Q))
          (p0 t0 w0 bpr : Q),
     inlet wires self = Some i ->
     exit0 wires self = Some e0 ->
     exit1 wires self = Some e1 ->
     e0 <> e1 ->
     fields h i "p" = Some p0 ->
     fields h i "t" = Some t0 ->
     fields h i "w" = Some w0 ->
     lookup "BPR" (attributes h (attributes_of wires self)) = Some bpr ->
     (0 <= bpr)%Q ->
     exists h' core bypass,
       Splitter_calculate wires self h = (Ok tt, h') /\
       fields h' e0 "w" = Some core /\
       fields h' e1 "w" = Some bypass /\
       Qeq (Qplus core bypass) w0).
Proof.
  split.
  - intros T number wires self i e0 e1 h p0 t0 w0 bpr
           Hi H0 H1 Hne Hp Ht Hw Hb Hz.
    destruct (Splitter_calculate_exits wires self h Hi H0 H1 Hp Ht Hw Hb Hz)
      as (h' & E & _ & (A1 & B1 & C1) & S0 & _).
    destruct (S0 Hne) as (A0 & B0 & C0).
    exists h'. repeat split; assumption.
  - intros wires self i e0 e1 h p0 t0 w0 bpr Hi H0 H1 Hne Hp Ht Hw Hb Hpos.
    assert (Hnz : ~ (bpr + 1 == 0)%Q).
    { intro Hq. assert (Hlt : (0 < bpr + 1)%Q).
      { apply Qlt_le_trans with (y := (0 + 1)%Q); [reflexivity |].
        apply Qplus_le_l. exact Hpos. }
      rewrite Hq in Hlt. discriminate. }
    assert (Hz : is_zero (add bpr one) = false).
    { simpl. destruct (Qeq_bool (bpr + 1) 0) eqn:Hq; [| reflexivity].
      apply Qeq_bool_iff in Hq. contradiction. }
    destruct (Splitter_calculate_exits wires self h Hi H0 H1 Hp Ht Hw Hb Hz)
      as (h' & E & _ & (A1 & B1 & C1) & S0 & _).
    destruct (S0 Hne) as (A0 & B0 & C0).
    exists h'. eexists. eexists.
    split; [exact E |]. split; [exact C0 |]. split; [exact C1 |].
    simpl. field. exact Hnz.
Qed.

Lemma C7_splitter_divides_flow_witness :
  (exists h',
     Splitter_calculate splitter_wires 0 splitter_heap_float = (Ok tt, h') /\
     fields h' 2 "w" = Some (500 / (4.1 + 1))%float /\
     fields h' 3 "w" = Some (500 * 4.1 / (4.1 + 1))%float /\
     fields h' 2 "p" = Some 30000%float /\ fields h' 2 "t" = Some 300%float /\
     fields h' 3 "p" = Some 30000%float /\ fields h' 3 "t" = Some 300%float) /\
  (exists h' core bypass,
     Splitter_calculate splitter_wires 0 splitter_heap_Fraction = (Ok tt, h') /\
     fields h' 2 "w" = Some core /\
     fields h' 3 "w" = Some bypass /\
     Qeq (Qplus core bypass) 500%Q).
Proof.
  split.
  - apply (proj1 C7_splitter_divides_flow float float_Number
             splitter_wires 0 1 2 3 splitter_heap_float
             30000%float 300%float 500%float 4.1%float);
      try reflexivity.
    discriminate.
  - apply (proj2 C7_splitter_divides_flow
             splitter_wires 0 1 2 3 splitter_heap_Fraction
             30000%Q 300%Q 500%Q (41 # 10)%Q);
      try reflexivity.
    + discriminate.
    + discriminate.
Defined.

(** A combustor carrying both parameters: object 0 is the combustor,
    station 1 its inlet, station 2 its exit. *)
Definition combustor_wires : wiring :=
  mk_wiring (fun o => match o with 0 => Combustor_ | _ => Station_ end)
            (fun o => o)
            (fun o => match o with 0 => Some 1 | _ => None end)
            (fun o => match o with 0 => Some 2 | _ => None end)
            (fun _ => None)
            (fun _ => None)
            (fun _ => None)
            (fun _ => None).

Definition combustor_heap_float : heap (T := float) :=
  mk_heap (fun o => match o with
                    | 0 => fun _ => None
                    | 1 => station_fields 45000%float 855%float 1%float
                    | _ => new_Station
                    end)
          (fun o => match o with
                    | 0 => [("TEX"%string, 1600%float);
                            ("FHV"%string, 45000000%float);
                            ("deltaT"%string, 300%float)]
                    | _ => []
                    end).

Definition combustor_heap_Fraction : heap (T := Q) :=
  mk_heap (fun o => match o with
                    | 0 => fun _ => None
                    | 1 => station_fields 45000%Q (8551 # 10)%Q 1%Q
                    | _ => new_Station
                    end)
          (fun o => match o with
                    | 0 => [("TEX"%string, 1600%Q);
                            ("deltaT"%string, (3001 # 10)%Q)]
                    | _ => []
                    end).

(** The same combustor at an inlet temperature of 855.3 and a [deltaT]
    of 0.1. *)
Definition combustor_heap_tenth : heap (T := float) :=
  mk_heap (fun o => match o with
                    | 0 => fun _ => None
                    | 1 => station_fields 45000%float 855.3%float 1%float
                    | _ => new_Station
                    end)
          (fun o => match o with
                    | 0 => [("TEX"%string, 1600%float);
                            ("deltaT"%string, 0.1%float)]
                    | _ => []
                    end).




(** *** A combustor without its parameters

    Station 1, the combustor 0 and station 2 of [combustor_wires] as a
    network; the combustor was built with a fuel heating value only. *)

Definition combustor_dependents (o : obj) : list obj :=
  match o with 1 => [0] | 0 => [2] | _ => [] end.

Definition combustor_precedents (o : obj) : list obj :=
  match o with 0 => [1] | 2 => [0] | _ => [] end.

Definition bare_combustor_heap : heap (T := float) :=
  mk_heap (fun o => match o with
                    | 0 => fun _ => None
                    | 1 => station_fields 45000%float 855%float 1%float
                    | _ => new_Station
                    end)
          (fun o => match o with
                    | 0 => [("FHV"%string, 45000000%float)]
                    | _ => []
                    end).

(** The inlet station is clean, the combustor and its exit are dirty. *)
Definition inlet_clean : Calculable.state heap :=
  Calculable.mk_state (fun o => negb (Nat.eqb o 1)) bare_combustor_heap [].

(** Stand-ins for the parts of [compressible] and for the power
    operator, none of which a combustor between two stations reaches. *)
Definition no_function : float -> result float :=
  fun _ => Err (AttributeError "compressible").

Definition combustor_calculate : obj -> heap -> outcome heap :=
  calculate 1.4%float 287.05%float 1004%float no_function no_function
            (Err (AttributeError "compressible")) (fun _ => no_function)
            combustor_wires combustor_precedents.

Lemma C10_update_clears_flag_before_calculate_witness :
  exists s',
    Calculable.update combustor_dependents combustor_precedents
                      combustor_calculate 5 0 inlet_clean
      = Some (Raised (KeyError "TEX") s') /\
    Calculable.dirty s' 0 = false /\
    (forall m, m <> 0 -> Calculable.dirty s' m = Calculable.dirty inlet_clean m) /\
    Calculable.data s' = bare_combustor_heap /\
    Calculable.calls s' = Calculable.calls inlet_clean ++ [0].
Proof.
  apply (Calculable.C10_update_clears_flag_before_calculate
           combustor_dependents combustor_precedents combustor_calculate
           4 0 inlet_clean).
  - reflexivity.
  - intros q [<- | []]. reflexivity.
  - reflexivity.
Defined.

(** *** The TurboJet of engines.py, calculated twice

    The objects are numbered as in the network above.  The dict objects:
    0 is the engine's own [attributes], 1 the environment's, 2, 3 and 4
    those of INTAKE, HPC and COMBUSTOR, and 5 the default dict that HPT,
    NOZ and HPSHAFT share (stations, which have no parameters, are given
    it too and never consult it). *)

Definition turbojet_wires : wiring :=
  mk_wiring (fun o => match o with
                      | 0 => Environment_ | 1 => Intake_ | 3 => Compressor_
                      | 5 => Combustor_ | 7 => Turbine_ | 9 => Nozzle_
                      | 10 => Shaft_ | _ => Station_
                      end)
            (fun o => match o with
                      | 0 => 1 | 1 => 2 | 3 => 3 | 5 => 4 | _ => 5
                      end)
            (fun o => match o with
                      | 3 => Some 2 | 5 => Some 4 | 7 => Some 6 | 9 => Some 8
                      | _ => None
                      end)
            (fun o => match o with
                      | 1 => Some 2 | 3 => Some 4 | 5 => Some 6 | 7 => Some 8
                      | _ => None
                      end)
            (fun _ => None)
            (fun _ => None)
            (fun o => match o with 1 => Some 0 | 9 => Some 0 | _ => None end)
            (fun o => match o with 7 => Some 10 | _ => None end).

(** [TurboJet.__init__]: the stations at zero, the environment at
    [(30000.0, 300.0, 1.0)] with [v0 = 0.0], the parameters as given. *)
Definition turbojet_heap : heap (T := float) :=
  mk_heap (fun o => match o with
                    | 0 => station_fields 30000%float 300%float 1%float
                    | 2 | 4 | 6 | 8 => new_Station
                    | _ => fun _ => None
                    end)
          (fun a => match a with
                    | 1 => [("v0"%string, 0%float)]
                    | 2 => [("W"%string, 1%float)]
                    | 3 => [("PR"%string, 40%float)]
                    | 4 => [("TEX"%string, 1600%float);
                            ("FHV"%string, 45000000%float)]
                    | _ => []
                    end).

Definition turbojet_components : dict (@entry float) :=
  [("ENGINE"%string, @Dict float 0); ("INTAKE"%string, @Comp float 1);
   ("HPC"%string, @Comp float 3); ("COMBUSTOR"%string, @Comp float 5);
   ("HPT"%string, @Comp float 7); ("NOZ"%string, @Comp float 9);
   ("HPSHAFT"%string, @Comp float 10)].

Definition turbojet_input_aliases : dict (list string) :=
  [("HPCPR"%string, ["HPC"%string; "PR"%string]);
   ("RIT"%string, ["COMBUSTOR"%string; "TEX"%string]);
   ("FLOW"%string, ["INTAKE"%string; "W"%string])].

Definition turbojet_output_aliases : dict (list string) :=
  [("SFC"%string, ["ENGINE"%string; "SFC"%string]);
   ("THRUST"%string, ["ENGINE"%string; "THRUST"%string])].

Definition turbojet_world : @world float :=
  mk_world (Calculable.init turbojet_heap) turbojet_components None.

(** Stand-ins for the functions of the module [compressible] and for the
    power operator: ratios of one, as at rest, and a square root for
    every power.  The theorem holds whatever they are. *)
Definition at_rest : float -> result float := fun _ => Ok 1%float.

Definition root_for_power : float -> float -> result float :=
  fun x _ => Ok (PrimFloat.sqrt x).

Definition turbojet_calculate (input_aliases : dict (list string))
  : dict float -> @world float -> option (result (dict (@item float)) * @world float) :=
  EngineAssembly_calculate 1.4%float 287.05%float 1004%float
    at_rest at_rest (Ok 1%float) root_for_power
    turbojet_wires Calculable.turbojet_precedents Calculable.turbojet_dependents
    0 0 [9] input_aliases turbojet_output_aliases 20.

Definition turbojet_inputs : dict float :=
  [("HPCPR"%string, 16%float); ("RIT"%string, 1500%float);
   ("FLOW"%string, 50%float)].

Definition turbojet_once
  : option (result (dict (@item float)) * @world float) :=
  Eval vm_compute in turbojet_calculate turbojet_input_aliases turbojet_inputs
                                        turbojet_world.

Definition turbojet_outputs : dict (@item float) :=
  match turbojet_once with
  | Some (Ok outputs, _) => outputs
  | _ => []
  end.

Definition turbojet_after : @world float :=
  match turbojet_once with
  | Some (_, w) => w
  | None => turbojet_world
  end.

Lemma turbojet_no_single :
  forall alias path, lookup alias turbojet_input_aliases = Some path ->
                     List.length path <> 1.
Proof.
  intros alias path H. unfold turbojet_input_aliases in H. simpl in H.
  repeat match type of H with
         | (if ?b then _ else _) = _ => destruct b
         end; try discriminate; inversion H; simpl; lia.
Qed.

Lemma turbojet_closed :
  forall m, Calculable.reach Calculable.turbojet_dependents 0 m ->
            In m (seq 0 11).
Proof.
  intros m H. apply in_seq.
  pose proof (Calculable.turbojet_nothing_else H). lia.
Qed.

Lemma turbojet_has_airspeed : has_airspeed turbojet_wires turbojet_heap.
Proof.
  intros n Hn.
  do 11 (destruct n as [| n]; [try discriminate; reflexivity |]).
  discriminate.
Qed.


(** [self.add_input_alias('OFFTAKE', ('OFFTAKE',))] on top of the
    TurboJet's own aliases. *)
Definition offtake_aliases : dict (list string) :=
  ("OFFTAKE"%string, ["OFFTAKE"%string]) :: turbojet_input_aliases.

(** Why an alias path has to name a component and a parameter: on a
    TurboJet that declares one more input alias, ['OFFTAKE'], with the
    one-element path [('OFFTAKE',)], the first
    [calculate({'OFFTAKE': 1.0})] registers the number as a component of
    the engine and returns the outputs; the second trips over the
    assertion of [Engine.__setitem__] that idents are unique. *)
Lemma one_element_alias_registers :
  exists outputs w1 w2,
    turbojet_calculate offtake_aliases [("OFFTAKE"%string, 1%float)]
                       turbojet_world
    = Some (Ok outputs, w1) /\
    turbojet_calculate offtake_aliases [("OFFTAKE"%string, 1%float)] w1
    = Some (Err AssertionError, w2).
Proof.
  eexists. eexists. eexists.
  split; [vm_compute; reflexivity | vm_compute; reflexivity].
Qed.

End Performance.

(** ** solver.py: class Solver *)

Module Solver.

Section Solve.

Context {T : Type} {number : Number T}.

Local Open Scope method_scope.

(** The wrapped engine, as [Solver] uses it: the keys of its
    [input_aliases] attribute when it has one, [set_input_alias] and
    [calculate].  [EngineAssembly] provides all three. *)
Class Evaluable (E : Type) : Type := {
  input_aliases : E -> option (list string);
  set_input_alias : string -> T -> M E unit;
  calculate : dict T -> M E (dict T)
}.

Context {E : Type} {evaluable : Evaluable E}.

(** [numpy.linalg.tensorsolve(a=J, b=e)] for a matrix given by rows. *)
Variable tensorsolve : list (list T) -> list T -> result (list T).

(** A [Solver] instance.  [evaluations] is a ghost field: how often
    [engine.calculate] has been called. *)
Record solver : Type := mk_solver {
  engine : E;
  input_settings : dict (dict T);
  targets : option (dict T);
  evaluations : nat
}.

Definition on_engine {A : Type} (m : M E A) : M solver A :=
  fun s => match m (engine s) with
           | (r, e') =>
               (r, mk_solver e' (input_settings s) (targets s) (evaluations s))
           end.

(** [self.engine.calculate(values)] *)
Definition engine_calculate (values : dict T) : M solver (dict T) :=
  fun s =>
    on_engine (calculate values)
      (mk_solver (engine s) (input_settings s) (targets s) (S (evaluations s))).

(** [self.engine.input_aliases] *)
Definition engine_input_aliases : M solver (list string) :=
  fun s => attr "input_aliases" (input_aliases (engine s)) s.

(** [self.targets = solver_targets] *)
Definition set_targets (solver_targets : dict T) : M solver unit :=
  modify (fun s => mk_solver (engine s) (input_settings s)
                             (Some solver_targets) (evaluations s)).

Definition get_targets : M solver (dict T) :=
  fun s => attr "targets" (targets s) s.

(** [self.input_settings[name][field]] *)
Definition setting (name field : string) : M solver T :=
  fun s => bind (subscript (input_settings s) name)
                (fun row => subscript row field) s.

(** [def isconverged(self, errors)] *)
Definition isconverged (errors : dict T) : M solver bool :=
  conv_results <- comprehension (keys errors)
                    (fun e => err <- subscript errors e ;;
                              ret (less (absolute err) conv_crit)) ;;
  ret (forallb (fun b => b) conv_results).

(** [def generate_jacobian(self, current_values)] *)
Definition generate_jacobian (current_values : dict T) : M solver (dict (dict T)) :=
  defaults <- engine_calculate current_values ;;
  rows <- comprehension (keys current_values)
    (fun input_name =>
       perturbation <- setting input_name "perturbation" ;;
       current <- subscript current_values input_name ;;
       let new_values := store input_name (add current perturbation) current_values in
       calcd_outputs <- engine_calculate new_values ;;
       target_names <- get_targets ;;
       gradient_row <- comprehension (keys target_names)
         (fun output_name =>
            value <- subscript calcd_outputs output_name ;;
            default <- subscript defaults output_name ;;
            gradient <- divide (sub value default) perturbation ;;
            ret (output_name, gradient)) ;;
       ret (input_name, dict_of gradient_row)) ;;
  ret (dict_of rows).

(** [def next_iteration(self, current_values, errors)] *)
Definition next_iteration (current_values errors : dict T) : M solver (dict T) :=
  gradients <- generate_jacobian current_values ;;
  let xs := keys gradients in
  x0 <- index xs 0 ;;
  row0 <- subscript gradients x0 ;;
  let zs := keys row0 in
  jacobian_matrix <- comprehension zs
    (fun z => comprehension xs
       (fun x => row <- subscript gradients x ;; subscript row z)) ;;
  e <- comprehension zs (fun z => subscript errors z) ;;
  result <- (fun s => (tensorsolve jacobian_matrix e, s)) ;;
  corrections <- comprehension (combine (seq 0 (List.length xs)) xs)
    (fun ix => r <- index result (fst ix) ;; ret (snd ix, r)) ;;
  ret (dict_of corrections).

Definition iter_limit : nat := 100.

(** One pass through the body of [while True], after the limit test:
    [inl values] when [isconverged] breaks out of the loop, [inr values']
    when the loop goes round with the corrected values. *)
Definition round (all_targets values : dict T) : M solver (dict T + dict T) :=
  results <- engine_calculate values ;;
  errors <- comprehension (keys all_targets)
    (fun z => tz <- subscript all_targets z ;;
              rz <- subscript results z ;;
              ret (z, sub tz rz)) ;;
  converged <- isconverged (dict_of errors) ;;
  if (converged : bool) then ret (inl values)
  else
    corrections <- next_iteration values (dict_of errors) ;;
    values' <- comprehension (keys values)
      (fun x => vx <- subscript values x ;;
                cx <- subscript corrections x ;;
                ret (x, add vx cx)) ;;
    ret (inr (dict_of values')).

(** The [while True] loop of [solve].  [fuel] bounds the number of
    passes; [None] would be a loop that outlives it. *)
Fixpoint iterate (fuel : nat) (all_targets : dict T) (iteration : nat)
    (values : dict T) (s : solver) : option (result (dict T) * solver) :=
  match fuel with
  | O => None
  | S fuel' =>
      if Nat.ltb iter_limit iteration
      then Some (Err (Exception "Exceeded iteration limit"), s)
      else
        match round all_targets values s with
        | (Ok (inl values), s') => Some (Ok values, s')
        | (Ok (inr values'), s') =>
            iterate fuel' all_targets (S iteration) values' s'
        | (Err e, s') => Some (Err e, s')
        end
  end.

(** The statements of [solve] before the loop: partition the targets,
    check the counts, read the start values. *)
Definition partition (all_targets : dict T) : M solver (dict T) :=
  accumulate all_targets []
    (fun tv solver_targets =>
       aliases <- engine_input_aliases ;;
       if existsb (String.eqb (fst tv)) aliases
       then on_engine (set_input_alias (fst tv) (snd tv)) ;;;
            ret solver_targets
       else ret (store (fst tv) (snd tv) solver_targets)).

Definition prepare (all_targets : dict T) : M solver (dict T) :=
  solver_targets <- partition all_targets ;;
  set_targets solver_targets ;;;
  isets <- (fun s => (Ok (input_settings s), s)) ;;
  (if Nat.eqb (List.length solver_targets) (List.length isets)
   then ret tt else raise AssertionError) ;;;
  values <- comprehension (keys isets)
    (fun x => sval <- setting x "sval" ;; ret (x, sval)) ;;
  ret (dict_of values).

(** [def solve(self, targets)] *)
Definition solve (fuel : nat) (all_targets : dict T) (s : solver)
  : option (result (dict T) * solver) :=
  match prepare all_targets s with
  | (Ok values, s') => iterate fuel all_targets 0 values s'
  | (Err e, s') => Some (Err e, s')
  end.

(** *** One pass through the loop, statement by statement *)

(** [errors = dict([(z, (targets[z] - results[z])) for z in targets])] *)
Definition target_errors (all_targets results : dict T) : M solver (dict T) :=
  errors <- comprehension (keys all_targets)
    (fun z => tz <- subscript all_targets z ;;
              rz <- subscript results z ;;
              ret (z, sub tz rz)) ;;
  ret (dict_of errors).

(** [values = dict([(x, values[x] + corrections[x]) for x in values])] *)
Definition corrected (values corrections : dict T) : M solver (dict T) :=
  values' <- comprehension (keys values)
    (fun x => vx <- subscript values x ;;
              cx <- subscript corrections x ;;
              ret (x, add vx cx)) ;;
  ret (dict_of values').

(** Convergence: the results carry every target, and every target error
    [targets[z] - results[z]] is below [1e-6] in absolute value. *)
Definition within_tolerance (all_targets results : dict T) : Prop :=
  forall z tz,
    lookup z all_targets = Some tz ->
    exists rz, lookup z results = Some rz /\
               less (absolute (sub tz rz)) conv_crit = true.

(** The engine, run on [values], returns results within the tolerance. *)
Definition finds_convergence (all_targets values : dict T) (s s' : solver)
  : Prop :=
  exists results,
    engine_calculate values s = (Ok results, s') /\
    within_tolerance all_targets results.

(** A Newton iteration: the engine's results are not within the
    tolerance, [next_iteration] returns its corrections and they are
    added to the values. *)
Definition newton_step (all_targets values : dict T) (s : solver)
    (values' : dict T) (s' : solver) : Prop :=
  exists results s1 errors corrections s2,
    engine_calculate values s = (Ok results, s1) /\
    target_errors all_targets results s1 = (Ok errors, s1) /\
    ~ within_tolerance all_targets results /\
    next_iteration values errors s1 = (Ok corrections, s2) /\
    corrected values corrections s2 = (Ok values', s').

(** [newton_steps tg k v s v' s']: [k] Newton iterations in a row lead
    from the values [v] to the values [v']. *)
Inductive newton_steps (all_targets : dict T)
  : nat -> dict T -> solver -> dict T -> solver -> Prop :=
| newton_steps_O : forall v s, newton_steps all_targets 0 v s v s
| newton_steps_S : forall k v s v1 s1 v2 s2,
    newton_step all_targets v s v1 s1 ->
    newton_steps all_targets k v1 s1 v2 s2 ->
    newton_steps all_targets (S k) v s v2 s2.

(** A pass that raises: in the engine, in the errors (a target the
    results do not carry), in [next_iteration] on results that are not
    within the tolerance, or in adding the corrections. *)
Inductive pass_raises (all_targets values : dict T) (s : solver)
  : exn -> solver -> Prop :=
| engine_raises : forall e s',
    engine_calculate values s = (Err e, s') ->
    pass_raises all_targets values s e s'
| errors_raise : forall results e s',
    engine_calculate values s = (Ok results, s') ->
    target_errors all_targets results s' = (Err e, s') ->
    pass_raises all_targets values s e s'
| next_iteration_raises : forall results s1 errors e s',
    engine_calculate values s = (Ok results, s1) ->
    target_errors all_targets results s1 = (Ok errors, s1) ->
    ~ within_tolerance all_targets results ->
    next_iteration values errors s1 = (Err e, s') ->
    pass_raises all_targets values s e s'
| corrections_raise : forall results s1 errors corrections e s',
    engine_calculate values s = (Ok results, s1) ->
    target_errors all_targets results s1 = (Ok errors, s1) ->
    ~ within_tolerance all_targets results ->
    next_iteration values errors s1 = (Ok corrections, s') ->
    corrected values corrections s' = (Err e, s') ->
    pass_raises all_targets values s e s'.

(** *** What [isconverged] tests *)

Lemma lookup_keys :
  forall (V : Type) (k : string) (d : dict V) v,
    lookup k d = Some v -> In k (keys d).
Proof.
  intros V k d. induction d as [| [k' v'] d IH]; intros v H; simpl in *.
  - discriminate.
  - destruct (String.eqb_spec k k') as [-> | _]; [now left | right; eauto].
Qed.

Lemma isconverged_tests :
  forall (errors : dict T) (xs : list string) (s s' : solver) (bs : list bool),
    comprehension xs
      (fun e => bind (subscript errors e)
                     (fun err => ret (less (absolute err) conv_crit))) s
      = (Ok bs, s') ->
    s' = s /\
    (forallb (fun b => b) bs = true <->
     forall z, In z xs ->
       exists err, lookup z errors = Some err /\
                   less (absolute err) conv_crit = true).
Proof.
  intros errors xs. induction xs as [| x xs IH]; intros s s' bs H.
  - simpl in H. inversion H; subst. split; [reflexivity |].
    simpl. split; [intros _ z [] | reflexivity].
  - simpl in H. unfold bind at 1 2, subscript in H.
    destruct (lookup x errors) as [err |] eqn:Ex; [| discriminate].
    simpl in H. unfold bind in H.
    destruct (comprehension xs _ s) as [[bs' | e] s1] eqn:Ec; [| discriminate].
    inversion H; subst. destruct (IH _ _ _ Ec) as [-> IHb].
    split; [reflexivity |]. simpl. rewrite andb_true_iff, IHb. split.
    + intros [Hx Hall] z [<- | Hz]; [eauto | auto].
    + intro Hall. split.
      * destruct (Hall x (or_introl eq_refl)) as [err' [E1 E2]]. congruence.
      * intros z Hz. apply Hall. now right.
Qed.

(** [isconverged] changes nothing and answers whether every error is
    below the tolerance in absolute value. *)
Lemma isconverged_all_below :
  forall (errors : dict T) (s s' : solver) (b : bool),
    isconverged errors s = (Ok b, s') ->
    s' = s /\
    (b = true <->
     forall z err, lookup z errors = Some err ->
                   less (absolute err) conv_crit = true).
Proof.
  intros errors s s' b H. unfold isconverged, bind at 1 in H.
  destruct (comprehension (keys errors) _ s) as [[bs | e] s1] eqn:Ec;
    [| discriminate].
  unfold ret in H. inversion H; subst.
  destruct (isconverged_tests _ _ _ Ec) as [-> Hb].
  split; [reflexivity |]. rewrite Hb. split.
  - intros Hall z err Hz. destruct (Hall z (lookup_keys _ _ Hz)) as [err' [E1 E2]].
    congruence.
  - intros Hall z Hz.
    destruct (lookup z errors) as [err |] eqn:Ez.
    + exists err. split; [reflexivity | eauto].
    + exfalso. clear - Hz Ez. unfold keys in Hz.
      induction errors as [| [k v] d IH]; simpl in *; [contradiction |].
      destruct (String.eqb_spec z k) as [-> | Hne]; [discriminate |].
      destruct Hz as [-> | Hz]; [contradiction | auto].
Qed.

(** *** What a pass through the loop does *)

Lemma lookup_stored :
  forall (V : Type) (k k' : string) (v : V) (d : dict V),
    lookup k' (store k v d) = if String.eqb k' k then Some v else lookup k' d.
Proof.
  intros V k k' v d. induction d as [| [k0 v0] d IH]; simpl.
  - destruct (String.eqb_spec k' k); reflexivity.
  - destruct (String.eqb_spec k k0) as [-> | Hne]; simpl.
    + destruct (String.eqb_spec k' k0); reflexivity.
    + rewrite IH. destruct (String.eqb_spec k' k0) as [-> | Hne'];
        [| reflexivity].
      destruct (String.eqb_spec k0 k); [congruence | reflexivity].
Qed.

Lemma keys_lookup :
  forall (V : Type) (k : string) (d : dict V),
    In k (keys d) -> exists v, lookup k d = Some v.
Proof.
  intros V k d. induction d as [| [k' v'] d IH]; simpl; intro H.
  - contradiction.
  - destruct (String.eqb_spec k k') as [-> | Hne]; [eauto |].
    destruct H as [H | H]; [congruence | auto].
Qed.

(** What [dict(pairs)] holds comes from the pairs, and every first
    component of a pair is a key of it. *)
Lemma dict_of_from_pairs :
  forall (V : Type) (pairs : list (string * V)) (d : dict V) z v,
    lookup z (fold_left (fun d kv => store (fst kv) (snd kv) d) pairs d)
      = Some v ->
    In (z, v) pairs \/ lookup z d = Some v.
Proof.
  intros V pairs. induction pairs as [| [k w] l IH]; intros d z v H;
    simpl in *.
  - now right.
  - destruct (IH _ _ _ H) as [Hin | Hd]; [left; now right |].
    rewrite lookup_stored in Hd.
    destruct (String.eqb_spec z k) as [-> | Hne].
    + inversion Hd; subst. left. now left.
    + now right.
Qed.

Lemma dict_of_has_keys :
  forall (V : Type) (pairs : list (string * V)) (d : dict V) z,
    In z (map fst pairs) \/ (exists v, lookup z d = Some v) ->
    exists v,
      lookup z (fold_left (fun d kv => store (fst kv) (snd kv) d) pairs d)
        = Some v.
Proof.
  intros V pairs. induction pairs as [| [k w] l IH]; intros d z H;
    simpl in *.
  - destruct H as [[] | H]; exact H.
  - apply IH. destruct H as [[<- | Hin] | [v Hv]].
    + right. rewrite lookup_stored, String.eqb_refl. eauto.
    + now left.
    + right. rewrite lookup_stored. destruct (String.eqb z k); eauto.
Qed.

(** A body that neither reads nor changes the solver. *)
Definition stateless {A : Type} (m : M solver A) : Prop :=
  forall s r s', m s = (r, s') -> s' = s /\ forall s2, m s2 = (r, s2).

Lemma stateless_ret : forall (A : Type) (a : A), stateless (ret a).
Proof. intros A a s r s' H. inversion H. split; reflexivity. Qed.

Lemma stateless_subscript :
  forall (V : Type) (d : dict V) k, stateless (subscript d k).
Proof.
  intros V d k s r s' H. unfold subscript in *.
  destruct (lookup k d); inversion H; split; reflexivity.
Qed.

Lemma stateless_bind :
  forall (A B : Type) (m : M solver A) (k : A -> M solver B),
    stateless m -> (forall a, stateless (k a)) -> stateless (bind m k).
Proof.
  intros A B m k Hm Hk s r s' H. unfold bind in H.
  destruct (m s) as [[a | e] s1] eqn:Em; destruct (Hm _ _ _ Em) as [-> Hm2].
  - destruct (Hk a _ _ _ H) as [-> Hk2]. split; [reflexivity |].
    intro s2. unfold bind. rewrite Hm2. apply Hk2.
  - inversion H; subst. split; [reflexivity |].
    intro s2. unfold bind. now rewrite Hm2.
Qed.

Lemma stateless_comprehension :
  forall (A B : Type) (f : A -> M solver B) xs,
    (forall x, stateless (f x)) -> stateless (comprehension xs f).
Proof.
  intros A B f xs Hf. induction xs as [| x xs IH]; simpl.
  - apply stateless_ret.
  - apply stateless_bind; [apply Hf |]. intro y.
    apply stateless_bind; [exact IH |]. intro ys. apply stateless_ret.
Qed.

Ltac is_stateless :=
  repeat first
    [ apply stateless_ret | apply stateless_subscript
    | apply stateless_bind; [| intro]
    | apply stateless_comprehension; intro ].

Lemma stateless_target_errors :
  forall tg results, stateless (target_errors tg results).
Proof. intros tg results. unfold target_errors. is_stateless. Qed.

Lemma stateless_corrected :
  forall values corrections, stateless (corrected values corrections).
Proof. intros values corrections. unfold corrected. is_stateless. Qed.

Lemma stateless_isconverged : forall errors, stateless (isconverged errors).
Proof. intro errors. unfold isconverged. is_stateless. Qed.

Lemma comprehension_returns :
  forall (A B : Type) (f : A -> M solver B) xs s,
    (forall x, In x xs -> exists b, f x s = (Ok b, s)) ->
    exists bs, comprehension xs f s = (Ok bs, s).
Proof.
  intros A B f xs s. induction xs as [| x xs IH]; intro Hf; simpl.
  - eexists. reflexivity.
  - destruct (Hf x (or_introl eq_refl)) as [b Hb].
    destruct IH as [bs Hbs]; [intros x' Hx'; apply Hf; now right |].
    exists (b :: bs). unfold bind. now rewrite Hb, Hbs.
Qed.

(** [isconverged] always answers. *)
Lemma isconverged_returns :
  forall (errors : dict T) (s : solver),
    exists b, isconverged errors s = (Ok b, s).
Proof.
  intros errors s. unfold isconverged.
  destruct (@comprehension_returns _ _
              (fun e => bind (subscript errors e)
                             (fun err => ret (less (absolute err) conv_crit)))
              (keys errors) s) as [bs Hbs].
  - intros x Hx. destruct (keys_lookup _ _ Hx) as [err Herr].
    eexists. unfold bind, subscript. rewrite Herr. reflexivity.
  - eexists. unfold bind at 1. rewrite Hbs. reflexivity.
Qed.

(** The pairs of the error comprehension. *)
Lemma error_pairs :
  forall (tg results : dict T) xs (s : solver) errs s',
    comprehension xs
      (fun z => bind (subscript tg z)
                  (fun tz => bind (subscript results z)
                               (fun rz => ret (z, sub tz rz)))) s
      = (Ok errs, s') ->
    map fst errs = xs /\
    forall z err, In (z, err) errs ->
      exists tz rz, lookup z tg = Some tz /\ lookup z results = Some rz /\
                    err = sub tz rz.
Proof.
  intros tg results xs. induction xs as [| x xs IH]; intros s errs s' H;
    simpl in H.
  - inversion H; subst. split; [reflexivity | intros z err []].
  - unfold bind at 1 2 3, subscript in H.
    destruct (lookup x tg) as [tx |] eqn:Et; [| discriminate].
    simpl in H.
    destruct (lookup x results) as [rx |] eqn:Er; [| discriminate].
    simpl in H. unfold bind in H.
    destruct (comprehension xs _ s) as [[errs' | e] s1] eqn:Ec;
      [| discriminate].
    inversion H; subst. destruct (IH _ _ _ Ec) as [Hk Hp].
    split; [simpl; now rewrite Hk |].
    intros z err [Heq | Hin]; [| now apply Hp].
    inversion Heq; subst. eauto.
Qed.

(** The error dict holds [targets[z] - results[z]] for every target [z],
    and nothing else. *)
Lemma target_errors_lookup :
  forall (tg results errors : dict T) (s s' : solver),
    target_errors tg results s = (Ok errors, s') ->
    forall z err,
      lookup z errors = Some err <->
      exists tz rz, lookup z tg = Some tz /\ lookup z results = Some rz /\
                    err = sub tz rz.
Proof.
  intros tg results errors s s' H. unfold target_errors in H.
  unfold bind at 1 in H.
  destruct (comprehension (keys tg) _ s) as [[errs | e] s1] eqn:Ec;
    [| discriminate].
  inversion H; subst. clear H.
  destruct (error_pairs _ _ _ _ Ec) as [Hk Hp].
  assert (Hto : forall z err, lookup z (dict_of errs) = Some err ->
            exists tz rz, lookup z tg = Some tz /\ lookup z results = Some rz /\
                          err = sub tz rz).
  { intros z err Hl. unfold dict_of in Hl.
    destruct (dict_of_from_pairs _ _ _ Hl) as [Hin | Hnil];
      [now apply Hp | discriminate]. }
  intros z err. split; [apply Hto |].
  intros (tz & rz & Htz & Hrz & ->).
  destruct (@dict_of_has_keys _ errs [] z) as [v Hv].
  { left. rewrite Hk. eapply lookup_keys; eauto. }
  fold (dict_of errs) in Hv.
  destruct (Hto _ _ Hv) as (tz' & rz' & Htz' & Hrz' & ->).
  congruence.
Qed.

(** Every error is below the tolerance exactly when the results are
    within the tolerance of the targets. *)
Lemma target_errors_below :
  forall (tg results errors : dict T) (s s' : solver),
    target_errors tg results s = (Ok errors, s') ->
    (forall z err, lookup z errors = Some err ->
                   less (absolute err) conv_crit = true) <->
    within_tolerance tg results.
Proof.
  intros tg results errors s s' H.
  pose proof (target_errors_lookup _ _ _ H) as Hl.
  split.
  - intros Hb z tz Htz.
    assert (Hin : In z (keys tg)) by (eapply lookup_keys; eauto).
    unfold target_errors, bind at 1 in H.
    destruct (comprehension (keys tg) _ s) as [[errs | e] s1] eqn:Ec;
      [| discriminate].
    inversion H; subst.
    destruct (error_pairs _ _ _ _ Ec) as [Hk _].
    destruct (@dict_of_has_keys _ errs [] z) as [v Hv];
      [left; now rewrite Hk |].
    fold (dict_of errs) in Hv.
    destruct (proj1 (Hl z v) Hv) as (tz' & rz & Htz' & Hrz & ->).
    exists rz. split; [exact Hrz |].
    replace tz with tz' by congruence. now apply (Hb z).
  - intros Hw z err Hz.
    destruct (proj1 (Hl z err) Hz) as (tz & rz & Htz & Hrz & ->).
    destruct (Hw z tz Htz) as (rz' & Hrz' & Hless).
    replace rz with rz' by congruence. exact Hless.
Qed.

(** Results within the tolerance have their error dict. *)
Lemma target_errors_returns :
  forall (tg results : dict T) (s : solver),
    within_tolerance tg results ->
    exists errors, target_errors tg results s = (Ok errors, s).
Proof.
  intros tg results s Hw. unfold target_errors.
  destruct (@comprehension_returns _ _
              (fun z => bind (subscript tg z)
                          (fun tz => bind (subscript results z)
                                       (fun rz => ret (z, sub tz rz))))
              (keys tg) s) as [errs Hc].
  - intros z Hz. destruct (keys_lookup _ _ Hz) as [tz Htz].
    destruct (Hw z tz Htz) as (rz & Hrz & _).
    eexists. unfold bind, subscript. rewrite Htz. simpl. rewrite Hrz.
    reflexivity.
  - eexists. unfold bind at 1. rewrite Hc. reflexivity.
Qed.

(** The loop body, statement by statement. *)
Lemma round_statements :
  forall (tg v : dict T) (s : solver),
    round tg v s =
    (results <- engine_calculate v ;;
     errors <- target_errors tg results ;;
     converged <- isconverged errors ;;
     if (converged : bool) then ret (inl v)
     else
       corrections <- next_iteration v errors ;;
       values' <- corrected v corrections ;;
       ret (inr values')) s.
Proof.
  intros tg v s. unfold round, target_errors, corrected, bind.
  destruct (engine_calculate v s) as [[results | e] s1]; [| reflexivity].
  destruct (comprehension (keys tg) _ s1) as [[errs | e] s2]; [| reflexivity].
  simpl.
  destruct (isconverged (dict_of errs) s2) as [[[|] | e] s3];
    try reflexivity.
  destruct (next_iteration v (dict_of errs) s3) as [[c | e] s4];
    [| reflexivity].
  destruct (comprehension (keys v) _ s4) as [[vs | e] s5]; reflexivity.
Qed.

(** What [isconverged] answers on the errors of some results. *)
Lemma isconverged_within :
  forall (tg results errors : dict T) (s1 s2 : solver) b s3,
    target_errors tg results s1 = (Ok errors, s2) ->
    isconverged errors s2 = (Ok b, s3) ->
    s2 = s1 /\ s3 = s1 /\ (b = true <-> within_tolerance tg results).
Proof.
  intros tg results errors s1 s2 b s3 He Hc.
  destruct (stateless_target_errors _ _ _ He) as [-> _].
  destruct (isconverged_all_below _ _ Hc) as [-> Hb].
  split; [reflexivity |]. split; [reflexivity |].
  rewrite Hb. eapply target_errors_below; eauto.
Qed.

(** The pass leaves the loop exactly when the engine's results are
    within the tolerance, and then with the values it was entered with. *)
Lemma round_breaks :
  forall (tg v v' : dict T) (s s' : solver),
    round tg v s = (Ok (inl v'), s') <->
    v' = v /\ finds_convergence tg v s s'.
Proof.
  intros tg v v' s s'. rewrite round_statements. split.
  - intro H. unfold bind in H.
    destruct (engine_calculate v s) as [[results | e] s1] eqn:Ee;
      [| discriminate].
    destruct (target_errors tg results s1) as [[errors | e] s2] eqn:Et;
      [| discriminate].
    destruct (isconverged errors s2) as [[b | e] s3] eqn:Ec; [| discriminate].
    destruct (isconverged_within _ _ _ Et Ec) as (-> & -> & Hb).
    destruct b.
    + inversion H; subst. split; [reflexivity |].
      exists results. split; [exact Ee | now apply Hb].
    + destruct (next_iteration v errors s1) as [[c | e] s4]; [| discriminate].
      destruct (corrected v c s4) as [[vs | e] s5]; discriminate.
  - intros [-> (results & Ee & Hw)]. unfold bind. rewrite Ee.
    destruct (target_errors_returns s' Hw) as [errors Et]. rewrite Et.
    destruct (isconverged_returns errors s') as [b Ec]. rewrite Ec.
    destruct (isconverged_within _ _ _ Et Ec) as (_ & _ & Hb).
    apply Hb in Hw. subst b. reflexivity.
Qed.

(** The pass goes round the loop exactly when it is a Newton iteration. *)
Lemma round_goes_round :
  forall (tg v v' : dict T) (s s' : solver),
    round tg v s = (Ok (inr v'), s') <-> newton_step tg v s v' s'.
Proof.
  intros tg v v' s s'. rewrite round_statements. split.
  - intro H. unfold bind in H.
    destruct (engine_calculate v s) as [[results | e] s1] eqn:Ee;
      [| discriminate].
    destruct (target_errors tg results s1) as [[errors | e] s2] eqn:Et;
      [| discriminate].
    destruct (isconverged errors s2) as [[b | e] s3] eqn:Ec; [| discriminate].
    destruct (isconverged_within _ _ _ Et Ec) as (-> & -> & Hb).
    destruct b; [discriminate |].
    destruct (next_iteration v errors s1) as [[c | e] s4] eqn:En;
      [| discriminate].
    destruct (corrected v c s4) as [[vs | e] s5] eqn:Ev; [| discriminate].
    inversion H; subst.
    exists results, s1, errors, c, s4.
    repeat split; try assumption.
    intro Hw. apply Hb in Hw. discriminate.
  - intros (results & s1 & errors & c & s2 & Ee & Et & Hnw & En & Ev).
    unfold bind. rewrite Ee, Et.
    destruct (isconverged_returns errors s1) as [b Ec]. rewrite Ec.
    destruct (isconverged_within _ _ _ Et Ec) as (_ & _ & Hb).
    destruct b; [exfalso; apply Hnw; now apply Hb |].
    now rewrite En, Ev.
Qed.

(** The pass raises exactly in the ways of [pass_raises]. *)
Lemma round_raises :
  forall (tg v : dict T) (s : solver) e s',
    round tg v s = (Err e, s') <-> pass_raises tg v s e s'.
Proof.
  intros tg v s e s'. rewrite round_statements. split.
  - intro H. unfold bind in H.
    destruct (engine_calculate v s) as [[results | e1] s1] eqn:Ee.
    2:{ inversion H; subst. now apply engine_raises. }
    destruct (target_errors tg results s1) as [[errors | e2] s2] eqn:Et.
    2:{ destruct (stateless_target_errors _ _ _ Et) as [-> _].
        inversion H; subst. eapply errors_raise; eauto. }
    destruct (isconverged errors s2) as [[b | e3] s3] eqn:Ec.
    2:{ destruct (isconverged_returns errors s2) as [b Eb]. congruence. }
    destruct (isconverged_within _ _ _ Et Ec) as (-> & -> & Hb).
    destruct b; [discriminate |].
    assert (Hnw : ~ within_tolerance tg results)
      by (intro Hw; apply Hb in Hw; discriminate).
    destruct (next_iteration v errors s1) as [[c | e4] s4] eqn:En.
    2:{ inversion H; subst. eapply next_iteration_raises; eauto. }
    destruct (corrected v c s4) as [[vs | e5] s5] eqn:Ev; [discriminate |].
    destruct (stateless_corrected _ _ _ Ev) as [-> _].
    inversion H; subst. eapply corrections_raise; eauto.
  - intro H. unfold bind.
    destruct H as [e s' Ee | results e s' Ee Et
                  | results s1 errors e s' Ee Et Hnw En
                  | results s1 errors c e s' Ee Et Hnw En Ev].
    + now rewrite Ee.
    + now rewrite Ee, Et.
    + rewrite Ee, Et.
      destruct (isconverged_returns errors s1) as [b Ec]. rewrite Ec.
      destruct (isconverged_within _ _ _ Et Ec) as (_ & _ & Hb).
      destruct b; [exfalso; apply Hnw; now apply Hb |].
      now rewrite En.
    + rewrite Ee, Et.
      destruct (isconverged_returns errors s1) as [b Ec]. rewrite Ec.
      destruct (isconverged_within _ _ _ Et Ec) as (_ & _ & Hb).
      destruct b; [exfalso; apply Hnw; now apply Hb |].
      now rewrite En, Ev.
Qed.

(** *** The iteration limit *)

(** [rounds tg k v s v' s']: starting from the values [v], [k] passes
    through the loop body each found the errors unconverged and completed
    its Newton step, arriving at the values [v']. *)
Inductive rounds (all_targets : dict T)
  : nat -> dict T -> solver -> dict T -> solver -> Prop :=
| rounds_O : forall v s, rounds all_targets 0 v s v s
| rounds_S : forall k v s v1 s1 v2 s2,
    round all_targets v s = (Ok (inr v1), s1) ->
    rounds all_targets k v1 s1 v2 s2 ->
    rounds all_targets (S k) v s v2 s2.

(** How [solve] can end. *)
Inductive ending (all_targets : dict T) (values : dict T) (s : solver)
  : option (result (dict T) * solver) -> Prop :=
| converged_within_limit : forall k v s1 s',
    k <= iter_limit ->
    rounds all_targets k values s v s1 ->
    round all_targets v s1 = (Ok (inl v), s') ->
    ending all_targets values s (Some (Ok v, s'))
| limit_exceeded : forall v' s',
    rounds all_targets (S iter_limit) values s v' s' ->
    ending all_targets values s
           (Some (Err (Exception "Exceeded iteration limit"), s'))
| raised_on_the_way : forall k v s1 e s',
    k <= iter_limit ->
    rounds all_targets k values s v s1 ->
    round all_targets v s1 = (Err e, s') ->
    ending all_targets values s (Some (Err e, s')).

Lemma round_breaks_with_its_values :
  forall all_targets v s v' s',
    round all_targets v s = (Ok (inl v'), s') -> v' = v.
Proof.
  intros tg v s v' s' Hrd. unfold round, bind in Hrd.
  destruct (engine_calculate v s) as [[results | e] s1]; [| discriminate].
  destruct (comprehension (keys tg) _ s1) as [[errors | e] s2]; [| discriminate].
  destruct (isconverged (dict_of errors) s2) as [[[|] | e] s3]; try discriminate.
  - unfold ret in Hrd. now inversion Hrd.
  - destruct (next_iteration v (dict_of errors) s3) as [[c | e] s4];
      [| discriminate].
    destruct (comprehension (keys v) _ s4) as [[vs | e] s5]; discriminate.
Qed.

Lemma rounds_snoc :
  forall tg k v s v1 s1 v2 s2,
    rounds tg k v s v1 s1 ->
    round tg v1 s1 = (Ok (inr v2), s2) ->
    rounds tg (S k) v s v2 s2.
Proof.
  intros tg k v s v1 s1 v2 s2 H. revert v2 s2.
  induction H as [v s | k v s va sa vb sb Hr _ IH]; intros v2 s2 Hrd.
  - eapply rounds_S; [exact Hrd | apply rounds_O].
  - eapply rounds_S; [exact Hr | apply IH, Hrd].
Qed.

(** The loop, entered at pass [i] after [i] unconverged rounds. *)
Lemma iterate_ending :
  forall tg fuel i v0 s0 v s,
    rounds tg i v0 s0 v s ->
    i <= S iter_limit ->
    S iter_limit < i + fuel ->
    ending tg v0 s0 (iterate fuel tg i v s).
Proof.
  intros tg fuel. induction fuel as [| fuel IH]; intros i v0 s0 v s Hr Hi Hf.
  - lia.
  - simpl. destruct (Nat.ltb_spec iter_limit i) as [Hlt | Hge].
    + assert (i = S iter_limit) by lia. subst i.
      apply limit_exceeded with (v' := v). exact Hr.
    + destruct (round tg v s) as [[[vb | v1] | e] s1] eqn:Hrd.
      * pose proof (round_breaks_with_its_values _ _ _ Hrd). subst vb.
        eapply converged_within_limit; eauto.
      * apply IH with (i := S i); [| lia | lia].
        eapply rounds_snoc; eauto.
      * eapply raised_on_the_way; eauto.
Qed.

Lemma rounds_fun :
  forall tg k v s v1 s1 v2 s2,
    rounds tg k v s v1 s1 -> rounds tg k v s v2 s2 -> v1 = v2 /\ s1 = s2.
Proof.
  intros tg k v s v1 s1 v2 s2 H. revert v2 s2.
  induction H as [v s | k v s va sa vb sb Hr _ IH]; intros v2 s2 H2.
  - inversion H2; subst. auto.
  - inversion H2 as [| k' v' s' vc sc vd sd Hr' Hrest]; subst.
    rewrite Hr in Hr'. inversion Hr'; subst. apply IH, Hrest.
Qed.

(** Every proper prefix of a run of unconverged rounds ends in a round
    that goes round the loop again. *)
Lemma rounds_prefix :
  forall tg n v s v' s' k,
    rounds tg n v s v' s' -> k < n ->
    exists va sa vb sb,
      rounds tg k v s va sa /\ round tg va sa = (Ok (inr vb), sb).
Proof.
  intros tg n v s v' s' k H. revert k.
  induction H as [v s | n v s va sa vb sb Hr Hrest IH]; intros k Hk; [lia |].
  destruct k as [| k].
  - exists v, s, va, sa. split; [apply rounds_O | exact Hr].
  - destruct (IH k) as (vc & sc & vd & sd & Hc & Hd); [lia |].
    exists vc, sc, vd, sd. split; [| exact Hd].
    eapply rounds_S; eauto.
Qed.

(** Two runs of rounds from the same start cannot end differently: one
    in a round that leaves the loop or raises, the other going on. *)
Lemma rounds_agree :
  forall tg k v s v1 s1 n v2 s2,
    rounds tg k v s v1 s1 ->
    (forall vb sb, round tg v1 s1 <> (Ok (inr vb), sb)) ->
    rounds tg n v s v2 s2 ->
    n <= k.
Proof.
  intros tg k v s v1 s1 n v2 s2 Hk Hstop Hn.
  destruct (Nat.le_gt_cases n k) as [Hle | Hgt]; [exact Hle |].
  destruct (rounds_prefix Hn Hgt) as (va & sa & vb & sb & Ha & Hb).
  destruct (rounds_fun Hk Ha) as [-> ->].
  exfalso. apply (Hstop vb sb). exact Hb.
Qed.

(** Unconverged rounds are Newton iterations. *)
Lemma rounds_newton_steps :
  forall tg k v s v' s',
    rounds tg k v s v' s' <-> newton_steps tg k v s v' s'.
Proof.
  intros tg k v s v' s'. split.
  - intro H. induction H as [v s | k v s v1 s1 v2 s2 Hr _ IH].
    + apply newton_steps_O.
    + eapply newton_steps_S; [apply round_goes_round; exact Hr | exact IH].
  - intro H. induction H as [v s | k v s v1 s1 v2 s2 Hr _ IH].
    + apply rounds_O.
    + eapply rounds_S; [apply round_goes_round; exact Hr | exact IH].
Qed.

(** The round at which the loop stops going round is fixed by the start. *)
Lemma last_round_fun :
  forall tg k v s v1 s1 n v2 s2,
    rounds tg k v s v1 s1 ->
    (forall vb sb, round tg v1 s1 <> (Ok (inr vb), sb)) ->
    rounds tg n v s v2 s2 ->
    (forall vb sb, round tg v2 s2 <> (Ok (inr vb), sb)) ->
    k = n /\ v1 = v2 /\ s1 = s2.
Proof.
  intros tg k v s v1 s1 n v2 s2 Hk Hsk Hn Hsn.
  assert (Hle1 : n <= k) by (eapply rounds_agree; eauto).
  assert (Hle2 : k <= n) by (eapply rounds_agree; eauto).
  assert (k = n) by lia. subst n.
  split; [reflexivity |]. eapply rounds_fun; eauto.
Qed.

(** Two runs that both end in a round that does not go round again end
    in the same round. *)
Ltac same_last_round Hr1 Hb1 Hr2 Hb2 :=
  let Hs1 := fresh in
  let Hs2 := fresh in
  match type of Hr1 with
  | rounds ?tg _ _ _ ?v1 ?s1 =>
      assert (Hs1 : forall vb sb, round tg v1 s1 <> (Ok (inr vb), sb))
        by (intros ? ?; rewrite Hb1; discriminate)
  end;
  match type of Hr2 with
  | rounds ?tg _ _ _ ?v2 ?s2 =>
      assert (Hs2 : forall vb sb, round tg v2 s2 <> (Ok (inr vb), sb))
        by (intros ? ?; rewrite Hb2; discriminate)
  end;
  destruct (last_round_fun Hr1 Hs1 Hr2 Hs2) as (_ & -> & ->);
  congruence.

(** [solve] can end in one way only. *)
Lemma ending_fun :
  forall tg v s r1 r2, ending tg v s r1 -> ending tg v s r2 -> r1 = r2.
Proof.
  intros tg v s r1 r2 H1 H2.
  destruct H1 as [k1 v1 s1 s1' Hk1 Hr1 Hb1 | v1 s1 Hr1
                 | k1 v1 s1 e1 s1' Hk1 Hr1 Hb1];
    destruct H2 as [k2 v2 s2 s2' Hk2 Hr2 Hb2 | v2 s2 Hr2
                   | k2 v2 s2 e2 s2' Hk2 Hr2 Hb2].
  - same_last_round Hr1 Hb1 Hr2 Hb2.
  - assert (S iter_limit <= k1).
    { eapply rounds_agree; [exact Hr1 | | exact Hr2].
      intros vb sb; rewrite Hb1; discriminate. }
    lia.
  - same_last_round Hr1 Hb1 Hr2 Hb2.
  - assert (S iter_limit <= k2).
    { eapply rounds_agree; [exact Hr2 | | exact Hr1].
      intros vb sb; rewrite Hb2; discriminate. }
    lia.
  - destruct (rounds_fun Hr1 Hr2) as [-> ->]. reflexivity.
  - assert (S iter_limit <= k2).
    { eapply rounds_agree; [exact Hr2 | | exact Hr1].
      intros vb sb; rewrite Hb2; discriminate. }
    lia.
  - same_last_round Hr1 Hb1 Hr2 Hb2.
  - assert (S iter_limit <= k1).
    { eapply rounds_agree; [exact Hr1 | | exact Hr2].
      intros vb sb; rewrite Hb1; discriminate. }
    lia.
  - same_last_round Hr1 Hb1 Hr2 Hb2.
Qed.

(** Once the targets are partitioned and the start values read, [solve]
    returns, in one of the three ways of [ending]. *)
Lemma solve_ends :
  forall (fuel : nat) (all_targets values : dict T) (s s0 : solver),
    prepare all_targets s = (Ok values, s0) ->
    S iter_limit < fuel ->
    ending all_targets values s0 (solve fuel all_targets s).
Proof.
  intros fuel tg values s s0 Hprep Hfuel.
  unfold solve. rewrite Hprep.
  apply iterate_ending; [apply rounds_O | lia | lia].
Qed.

(** C4 (amended).  Once the targets are partitioned and the start values
    read, [solve] ends, and how it ends is fixed by the Newton iterations
    it can take from the start values, each of them taken from results
    that are not within the tolerance:
    - it returns values [v] exactly when [k <= 100] Newton iterations
      lead to [v] and the engine's results on [v] carry every target with
      an error [target - result] below [1e-6] in absolute value;
    - it raises the iteration-limit exception when 101 Newton iterations
      in a row can be taken;
    - every exception it raises is either that one, after 101 Newton
      iterations, or the exception of a pass that raises after
      [k <= 100] Newton iterations: in the engine, in the errors, in
      [next_iteration] (the gradients or the linear solve) on results
      that are not within the tolerance, or in adding the corrections.
      Such a pass ends [solve] with its own exception, not with the
      iteration-limit exception. *)
Theorem C4_iteration_limit :
  forall (fuel : nat) (all_targets values : dict T) (s s0 : solver),
    prepare all_targets s = (Ok values, s0) ->
    S iter_limit < fuel ->
    (exists r s', solve fuel all_targets s = Some (r, s')) /\
    (forall v s',
       solve fuel all_targets s = Some (Ok v, s') <->
       exists k s1,
         k <= iter_limit /\
         newton_steps all_targets k values s0 v s1 /\
         finds_convergence all_targets v s1 s') /\
    (forall v' s',
       newton_steps all_targets (S iter_limit) values s0 v' s' ->
       solve fuel all_targets s =
       Some (Err (Exception "Exceeded iteration limit"), s')) /\
    (forall e s',
       solve fuel all_targets s = Some (Err e, s') <->
       (e = Exception "Exceeded iteration limit" /\
        exists v', newton_steps all_targets (S iter_limit) values s0 v' s') \/
       (exists k v s1,
          k <= iter_limit /\
          newton_steps all_targets k values s0 v s1 /\
          pass_raises all_targets v s1 e s')).
Proof.
  intros fuel tg values s s0 Hprep Hfuel.
  pose proof (solve_ends tg s Hprep Hfuel) as Hend.
  assert (Hiff : forall r, solve fuel tg s = r <-> ending tg values s0 r).
  { intro r. split; [intros <-; exact Hend |].
    intro Hr. exact (ending_fun Hend Hr). }
  split; [| split; [| split]].
  - destruct Hend; eauto.
  - intros v s'. rewrite Hiff. split.
    + intro H. inversion H as [k v2 s1 s2 Hk Hr Hb | |]; subst.
      apply round_breaks in Hb. destruct Hb as [_ Hb].
      exists k, s1. split; [exact Hk |].
      split; [now apply rounds_newton_steps | exact Hb].
    + intros (k & s1 & Hk & Hr & Hb).
      eapply converged_within_limit;
        [exact Hk | apply rounds_newton_steps; exact Hr |].
      apply round_breaks. split; [reflexivity | exact Hb].
  - intros v' s' Hr. apply Hiff.
    eapply limit_exceeded. apply rounds_newton_steps. exact Hr.
  - intros e s'. rewrite Hiff. split.
    + intro H. inversion H as [| v2 s2 Hr | k v2 s1 e2 s2 Hk Hr Hb]; subst.
      * left. split; [reflexivity |].
        exists v2. now apply rounds_newton_steps.
      * right. exists k, v2, s1. split; [exact Hk |].
        split; [now apply rounds_newton_steps | now apply round_raises].
    + intros [[-> [v' Hr]] | (k & v & s1 & Hk & Hr & Hb)].
      * eapply limit_exceeded. apply rounds_newton_steps. exact Hr.
      * eapply raised_on_the_way;
          [exact Hk | apply rounds_newton_steps; exact Hr |].
        now apply round_raises.
Qed.

(** *** Counting the evaluations *)

(** [costs m n]: when [m] returns normally, it has called
    [engine.calculate] exactly [n] times. *)
Definition costs {A : Type} (m : M solver A) (n : nat) : Prop :=
  forall s a s', m s = (Ok a, s') -> evaluations s' = evaluations s + n.

Lemma costs_ret : forall (A : Type) (a : A), costs (ret a) 0.
Proof. intros A a s a' s' H. inversion H. lia. Qed.

Lemma costs_pure :
  forall (A : Type) (r : result A), costs (fun s => (r, s)) 0.
Proof. intros A r s a s' H. inversion H. lia. Qed.

Lemma costs_bind :
  forall (A B : Type) (m : M solver A) (k : A -> M solver B) a b,
    costs m a -> (forall x, costs (k x) b) -> costs (bind m k) (a + b).
Proof.
  intros A B m k a b Hm Hk s y s' H. unfold bind in H.
  destruct (m s) as [[x | e] s1] eqn:Em; [| discriminate].
  apply Hm in Em. apply Hk in H. lia.
Qed.

Lemma costs_comprehension :
  forall (A B : Type) (f : A -> M solver B) c xs,
    (forall x, costs (f x) c) ->
    costs (comprehension xs f) (List.length xs * c).
Proof.
  intros A B f c xs Hf. induction xs as [| x xs IH]; simpl.
  - apply costs_ret.
  - replace (c + List.length xs * c) with (c + (List.length xs * c + 0)) by lia.
    apply costs_bind; [apply Hf |]. intro y.
    apply costs_bind; [exact IH |]. intro ys. apply costs_ret.
Qed.

Lemma costs_subscript :
  forall (V : Type) (d : dict V) k, costs (subscript d k) 0.
Proof.
  intros V d k s a s' H. unfold subscript in H.
  destruct (lookup k d); inversion H. lia.
Qed.

Lemma costs_index :
  forall (A : Type) (xs : list A) i, costs (index xs i) 0.
Proof.
  intros A xs i s a s' H. unfold index in H.
  destruct (nth_error xs i); inversion H. lia.
Qed.

Lemma costs_divide : forall x y : T, costs (divide x y) 0.
Proof.
  intros x y s a s' H. unfold divide in H.
  destruct (is_zero y); inversion H. lia.
Qed.

Lemma costs_setting : forall name field, costs (setting name field) 0.
Proof.
  intros name field s a s' H. unfold setting, bind, subscript in H.
  destruct (lookup name (input_settings s)) as [row |]; [| discriminate].
  simpl in H. destruct (lookup field row); inversion H. lia.
Qed.

Lemma costs_get_targets : costs get_targets 0.
Proof.
  intros s a s' H. unfold get_targets in H.
  destruct (targets s); inversion H. lia.
Qed.

Lemma costs_engine_calculate : forall values, costs (engine_calculate values) 1.
Proof.
  intros values s a s' H. unfold engine_calculate, on_engine in H. simpl in H.
  destruct (calculate values (engine s)) as [r e']. inversion H. simpl. lia.
Qed.

Lemma costs_bind_eq :
  forall (A B : Type) (m : M solver A) (k : A -> M solver B) n a b,
    n = a + b -> costs m a -> (forall x, costs (k x) b) -> costs (bind m k) n.
Proof. intros; subst; now apply costs_bind. Qed.

Lemma costs_comprehension_eq :
  forall (A B : Type) (f : A -> M solver B) n c xs,
    n = List.length xs * c ->
    (forall x, costs (f x) c) -> costs (comprehension xs f) n.
Proof. intros; subst; now apply costs_comprehension. Qed.

(** Bodies that never reach the engine. *)
Ltac no_evaluation :=
  repeat first
    [ apply costs_ret | apply costs_pure | apply costs_subscript
    | apply costs_index | apply costs_divide | apply costs_setting
    | apply costs_get_targets
    | apply costs_bind_eq with (a := 0) (b := 0); [reflexivity | | intro]
    | apply costs_comprehension_eq with (c := 0); [lia | intro] ].

(** A step [H : m s = (Ok a, s')] whose [m] never reaches the engine. *)
Ltac free_of_cost H :=
  match type of H with
  | ?m ?s = _ =>
      let Hc := fresh in
      assert (Hc : costs m 0) by no_evaluation;
      exact (Hc _ _ _ H)
  end.

Lemma costs_isconverged : forall errors, costs (isconverged errors) 0.
Proof. intro errors. unfold isconverged. no_evaluation. Qed.

(** One baseline evaluation and one per variable. *)
Lemma costs_generate_jacobian :
  forall current_values,
    costs (generate_jacobian current_values)
          (1 + List.length current_values).
Proof.
  intro cv. unfold generate_jacobian.
  apply costs_bind_eq with (a := 1) (b := List.length cv);
    [reflexivity | apply costs_engine_calculate | intro defaults].
  apply costs_bind_eq with (a := List.length cv) (b := 0);
    [lia | | intro; apply costs_ret].
  apply costs_comprehension_eq with (c := 1);
    [unfold keys; rewrite length_map; lia | intro input_name].
  apply costs_bind_eq with (a := 0) (b := 1);
    [reflexivity | apply costs_setting | intro perturbation].
  apply costs_bind_eq with (a := 0) (b := 1);
    [reflexivity | apply costs_subscript | intro current].
  apply costs_bind_eq with (a := 1) (b := 0);
    [reflexivity | apply costs_engine_calculate | intro calcd].
  no_evaluation.
Qed.

Lemma costs_next_iteration :
  forall current_values errors,
    costs (next_iteration current_values errors)
          (1 + List.length current_values).
Proof.
  intros cv errors. unfold next_iteration.
  apply costs_bind_eq with (a := 1 + List.length cv) (b := 0);
    [lia | apply costs_generate_jacobian | intro gradients].
  no_evaluation.
Qed.


(** *** The errors are taken over every requested target *)

Lemma comprehension_raises :
  forall (A B : Type) (f : A -> M solver B) xs y ys e s,
    (forall x, In x xs -> exists b, f x s = (Ok b, s)) ->
    f y s = (Err e, s) ->
    comprehension (xs ++ y :: ys) f s = (Err e, s).
Proof.
  intros A B f xs y ys e s. induction xs as [| x xs IH]; intros Hxs Hy; simpl.
  - unfold bind. now rewrite Hy.
  - unfold bind at 1. destruct (Hxs x (or_introl eq_refl)) as [b ->].
    unfold bind. rewrite IH; [reflexivity | | exact Hy].
    intros x' Hx'. apply Hxs. now right.
Qed.

Lemma lookup_after_prefix :
  forall (V : Type) (before after : dict V) z v,
    exists v', lookup z (before ++ (z, v) :: after) = Some v'.
Proof.
  intros V before after z v. induction before as [| [k w] d IH]; simpl.
  - rewrite String.eqb_refl. eauto.
  - destruct (String.eqb z k); eauto.
Qed.

(** C6 (what the code does instead).  The error dict is built over every
    requested target, not over [self.targets]: once the first evaluation
    has returned, a requested target [z] that the results do not carry
    makes [solve] raise [KeyError z], every target before it being among
    the results.  A target applied directly as an input alias is such a
    [z] unless the engine also has an output of that name. *)
Theorem C6_errors_range_over_all_targets :
  forall (fuel : nat) (all_targets before after values results : dict T)
         (z : string) (v : T) (s s0 s1 : solver),
    prepare all_targets s = (Ok values, s0) ->
    engine_calculate values s0 = (Ok results, s1) ->
    all_targets = before ++ (z, v) :: after ->
    (forall k, In k (keys before) -> exists r, lookup k results = Some r) ->
    lookup z results = None ->
    solve (S fuel) all_targets s = Some (Err (KeyError z), s1).
Proof.
  intros fuel tg before after values results z v s s0 s1
         Hprep Hcalc Htg Hbefore Hz.
  unfold solve. rewrite Hprep. simpl.
  unfold round. unfold bind at 1. rewrite Hcalc.
  unfold bind at 1.
  assert (Hk : keys tg = keys before ++ z :: keys after).
  { subst tg. unfold keys. now rewrite map_app. }
  rewrite Hk.
  rewrite comprehension_raises with (e := KeyError z); [reflexivity | |].
  - intros k Hin. destruct (Hbefore k Hin) as [r Hr].
    assert (Hin' : In k (keys tg)) by (rewrite Hk; apply in_or_app; now left).
    destruct (lookup k tg) as [tk |] eqn:Etk.
    + exists (k, sub tk r). unfold bind, subscript. rewrite Etk. simpl.
      now rewrite Hr.
    + exfalso. clear - Hin' Etk. unfold keys in Hin'.
      induction tg as [| [k' w] d IH]; simpl in *; [contradiction |].
      destruct (String.eqb_spec k k') as [-> | Hne]; [discriminate |].
      destruct Hin' as [-> | H]; [contradiction | auto].
  - destruct (lookup_after_prefix before after z v) as [tz Htz].
    unfold bind, subscript. rewrite Htg, Htz. simpl. now rewrite Hz.
Qed.

End Solve.

(** *** Engines and a linear solve to run the solver on *)

(** An engine with an [input_aliases] dict: it keeps the inputs applied
    through [set_input_alias] and computes its outputs from them and from
    the values handed to [calculate]. *)
Record wrapped (T : Type) : Type := mk_wrapped {
  aliases : list string;
  direct : dict T
}.

Definition wrapped_Evaluable {T : Type}
    (law : dict T -> dict T -> result (dict T))
  : Evaluable (T := T) (wrapped T) :=
  {| input_aliases := fun e => Some (aliases e);
     set_input_alias := fun name value =>
       modify (fun e => mk_wrapped (aliases e) (store name value (direct e)));
     calculate := fun values e => (law (direct e) values, e) |}.

(** The exact solution of a square system of one or two equations,
    [LinAlgError] for a singular matrix; larger systems are not needed
    below. *)
Definition cramer {T : Type} `{Number T}
    (J : list (list T)) (e : list T) : result (list T) :=
  match J, e with
  | [[a]], [e1] =>
      if is_zero a then Err LinAlgError else Ok [quot e1 a]
  | [[a; b]; [c; d]], [e1; e2] =>
      let det := sub (mul a d) (mul b c) in
      if is_zero det then Err LinAlgError
      else Ok [quot (sub (mul e1 d) (mul b e2)) det;
               quot (sub (mul a e2) (mul e1 c)) det]
  | _, _ => Err LinAlgError
  end.

(** Two outputs linear in two inputs: [z = 3x + y - 4], [zz = 5x - y - 1]. *)
Definition linear_law (_ values : dict float) : result (dict float) :=
  match lookup "x" values, lookup "y" values with
  | Some x, Some y =>
      Ok [("z"%string, (3 * x + y - 4)%float);
          ("zz"%string, (5 * x - y - 1)%float)]
  | None, _ => Err (KeyError "x")
  | _, None => Err (KeyError "y")
  end.

Definition linear_settings : dict (dict float) :=
  [("x"%string, [("perturbation"%string, 0.01%float); ("sval"%string, 2%float)]);
   ("y"%string, [("perturbation"%string, 0.01%float); ("sval"%string, 3%float)])].

Definition linear_targets : dict float :=
  [("z"%string, 10%float); ("zz"%string, 20%float)].

Definition linear_solver : solver (T := float) (E := wrapped float) :=
  mk_solver (mk_wrapped [] []) linear_settings None 0.

Definition linear_start : dict float :=
  [("x"%string, 2%float); ("y"%string, 3%float)].

Definition linear_prepared : solver (T := float) (E := wrapped float) :=
  mk_solver (mk_wrapped [] []) linear_settings (Some linear_targets) 0.

Definition linear_first_round :
  result (dict float + dict float) * solver (T := float) (E := wrapped float) :=
  Eval vm_compute in
    round (evaluable := wrapped_Evaluable linear_law) cramer
          linear_targets linear_start linear_prepared.

Definition linear_second_values : dict float :=
  match fst linear_first_round with
  | Ok (inr values') => values'
  | _ => []
  end.

Definition linear_second_round :
  result (dict float + dict float) * solver (T := float) (E := wrapped float) :=
  Eval vm_compute in
    round (evaluable := wrapped_Evaluable linear_law) cramer
          linear_targets linear_second_values (snd linear_first_round).

(** One output, twice the one input: [z = 2x], started at [x = 2] with a
    perturbation of 0.5 and asked for [z = 8].  Every number of the run
    is a small integer or a half, so that the linear solve divides 4 by
    2 exactly. *)
Definition double_law (_ values : dict float) : result (dict float) :=
  match lookup "x" values with
  | Some x => Ok [("z"%string, (2 * x)%float)]
  | None => Err (KeyError "x")
  end.

Definition one_variable : dict (dict float) :=
  [("x"%string, [("perturbation"%string, 0.5%float); ("sval"%string, 2%float)])].

Definition double_targets : dict float := [("z"%string, 8%float)].

Definition double_solver : solver (T := float) (E := wrapped float) :=
  mk_solver (mk_wrapped [] []) one_variable None 0.

Definition double_prepared : solver (T := float) (E := wrapped float) :=
  mk_solver (mk_wrapped [] []) one_variable (Some double_targets) 0.

(** An engine whose output does not depend on its input: [z = 5],
    asked for [z = 10]. *)
Definition flat_law (_ _ : dict float) : result (dict float) :=
  Ok [("z"%string, 5%float)].

Definition flat_targets : dict float := [("z"%string, 10%float)].

(** An engine without a solution: [z = x * x + 1], asked for [z = 0]. *)
Definition rootless_law (_ values : dict float) : result (dict float) :=
  match lookup "x" values with
  | Some x => Ok [("z"%string, (x * x + 1)%float)]
  | None => Err (KeyError "x")
  end.

Definition rootless_targets : dict float := [("z"%string, 0%float)].

Lemma C4_iteration_limit_witness :
  exists s',
    solve (evaluable := wrapped_Evaluable double_law) cramer 200
          double_targets double_solver
    = Some (Ok [("x"%string, 4%float)], s') /\
    evaluations s' = 4.
Proof.
  assert (Hprep : prepare (evaluable := wrapped_Evaluable double_law)
                          double_targets double_solver
                  = (Ok [("x"%string, 2%float)], double_prepared))
    by (vm_compute; reflexivity).
  assert (Hfuel : S iter_limit < 200) by (unfold iter_limit; lia).
  pose proof (C4_iteration_limit (evaluable := wrapped_Evaluable double_law)
                cramer double_targets double_solver Hprep Hfuel)
    as (_ & Hconv & _ & _).
  exists (mk_solver (mk_wrapped [] []) one_variable (Some double_targets) 4).
  split; [| reflexivity].
  apply Hconv.
  exists 1, (mk_solver (mk_wrapped [] []) one_variable (Some double_targets) 3).
  split; [unfold iter_limit; lia |]. split.
  - eapply newton_steps_S; [| apply newton_steps_O].
    exists [("z"%string, 4%float)],
           (mk_solver (mk_wrapped [] []) one_variable (Some double_targets) 1),
           [("z"%string, 4%float)],
           [("x"%string, 2%float)],
           (mk_solver (mk_wrapped [] []) one_variable (Some double_targets) 3).
    split; [vm_compute; reflexivity |].
    split; [vm_compute; reflexivity |].
    split.
    + intro Hw. destruct (Hw "z"%string 8%float eq_refl) as (rz & Hrz & Hless).
      inversion Hrz; subst rz. vm_compute in Hless. discriminate.
    + split; vm_compute; reflexivity.
  - exists [("z"%string, 8%float)].
    split; [vm_compute; reflexivity |].
    intros z tz Hz. simpl in Hz.
    destruct (String.eqb_spec z "z") as [-> | _]; [| discriminate].
    inversion Hz; subst tz.
    exists 8%float. split; vm_compute; reflexivity.
Defined.

(** C4, as stated, fails: on an engine whose output stays at 5 while 10
    is asked for, no values whatever bring the error below the
    tolerance, so convergence is not reached within the limit; yet
    [solve] does not raise the iteration-limit exception.  The first
    pass finds the gradient zero and the linear solve, handed the
    singular matrix [[0]], raises [LinAlgError], with which [solve]
    ends after three evaluations. *)
Lemma C4_counterexample_singular_jacobian :
  (exists s',
     solve (evaluable := wrapped_Evaluable flat_law) cramer 200
           flat_targets
           (mk_solver (mk_wrapped [] []) one_variable None 0)
     = Some (Err LinAlgError, s') /\
     evaluations s' = 3) /\
  LinAlgError <> Exception "Exceeded iteration limit" /\
  (forall (v : dict float) (s s' : solver (T := float) (E := wrapped float)),
     ~ finds_convergence (evaluable := wrapped_Evaluable flat_law)
         flat_targets v s s').
Proof.
  split; [| split].
  - eexists. split; [vm_compute; reflexivity | reflexivity].
  - discriminate.
  - intros v s s' (results & Ee & Hw).
    unfold engine_calculate, on_engine in Ee. simpl in Ee.
    inversion Ee; subst results.
    destruct (Hw "z"%string 10%float eq_refl) as (rz & Hrz & Hless).
    inversion Hrz; subst rz. vm_compute in Hless. discriminate.
Qed.

(** Whatever the linear solve is, the same run ends with the exception
    it raises on the singular matrix. *)
Lemma singular_jacobian_any_solve :
  forall (tensorsolve : list (list float) -> list float -> result (list float))
         (e : exn),
    tensorsolve [[0%float]] [5%float] = Err e ->
    exists s',
      solve (evaluable := wrapped_Evaluable flat_law) tensorsolve 200
            flat_targets
            (mk_solver (mk_wrapped [] []) one_variable None 0)
      = Some (Err e, s').
Proof.
  intros tensorsolve e He.
  exists (mk_solver (mk_wrapped [] []) one_variable (Some flat_targets) 3).
  assert (Hp : prepare (evaluable := wrapped_Evaluable flat_law) flat_targets
                 (mk_solver (mk_wrapped [] []) one_variable None 0)
               = (Ok [("x"%string, 2%float)],
                  mk_solver (mk_wrapped [] []) one_variable
                            (Some flat_targets) 0))
    by (vm_compute; reflexivity).
  assert (Hr : round (evaluable := wrapped_Evaluable flat_law) tensorsolve
                 flat_targets [("x"%string, 2%float)]
                 (mk_solver (mk_wrapped [] []) one_variable
                            (Some flat_targets) 0)
               = (Err e,
                  mk_solver (mk_wrapped [] []) one_variable
                            (Some flat_targets) 3))
    by (lazy; rewrite He; reflexivity).
  unfold solve. rewrite Hp.
  change 200 with (S 199). cbn [iterate].
  change (Nat.ltb iter_limit 0) with false. cbv iota.
  rewrite Hr. reflexivity.
Qed.

(** The limit itself: on the engine without a solution, 101 passes each
    take their Newton iteration (three evaluations each) and the 102nd
    entry of the loop raises. *)
Lemma iteration_limit_reached :
  exists s',
    solve (evaluable := wrapped_Evaluable rootless_law) cramer 200
          rootless_targets
          (mk_solver (mk_wrapped [] []) one_variable None 0)
    = Some (Err (Exception "Exceeded iteration limit"), s') /\
    evaluations s' = 303.
Proof. eexists. split; [vm_compute; reflexivity | reflexivity]. Qed.



(** An engine with the TurboJet's input aliases and output names. *)
Definition jet_law (direct values : dict float) : result (dict float) :=
  match lookup "HPCPR" values, lookup "RIT" direct with
  | Some hpcpr, Some rit =>
      Ok [("SFC"%string, (hpcpr / rit)%float);
          ("THRUST"%string, (rit / 10 + hpcpr)%float)]
  | None, _ => Err (KeyError "HPCPR")
  | _, None => Err (KeyError "RIT")
  end.

Definition jet_solver : solver (T := float) (E := wrapped float) :=
  mk_solver (mk_wrapped ["HPCPR"; "RIT"; "FLOW"]%string
                        [("RIT"%string, 1600%float)])
            [("HPCPR"%string,
              [("perturbation"%string, 0.01%float); ("sval"%string, 15%float)])]
            None 0.

Definition jet_targets : dict float :=
  [("THRUST"%string, 300%float); ("RIT"%string, 1700%float)].

(** The solver after the partition and the first evaluation: [RIT] has
    been applied to the engine and is not among [self.targets]. *)
Definition jet_evaluated : solver (T := float) (E := wrapped float) :=
  mk_solver (mk_wrapped ["HPCPR"; "RIT"; "FLOW"]%string
                        [("RIT"%string, 1700%float)])
            [("HPCPR"%string,
              [("perturbation"%string, 0.01%float); ("sval"%string, 15%float)])]
            (Some [("THRUST"%string, 300%float)]) 1.

Lemma C6_errors_range_over_all_targets_witness :
  existsb (String.eqb "RIT") ["HPCPR"; "RIT"; "FLOW"]%string = true /\
  solve (evaluable := wrapped_Evaluable jet_law) cramer 200
        jet_targets jet_solver
  = Some (Err (KeyError "RIT"), jet_evaluated).
Proof.
  split; [reflexivity |].
  eapply (C6_errors_range_over_all_targets
            (evaluable := wrapped_Evaluable jet_law) cramer 199
            [("THRUST"%string, 300%float)] [] "RIT" 1700%float jet_solver).
  - vm_compute; reflexivity.
  - vm_compute; reflexivity.
  - reflexivity.
  - intros k [<- | []]. eexists. reflexivity.
  - reflexivity.
Defined.

(** *** solver.py: class TestFunction and test2 *)

Section TestFunction.

(** [x ** y] on floats, as the C library computes it. *)
Variable power : float -> float -> result float.

Local Open Scope method_scope.

(** [TestFunction.calculate] *)
Definition TestFunction_calculate (inputs : dict float) : M unit (dict float) :=
  x <- subscript inputs "x" ;;
  y <- subscript inputs "y" ;;
  y17 <- (fun s => (power y 1.7%float, s)) ;;
  let z := (3 * x + 0.1 * y17 - 4)%float in
  x31 <- (fun s => (power x 3.1%float, s)) ;;
  let zz := (5 * x31 - 0.1 * y - 1)%float in
  ret [("z"%string, z); ("zz"%string, zz)].

(** A [TestFunction] instance has [calculate] and nothing else: no
    [input_aliases], no [set_input_alias]. *)
Definition TestFunction : Evaluable (T := float) unit :=
  {| input_aliases := fun _ => None;
     set_input_alias := fun _ _ => raise (AttributeError "set_input_alias");
     calculate := TestFunction_calculate |}.

(** [test2]: the solver and the targets it is called with. *)
Definition test2_solver : solver (T := float) (E := unit) :=
  mk_solver tt
    [("x"%string, [("perturbation"%string, 0.01%float); ("sval"%string, 2%float)]);
     ("y"%string, [("perturbation"%string, 0.01%float); ("sval"%string, 3%float)])]
    None 0.

Definition test2_targets : dict float :=
  [("z"%string, 10%float); ("zz"%string, 20%float)].

(** C9 (what the code does instead).  On the test function, with the
    targets, start values and perturbations of [test2], [solve] raises
    [AttributeError] while partitioning the first target: the engine it
    wraps has no [input_aliases].  No evaluation takes place, whatever the
    power function and the linear solve are. *)
Theorem C9_solve_on_TestFunction_raises :
  forall (tensorsolve : list (list float) -> list float -> result (list float))
         (fuel : nat),
    solve (evaluable := TestFunction) tensorsolve fuel test2_targets test2_solver
    = Some (Err (AttributeError "input_aliases"), test2_solver).
Proof. intros tensorsolve fuel. reflexivity. Qed.

End TestFunction.

End Solver.
